(** * HubSpot lifecycle gate governance: validation engine, scorecards, alerts

    A shallow embedding of the validation and scoring core of the
    application (validation/engine.ts, utils/validators.ts, config/rules.ts,
    services/scorecard.service.ts, alerts/alerts.service.ts) together with
    the properties its specification states about it.

    Conventions of the embedding.
    - A JavaScript [number] that holds a fractional quantity (compliance
      score, field compliance percentage) is an IEEE 754 binary64 value,
      which is what [PrimFloat.float] is. Counters that only ever hold
      non-negative integers and are changed by [++] are [nat]; they are
      converted with [num] where the source divides them.
    - A [Date] is its [getTime()] value, milliseconds since the epoch, in
      [Z]. Each operation receives the clock reading [now] it would obtain
      from [new Date()] as an argument (the readings one operation takes are
      the same instant), and [generateId()] results likewise.
    - A string is a [string] whose characters are read as code units
      U+0000..U+00FF.
    - Module-level [Map]s are threaded explicitly as a state record.  The
      scorecard map is enumerated in insertion order by the source, so it is
      an insertion-ordered association list; maps that are only accessed by
      key are [gmap]s.
    - Violation objects are shared between the per-user violation log and
      the scorecard's embedded list, so they live in a heap and both lists
      hold references.
    - Record fields keep the source's names; where two interfaces use the
      same field name, the fields of one carry a short prefix ([vId],
      [aId], [tNow], ...). *)

From Stdlib Require Import PrimFloat Uint63 ZArith Ascii String DecimalString List Sorted.
From stdpp Require Import gmap strings list.

Set Warnings "-inexact-float".
Local Open Scope string_scope.
Local Open Scope Z_scope.

(** ** JavaScript runtime notions *)

Definition Date := Z.

Definition msPerDay : Z := 86400000.

(** [d.setDate(d.getDate() - days)] on a clock without daylight-saving
    shifts inside the window: the instant [days] whole days earlier. *)
Definition daysBefore (now : Date) (days : Z) : Date := now - days * msPerDay.

(** The number an integer counter denotes; the conversion is exact for the
    integers a counter incremented by [++] can hold, those below 2^53. *)
Definition num (n : nat) : float := of_uint63 (Uint63.of_Z (Z.of_nat n)).

(** Truthiness of an optional string: [undefined] and [""] are falsy. *)
Definition truthyStr (o : option string) : bool :=
  match o with
  | Some s => negb (String.eqb s "")
  | None => false
  end.

(** Truthiness of an optional integer: [undefined] and [0] are falsy. *)
Definition truthyNum (o : option Z) : bool :=
  match o with
  | Some n => negb (n =? 0)
  | None => false
  end.

(** [arr.slice(0, n)] for an integer [n]; a negative [n] counts from the end. *)
Definition slice0 {A : Type} (n : Z) (arr : list A) : list A :=
  if 0 <=? n then take (Z.to_nat n) arr
  else take (Z.to_nat (Z.of_nat (length arr) + n)) arr.

(** [arr.join(sep)] *)
Fixpoint join (sep : string) (arr : list string) : string :=
  match arr with
  | [] => ""
  | [s] => s
  | s :: rest => s ++ sep ++ join sep rest
  end.

(** [String(n)] for a non-negative integer *)
Definition numberToString (n : nat) : string :=
  NilEmpty.string_of_uint (Nat.to_uint n).

(** [Array.prototype.sort] with a comparator is stable: an element moves
    behind another only when the comparator is positive.  [after x y] is
    [compareFn(x, y) > 0]. *)
Section Sort.
Context {A : Type} (after : A -> A -> bool).

Fixpoint sortInsert (x : A) (sorted : list A) : list A :=
  match sorted with
  | [] => [x]
  | y :: rest => if after x y then y :: sortInsert x rest else x :: y :: rest
  end.

Definition sortBy (arr : list A) : list A := foldr sortInsert [] arr.
End Sort.

(** An insertion-ordered [Map<string, V>]. *)
Module JsMap.
Section Ops.
Context {V : Type}.

Fixpoint get (k : string) (m : list (string * V)) : option V :=
  match m with
  | [] => None
  | (k', v) :: rest => if String.eqb k k' then Some v else get k rest
  end.

Fixpoint set (k : string) (v : V) (m : list (string * V)) : list (string * V) :=
  match m with
  | [] => [(k, v)]
  | (k', v') :: rest =>
      if String.eqb k k' then (k, v) :: rest else (k', v') :: set k v rest
  end.

Definition values (m : list (string * V)) : list V := map snd m.
End Ops.
End JsMap.

(** ** Compliance and scorecard types *)

Inductive ObjectType := Contact | Deal.

Inductive Trend := Improving | Stable | Declining.

Inductive ViolationType :=
| MissingRequiredField
| InvalidStageProgression
| SkippedStage
| DependencyNotMet
| ConditionFailed
| BackwardProgression.

Inductive Severity := Low | Medium | High | Critical.

Inductive PeriodType := Daily | Weekly | Monthly | Quarterly.

Record ScorecardPeriod := {
  startDate : Date;
  endDate : Date;
  periodType : PeriodType
}.

Record ScorecardMetrics := {
  totalStageTransitions : nat;
  validTransitions : nat;
  invalidAttempts : nat;
  requiredFieldsCompliance : float;
  averageStageVelocity : float;
  dealsStagedCorrectly : nat;
  contactsStagedCorrectly : nat
}.

Record ComplianceViolation := {
  vId : string;
  vTimestamp : Date;
  vObjectType : ObjectType;
  vObjectId : string;
  violationType : ViolationType;
  vFromStage : string;
  vToStage : string;
  missingFields : option (list string);
  vRuleId : string;
  vRuleName : string;
  vSeverity : Severity;
  resolved : bool;
  resolvedAt : option Date
}.

(** A reference to a violation object. *)
Abbreviation vref := nat.

Record RepScorecard := {
  userId : string;
  userName : string;
  period : ScorecardPeriod;
  metrics : ScorecardMetrics;
  complianceScore : float;
  trend : Trend;
  violations : list vref;
  lastUpdated : Date
}.

(** ** Scorecard service (services/scorecard.service.ts) *)

Module Scorecard.

(** The module-level stores, and the heap of violation objects they share. *)
Record Store := {
  scorecardStore : list (string * RepScorecard);
  violationStore : gmap string (list vref);
  violationHeap : list ComplianceViolation
}.

Definition empty : Store :=
  {| scorecardStore := []; violationStore := ∅; violationHeap := [] |}.

Definition withScorecards (st : Store) (m : list (string * RepScorecard)) : Store :=
  {| scorecardStore := m;
     violationStore := violationStore st;
     violationHeap := violationHeap st |}.

Definition withViolationLog (st : Store) (uid : string) (log : list vref) : Store :=
  {| scorecardStore := scorecardStore st;
     violationStore := <[uid := log]> (violationStore st);
     violationHeap := violationHeap st |}.

Definition withHeap (st : Store) (h : list ComplianceViolation) : Store :=
  {| scorecardStore := scorecardStore st;
     violationStore := violationStore st;
     violationHeap := h |}.

(** The user's violation log, [violationStore.get(userId) || []]. *)
Definition userLog (st : Store) (uid : string) : list vref :=
  default [] (violationStore st !! uid).

(** A predicate on violation objects, read through a reference. *)
Definition holdsAt (h : list ComplianceViolation) (p : ComplianceViolation -> bool)
    (r : vref) : bool :=
  match h !! r with
  | Some v => p v
  | None => false
  end.

(** Day of the week of an instant (0 is Sunday), on a UTC clock. *)
Definition getDay (now : Date) : Z := (now / msPerDay + 4) mod 7.

Definition getCurrentPeriod (now : Date) : ScorecardPeriod :=
  let startOfWeek := (now / msPerDay - getDay now) * msPerDay in
  let endOfWeek := startOfWeek + 6 * msPerDay + (msPerDay - 1) in
  {| startDate := startOfWeek; endDate := endOfWeek; periodType := Weekly |}.

Definition createEmptyMetrics : ScorecardMetrics :=
  {| totalStageTransitions := 0;
     validTransitions := 0;
     invalidAttempts := 0;
     requiredFieldsCompliance := 100;
     averageStageVelocity := 0;
     dealsStagedCorrectly := 0;
     contactsStagedCorrectly := 0 |}.

Definition getOrCreateScorecard (now : Date) (uid uname : string) (st : Store)
    : RepScorecard * Store :=
  match JsMap.get uid (scorecardStore st) with
  | Some existing => (existing, st)
  | None =>
      let newScorecard :=
        {| userId := uid;
           userName := uname;
           period := getCurrentPeriod now;
           metrics := createEmptyMetrics;
           complianceScore := 100;
           trend := Stable;
           violations := [];
           lastUpdated := now |} in
      (newScorecard, withScorecards st (JsMap.set uid newScorecard (scorecardStore st)))
  end.

Definition calculateComplianceScore (m : ScorecardMetrics) : float :=
  if Nat.eqb (totalStageTransitions m) 0 then 100%float
  else
    let transitionScore :=
      (num (validTransitions m) / num (totalStageTransitions m) * 100)%float in
    let fieldScore := requiredFieldsCompliance m in
    (transitionScore * 0.6 + fieldScore * 0.4)%float.

Definition calculateTrend (now : Date) (uid : string) (st : Store) : Trend :=
  let log := userLog st uid in
  if (length log <? 5)%nat then Stable
  else
    let oneWeekAgo := daysBefore now 7 in
    let h := violationHeap st in
    let recentViolations :=
      length (List.filter
        (holdsAt h (fun v => (oneWeekAgo <=? vTimestamp v) && negb (resolved v))) log) in
    let olderViolations :=
      length (List.filter
        (holdsAt h (fun v => (vTimestamp v <? oneWeekAgo) && negb (resolved v))) log) in
    if (recentViolations <? olderViolations)%nat then Improving
    else if (olderViolations <? recentViolations)%nat then Declining
    else Stable.

Definition determineSeverity (missingFieldCount : nat) : Severity :=
  if Nat.eqb missingFieldCount 0 then Low
  else if (missingFieldCount <=? 2)%nat then Medium
  else if (missingFieldCount <=? 4)%nat then High
  else Critical.

(** [missingFields?.length || 0] *)
Definition missingCount (mf : option (list string)) : nat :=
  match mf with
  | Some l => length l
  | None => 0
  end.

Definition bumpValid (ot : ObjectType) (m : ScorecardMetrics) : ScorecardMetrics :=
  {| totalStageTransitions := totalStageTransitions m;
     validTransitions := S (validTransitions m);
     invalidAttempts := invalidAttempts m;
     requiredFieldsCompliance := requiredFieldsCompliance m;
     averageStageVelocity := averageStageVelocity m;
     dealsStagedCorrectly :=
       match ot with Contact => dealsStagedCorrectly m | Deal => S (dealsStagedCorrectly m) end;
     contactsStagedCorrectly :=
       match ot with Contact => S (contactsStagedCorrectly m) | Deal => contactsStagedCorrectly m end |}.

Definition bumpInvalid (m : ScorecardMetrics) : ScorecardMetrics :=
  {| totalStageTransitions := totalStageTransitions m;
     validTransitions := validTransitions m;
     invalidAttempts := S (invalidAttempts m);
     requiredFieldsCompliance := requiredFieldsCompliance m;
     averageStageVelocity := averageStageVelocity m;
     dealsStagedCorrectly := dealsStagedCorrectly m;
     contactsStagedCorrectly := contactsStagedCorrectly m |}.

Definition bumpTotal (m : ScorecardMetrics) : ScorecardMetrics :=
  {| totalStageTransitions := S (totalStageTransitions m);
     validTransitions := validTransitions m;
     invalidAttempts := invalidAttempts m;
     requiredFieldsCompliance := requiredFieldsCompliance m;
     averageStageVelocity := averageStageVelocity m;
     dealsStagedCorrectly := dealsStagedCorrectly m;
     contactsStagedCorrectly := contactsStagedCorrectly m |}.

(** The arguments of one [recordStageTransition] call, with the clock
    reading and the identifier [generateId()] would return. *)
Record Transition := {
  tNow : Date;
  tNewId : string;
  tUserId : string;
  tUserName : string;
  tObjectType : ObjectType;
  tObjectId : string;
  tFromStage : string;
  tToStage : string;
  tIsValid : bool;
  tMissingFields : option (list string);
  tRuleId : option string;
  tRuleName : option string
}.

Definition recordStageTransition (c : Transition) (st : Store) : Store :=
  let '(scorecard, st) := getOrCreateScorecard (tNow c) (tUserId c) (tUserName c) st in
  let m := bumpTotal (metrics scorecard) in
  let '(m, embedded, st) :=
    if tIsValid c then (bumpValid (tObjectType c) m, violations scorecard, st)
    else
      let m := bumpInvalid m in
      if truthyStr (tRuleId c) && truthyStr (tRuleName c) then
        let violation :=
          {| vId := tNewId c;
             vTimestamp := tNow c;
             vObjectType := tObjectType c;
             vObjectId := tObjectId c;
             violationType :=
               if negb (Nat.eqb (missingCount (tMissingFields c)) 0)
               then MissingRequiredField else InvalidStageProgression;
             vFromStage := tFromStage c;
             vToStage := tToStage c;
             missingFields := tMissingFields c;
             vRuleId := default "" (tRuleId c);
             vRuleName := default "" (tRuleName c);
             vSeverity := determineSeverity (missingCount (tMissingFields c));
             resolved := false;
             resolvedAt := None |} in
        let r := length (violationHeap st) in
        let st := withHeap st (violationHeap st ++ [violation])%list in
        let userViolations := userLog st (tUserId c) in
        (m, (violations scorecard ++ [r])%list,
         withViolationLog st (tUserId c) (userViolations ++ [r])%list)
      else (m, violations scorecard, st) in
  let scorecard :=
    {| userId := userId scorecard;
       userName := userName scorecard;
       period := period scorecard;
       metrics := m;
       complianceScore := calculateComplianceScore m;
       trend := calculateTrend (tNow c) (tUserId c) st;
       violations := embedded;
       lastUpdated := tNow c |} in
  withScorecards st (JsMap.set (tUserId c) scorecard (scorecardStore st)).

Definition updateFieldsCompliance (now : Date) (uid uname : string)
    (totalFields compliantFields : float) (st : Store) : Store :=
  let '(scorecard, st) := getOrCreateScorecard now uid uname st in
  let m := metrics scorecard in
  let m :=
    if (0 <? totalFields)%float then
      {| totalStageTransitions := totalStageTransitions m;
         validTransitions := validTransitions m;
         invalidAttempts := invalidAttempts m;
         requiredFieldsCompliance := (compliantFields / totalFields * 100)%float;
         averageStageVelocity := averageStageVelocity m;
         dealsStagedCorrectly := dealsStagedCorrectly m;
         contactsStagedCorrectly := contactsStagedCorrectly m |}
    else m in
  let scorecard :=
    {| userId := userId scorecard;
       userName := userName scorecard;
       period := period scorecard;
       metrics := m;
       complianceScore := complianceScore scorecard;
       trend := trend scorecard;
       violations := violations scorecard;
       lastUpdated := now |} in
  withScorecards st (JsMap.set uid scorecard (scorecardStore st)).

Definition getScorecard (uid : string) (st : Store) : option RepScorecard * Store :=
  (JsMap.get uid (scorecardStore st), st).

(** [Array.from(scorecardStore.values()).sort((a, b) => b.complianceScore -
    a.complianceScore)]: the sort works on the fresh array.  A comparator
    result that is NaN counts as zero, like every result that is not
    positive here. *)
Definition getAllScorecards (st : Store) : list RepScorecard * Store :=
  (sortBy (fun a b => (0 <? complianceScore b - complianceScore a)%float)
     (JsMap.values (scorecardStore st)),
   st).

Record ViolationQuery := {
  qResolved : option bool;
  qObjectType : option ObjectType;
  qLimit : option Z
}.

Definition timestampAt (h : list ComplianceViolation) (r : vref) : Date :=
  match h !! r with
  | Some v => vTimestamp v
  | None => 0
  end.

Definition sameObjectType (a b : ObjectType) : bool :=
  match a, b with
  | Contact, Contact | Deal, Deal => true
  | _, _ => false
  end.

(** The local [violations] starts out as the stored array itself (when the
    user has one); [filter] and [slice] build a new array, [sort] works in
    place on whatever array [violations] denotes at that point.  The second
    component of the pair tracks whether that is still the stored array. *)
Definition getUserViolations (uid : string) (options : option ViolationQuery)
    (st : Store) : list ComplianceViolation * Store :=
  let h := violationHeap st in
  let stored := violationStore st !! uid in
  let violations : list vref * bool :=
    match stored with
    | Some log => (log, true)
    | None => ([], false)
    end in
  let violations :=
    match options ≫= qResolved with
    | Some wanted =>
        (List.filter (holdsAt h (fun v => Bool.eqb (resolved v) wanted)) violations.1, false)
    | None => violations
    end in
  let violations :=
    match options ≫= qObjectType with
    | Some wanted =>
        (List.filter (holdsAt h (fun v => sameObjectType (vObjectType v) wanted)) violations.1,
         false)
    | None => violations
    end in
  let sorted := sortBy (fun a b => 0 <? timestampAt h b - timestampAt h a) violations.1 in
  let st := if violations.2 then withViolationLog st uid sorted else st in
  let result :=
    if truthyNum (options ≫= qLimit)
    then slice0 (default 0 (options ≫= qLimit)) sorted
    else sorted in
  (omap (fun r => h !! r) result, st).

Definition markResolved (now : Date) (v : ComplianceViolation) : ComplianceViolation :=
  {| vId := vId v;
     vTimestamp := vTimestamp v;
     vObjectType := vObjectType v;
     vObjectId := vObjectId v;
     violationType := violationType v;
     vFromStage := vFromStage v;
     vToStage := vToStage v;
     missingFields := missingFields v;
     vRuleId := vRuleId v;
     vRuleName := vRuleName v;
     vSeverity := vSeverity v;
     resolved := true;
     resolvedAt := Some now |}.

(** Assignment to the [resolved] and [resolvedAt] fields of the object
    behind a reference. *)
Definition resolveAt (now : Date) (r : vref) (h : list ComplianceViolation)
    : list ComplianceViolation :=
  match h !! r with
  | Some v => <[r := markResolved now v]> h
  | None => h
  end.

(** [refs.find((v) => v.id === violationId)] *)
Definition findById (h : list ComplianceViolation) (violationId : string)
    (refs : list vref) : option vref :=
  List.find (holdsAt h (fun v => String.eqb (vId v) violationId)) refs.

Definition resolveViolation (now : Date) (uid violationId : string) (st : Store)
    : bool * Store :=
  match violationStore st !! uid with
  | None => (false, st)
  | Some log =>
      match findById (violationHeap st) violationId log with
      | None => (false, st)
      | Some violation =>
          let st := withHeap st (resolveAt now violation (violationHeap st)) in
          let st :=
            match JsMap.get uid (scorecardStore st) with
            | Some scorecard =>
                match findById (violationHeap st) violationId (violations scorecard) with
                | Some scorecardViolation =>
                    withHeap st (resolveAt now scorecardViolation (violationHeap st))
                | None => st
                end
            | None => st
            end in
          (true, st)
      end
  end.

Definition resetScorecardForNewPeriod (now : Date) (uid : string) (st : Store) : Store :=
  match JsMap.get uid (scorecardStore st) with
  | None => st
  | Some scorecard =>
      let scorecard :=
        {| userId := userId scorecard;
           userName := userName scorecard;
           period := getCurrentPeriod now;
           metrics := createEmptyMetrics;
           complianceScore := 100;
           trend := trend scorecard;
           violations := [];
           lastUpdated := now |} in
      withScorecards st (JsMap.set uid scorecard (scorecardStore st))
  end.

(** The operations of the service as commands over the store. *)
Inductive Op :=
| OpGetOrCreate (now : Date) (uid uname : string)
| OpRecord (c : Transition)
| OpUpdateFields (now : Date) (uid uname : string) (totalFields compliantFields : float)
| OpGetScorecard (uid : string)
| OpGetAll
| OpGetUserViolations (uid : string) (options : option ViolationQuery)
| OpResolve (now : Date) (uid violationId : string)
| OpReset (now : Date) (uid : string).

Definition step (st : Store) (op : Op) : Store :=
  match op with
  | OpGetOrCreate now uid uname => (getOrCreateScorecard now uid uname st).2
  | OpRecord c => recordStageTransition c st
  | OpUpdateFields now uid uname t k => updateFieldsCompliance now uid uname t k st
  | OpGetScorecard uid => (getScorecard uid st).2
  | OpGetAll => (getAllScorecards st).2
  | OpGetUserViolations uid options => (getUserViolations uid options st).2
  | OpResolve now uid vid => (resolveViolation now uid vid st).2
  | OpReset now uid => resetScorecardForNewPeriod now uid st
  end.

Definition run (st : Store) (ops : list Op) : Store := foldl step st ops.

(** *** Notions used to state the properties *)

(** The scorecard an operation on [uid] starts from: the stored one, or the
    one lazily created. *)
Definition current (now : Date) (uid uname : string) (st : Store) : RepScorecard :=
  (getOrCreateScorecard now uid uname st).1.

(** What one recorded transition does to the scorecard of its user. *)
Record Recorded (c : Transition) (before after : RepScorecard) : Prop := {
  rec_userId : userId after = userId before;
  rec_userName : userName after = userName before;
  rec_total :
    totalStageTransitions (metrics after) = S (totalStageTransitions (metrics before));
  rec_valid :
    validTransitions (metrics after)
    = if tIsValid c then S (validTransitions (metrics before))
      else validTransitions (metrics before);
  rec_invalid :
    invalidAttempts (metrics after)
    = if tIsValid c then invalidAttempts (metrics before)
      else S (invalidAttempts (metrics before));
  rec_fields :
    requiredFieldsCompliance (metrics after) = requiredFieldsCompliance (metrics before);
  rec_score : complianceScore after = calculateComplianceScore (metrics after);
  rec_updated : lastUpdated after = tNow c
}.

(** A sequence of [recordStageTransition] calls. *)
Definition recordAll (st : Store) (cs : list Transition) : Store :=
  foldl (fun st c => recordStageTransition c st) st cs.

(** How many calls of a sequence are for a given user. *)
Fixpoint callsFor (uid : string) (cs : list Transition) : nat :=
  match cs with
  | [] => 0
  | c :: rest => (if String.eqb (tUserId c) uid then 1 else 0) + callsFor uid rest
  end.

(** The counters a user's next operation starts from. *)
Definition storedMetrics (st : Store) (uid : string) : ScorecardMetrics :=
  match JsMap.get uid (scorecardStore st) with
  | Some sc => metrics sc
  | None => createEmptyMetrics
  end.

(** The calls of the unit test "should update compliance score based on
    transitions": eight valid transitions, then two invalid ones. *)
Definition validCall (i : nat) : Transition :=
  {| tNow := 1700000000000 + Z.of_nat i;
     tNewId := "";
     tUserId := "compliance-score-user";
     tUserName := "Compliance Score User";
     tObjectType := Contact;
     tObjectId := "contact-" ++ numberToString i;
     tFromStage := "lead";
     tToStage := "mql";
     tIsValid := true;
     tMissingFields := None;
     tRuleId := None;
     tRuleName := None |}.

Definition invalidCall (i : nat) : Transition :=
  {| tNow := 1700000000008 + Z.of_nat i;
     tNewId := "1700000000008-" ++ numberToString i;
     tUserId := "compliance-score-user";
     tUserName := "Compliance Score User";
     tObjectType := Contact;
     tObjectId := "contact-fail-" ++ numberToString i;
     tFromStage := "lead";
     tToStage := "mql";
     tIsValid := false;
     tMissingFields := Some ["email"];
     tRuleId := Some "rule-1";
     tRuleName := Some "Test Rule" |}.

Definition eightValidTwoInvalid : list Transition :=
  (map validCall (seq 0 8) ++ map invalidCall (seq 0 2))%list.




(** An invalid transition that carries a rule, recorded for [uid] at [now]. *)
Definition violationCall (uid : string) (now : Date) (newId : string) : Transition :=
  {| tNow := now;
     tNewId := newId;
     tUserId := uid;
     tUserName := "Violation User";
     tObjectType := Deal;
     tObjectId := "deal-1";
     tFromStage := "appointment";
     tToStage := "qualified";
     tIsValid := false;
     tMissingFields := Some ["amount"];
     tRuleId := Some "rule-1";
     tRuleName := Some "Amount Required" |}.

(** A store in which one user has two violations, recorded a second apart. *)
Definition twoViolations : Store :=
  recordAll empty
    [violationCall "violation-user" 1700000000000 "1700000000000-aaa";
     violationCall "violation-user" 1700000001000 "1700000001000-bbb"].



End Scorecard.

(** ** Governance alerts (alerts/alerts.service.ts) *)

Inductive AlertType :=
| StageGateViolation
| RequiredFieldMissing
| ComplianceThreshold
| SlaBreach
| BulkViolation
| SystemError.

Inductive AlertSeverity := AlertInfo | AlertWarning | AlertError | AlertCritical.

(** A value stored in an alert's [metadata]. *)
Inductive MetaValue :=
| MetaString (s : string)
| MetaStrings (l : option (list string)).

Record GovernanceAlert := {
  aId : string;
  aType : AlertType;
  aSeverity : AlertSeverity;
  aTitle : string;
  aMessage : string;
  aObjectType : ObjectType;
  aObjectId : string;
  aUserId : string;
  aTimestamp : Date;
  acknowledged : bool;
  acknowledgedBy : option string;
  acknowledgedAt : option Date;
  aMetadata : option (list (string * MetaValue))
}.

Module Alerts.

Record Store := {
  alertStore : gmap string GovernanceAlert;
  alertsByPortal : gmap Z (list string);
  alertsByUser : gmap string (list string)
}.

Definition empty : Store :=
  {| alertStore := ∅; alertsByPortal := ∅; alertsByUser := ∅ |}.

Definition withAlerts (st : Store) (m : gmap string GovernanceAlert) : Store :=
  {| alertStore := m;
     alertsByPortal := alertsByPortal st;
     alertsByUser := alertsByUser st |}.

(** [Omit<GovernanceAlert, 'id' | 'timestamp' | 'acknowledged'>] *)
Record AlertFields := {
  fType : AlertType;
  fSeverity : AlertSeverity;
  fTitle : string;
  fMessage : string;
  fObjectType : ObjectType;
  fObjectId : string;
  fUserId : string;
  fAcknowledgedBy : option string;
  fAcknowledgedAt : option Date;
  fMetadata : option (list (string * MetaValue))
}.

Definition createAlert (now : Date) (newId : string) (portalId : Z) (alert : AlertFields)
    (st : Store) : GovernanceAlert * Store :=
  let newAlert :=
    {| aId := newId;
       aType := fType alert;
       aSeverity := fSeverity alert;
       aTitle := fTitle alert;
       aMessage := fMessage alert;
       aObjectType := fObjectType alert;
       aObjectId := fObjectId alert;
       aUserId := fUserId alert;
       aTimestamp := now;
       acknowledged := false;
       acknowledgedBy := fAcknowledgedBy alert;
       acknowledgedAt := fAcknowledgedAt alert;
       aMetadata := fMetadata alert |} in
  let portalAlerts := default [] (alertsByPortal st !! portalId) in
  let userAlerts := default [] (alertsByUser st !! fUserId alert) in
  (newAlert,
   {| alertStore := <[newId := newAlert]> (alertStore st);
      alertsByPortal := <[portalId := (portalAlerts ++ [newId])%list]> (alertsByPortal st);
      alertsByUser := <[fUserId alert := (userAlerts ++ [newId])%list]> (alertsByUser st) |}).

Definition severityMap (s : Severity) : AlertSeverity :=
  match s with
  | Low => AlertInfo
  | Medium => AlertWarning
  | High => AlertError
  | Critical => AlertCritical
  end.

Definition mapViolationTypeToAlertType (t : ViolationType) : AlertType :=
  match t with
  | MissingRequiredField => RequiredFieldMissing
  | InvalidStageProgression => StageGateViolation
  | SkippedStage => StageGateViolation
  | DependencyNotMet => StageGateViolation
  | ConditionFailed => StageGateViolation
  | BackwardProgression => StageGateViolation
  end.

(** [s || fallback] on strings *)
Definition orElse (s fallback : string) : string :=
  if String.eqb s "" then fallback else s.

Definition buildViolationMessage (v : ComplianceViolation) : string :=
  match violationType v with
  | MissingRequiredField =>
      "Missing required fields: "
      ++ orElse (match missingFields v with Some l => join ", " l | None => "" end) "unknown"
  | InvalidStageProgression =>
      "Invalid stage progression from " ++ vFromStage v ++ " to " ++ vToStage v
  | SkippedStage =>
      "Stages were skipped in the progression from " ++ vFromStage v ++ " to " ++ vToStage v
  | DependencyNotMet =>
      "Required dependencies not met for progression to " ++ vToStage v
  | ConditionFailed => "Stage conditions not met for " ++ vToStage v
  | BackwardProgression =>
      "Backward progression detected from " ++ vFromStage v ++ " to " ++ vToStage v
  end.

Definition createAlertFromViolation (now : Date) (newId : string) (portalId : Z)
    (violation : ComplianceViolation) (uid : string) (st : Store)
    : GovernanceAlert * Store :=
  createAlert now newId portalId
    {| fType := mapViolationTypeToAlertType (violationType violation);
       fSeverity := severityMap (vSeverity violation);
       fTitle := "Stage Gate Violation: " ++ vRuleName violation;
       fMessage := buildViolationMessage violation;
       fObjectType := vObjectType violation;
       fObjectId := vObjectId violation;
       fUserId := uid;
       fAcknowledgedBy := None;
       fAcknowledgedAt := None;
       fMetadata :=
         Some [("ruleId", MetaString (vRuleId violation));
               ("fromStage", MetaString (vFromStage violation));
               ("toStage", MetaString (vToStage violation));
               ("missingFields", MetaStrings (missingFields violation))] |}
    st.

Definition getAlert (alertId : string) (st : Store) : option GovernanceAlert * Store :=
  (alertStore st !! alertId, st).

Definition severityName (s : AlertSeverity) : string :=
  match s with
  | AlertInfo => "info"
  | AlertWarning => "warning"
  | AlertError => "error"
  | AlertCritical => "critical"
  end.

Definition sameAlertType (a b : AlertType) : bool :=
  match a, b with
  | StageGateViolation, StageGateViolation
  | RequiredFieldMissing, RequiredFieldMissing
  | ComplianceThreshold, ComplianceThreshold
  | SlaBreach, SlaBreach
  | BulkViolation, BulkViolation
  | SystemError, SystemError => true
  | _, _ => false
  end.

Record PortalAlertQuery := {
  paAcknowledged : option bool;
  paSeverity : option string;
  paType : option AlertType;
  paLimit : option Z
}.

Record UserAlertQuery := {
  uaAcknowledged : option bool;
  uaLimit : option Z
}.

(** [alertIds.map((id) => alertStore.get(id)).filter(Boolean)] *)
Definition resolveIds (st : Store) (alertIds : list string) : list GovernanceAlert :=
  omap (fun id => alertStore st !! id) alertIds.

Definition newestFirst (alerts : list GovernanceAlert) : list GovernanceAlert :=
  sortBy (fun a b => 0 <? aTimestamp b - aTimestamp a) alerts.

Definition limited {A : Type} (limit : option Z) (arr : list A) : list A :=
  if truthyNum limit then slice0 (default 0 limit) arr else arr.

Definition getPortalAlerts (portalId : Z) (options : option PortalAlertQuery) (st : Store)
    : list GovernanceAlert * Store :=
  let alertIds := default [] (alertsByPortal st !! portalId) in
  let alerts := resolveIds st alertIds in
  let alerts :=
    match options ≫= paAcknowledged with
    | Some wanted => List.filter (fun a => Bool.eqb (acknowledged a) wanted) alerts
    | None => alerts
    end in
  let alerts :=
    if truthyStr (options ≫= paSeverity)
    then List.filter
           (fun a => String.eqb (severityName (aSeverity a)) (default "" (options ≫= paSeverity)))
           alerts
    else alerts in
  let alerts :=
    match options ≫= paType with
    | Some wanted => List.filter (fun a => sameAlertType (aType a) wanted) alerts
    | None => alerts
    end in
  (limited (options ≫= paLimit) (newestFirst alerts), st).

Definition getUserAlerts (uid : string) (options : option UserAlertQuery) (st : Store)
    : list GovernanceAlert * Store :=
  let alertIds := default [] (alertsByUser st !! uid) in
  let alerts := resolveIds st alertIds in
  let alerts :=
    match options ≫= uaAcknowledged with
    | Some wanted => List.filter (fun a => Bool.eqb (acknowledged a) wanted) alerts
    | None => alerts
    end in
  (limited (options ≫= uaLimit) (newestFirst alerts), st).

Definition acknowledgeAlert (now : Date) (alertId by_ : string) (st : Store) : bool * Store :=
  match alertStore st !! alertId with
  | None => (false, st)
  | Some alert =>
      let alert :=
        {| aId := aId alert;
           aType := aType alert;
           aSeverity := aSeverity alert;
           aTitle := aTitle alert;
           aMessage := aMessage alert;
           aObjectType := aObjectType alert;
           aObjectId := aObjectId alert;
           aUserId := aUserId alert;
           aTimestamp := aTimestamp alert;
           acknowledged := true;
           acknowledgedBy := Some by_;
           acknowledgedAt := Some now;
           aMetadata := aMetadata alert |} in
      (true, withAlerts st (<[alertId := alert]> (alertStore st)))
  end.

Definition getUnacknowledgedAlertCount (uid : string) (st : Store) : nat * Store :=
  let '(alerts, st) :=
    getUserAlerts uid (Some {| uaAcknowledged := Some false; uaLimit := None |}) st in
  (length alerts, st).

(** The [alert.timestamp < cutoffDate && alert.acknowledged] test of the
    cleanup loop. *)
Definition expired (cutoffDate : Date) (alert : GovernanceAlert) : bool :=
  (aTimestamp alert <? cutoffDate) && acknowledged alert.

(** One iteration of the loop over [alertStore.entries()]; the accumulator
    is the store being pruned and [deletedCount]. *)
Definition cleanupVisit (cutoffDate : Date) (acc : gmap string GovernanceAlert * nat)
    (entry : string * GovernanceAlert) : gmap string GovernanceAlert * nat :=
  if expired cutoffDate entry.2 then (delete entry.1 acc.1, S acc.2) else acc.

Definition cleanupOldAlerts (now : Date) (olderThanDays : option Z) (st : Store)
    : nat * Store :=
  let cutoffDate := daysBefore now (default 30 olderThanDays) in
  let '(pruned, deletedCount) :=
    foldl (cleanupVisit cutoffDate) (alertStore st, 0%nat) (map_to_list (alertStore st)) in
  (deletedCount, withAlerts st pruned).

(** *** Notions used to state the properties *)

Definition sampleAlert : AlertFields :=
  {| fType := StageGateViolation;
     fSeverity := AlertWarning;
     fTitle := "Test Alert";
     fMessage := "This is a test alert";
     fObjectType := Contact;
     fObjectId := "contact-123";
     fUserId := "user-456";
     fAcknowledgedBy := None;
     fAcknowledgedAt := None;
     fMetadata := None |}.

(** Two alerts of one user in one portal, the first of them acknowledged. *)
Definition oneAcknowledged : Store :=
  let st := (createAlert 1700000000000 "1700000000000-aaa" 12345 sampleAlert empty).2 in
  let st := (createAlert 1700000001000 "1700000001000-bbb" 12345 sampleAlert st).2 in
  (acknowledgeAlert 1700000002000 "1700000000000-aaa" "admin" st).2.

(** Whether the entries still to be visited hold an expired alert under [k]. *)
Definition dooms (cutoffDate : Date) (k : string) (l : list (string * GovernanceAlert))
    : bool :=
  existsb (fun e => String.eqb e.1 k && expired cutoffDate e.2) l.

End Alerts.

(** ** Field and value validators (utils/validators.ts) *)

(** Regular expressions as the validators' literals use them; [test] with
    both anchors decides membership of the whole string, computed here with
    derivatives. *)
Inductive Regex :=
| RNone
| REps
| RClass (p : ascii -> bool)
| RSeq (r1 r2 : Regex)
| RAlt (r1 r2 : Regex)
| RStar (r : Regex).

Fixpoint nullable (r : Regex) : bool :=
  match r with
  | RNone => false
  | REps => true
  | RClass _ => false
  | RSeq r1 r2 => nullable r1 && nullable r2
  | RAlt r1 r2 => nullable r1 || nullable r2
  | RStar _ => true
  end.

Fixpoint deriv (c : ascii) (r : Regex) : Regex :=
  match r with
  | RNone => RNone
  | REps => RNone
  | RClass p => if p c then REps else RNone
  | RSeq r1 r2 =>
      if nullable r1 then RAlt (RSeq (deriv c r1) r2) (deriv c r2)
      else RSeq (deriv c r1) r2
  | RAlt r1 r2 => RAlt (deriv c r1) (deriv c r2)
  | RStar r1 => RSeq (deriv c r1) (RStar r1)
  end.

Fixpoint regexTest (r : Regex) (s : string) : bool :=
  match s with
  | EmptyString => nullable r
  | String c rest => regexTest (deriv c r) rest
  end.

Definition RPlus (r : Regex) : Regex := RSeq r (RStar r).
Definition ROpt (r : Regex) : Regex := RAlt REps r.

Fixpoint RRepeat (n : nat) (r : Regex) : Regex :=
  match n with
  | O => REps
  | S k => RSeq r (RRepeat k r)
  end.

(** [r{lo,hi}] with [hi = lo + extra] *)
Definition RBetween (lo extra : nat) (r : Regex) : Regex :=
  RSeq (RRepeat lo r) (RRepeat extra (ROpt r)).

Definition codeIn (codes : list nat) (c : ascii) : bool :=
  existsb (Nat.eqb (nat_of_ascii c)) codes.

(** [\s] on code units below 256: TAB, LF, VT, FF, CR, space, NBSP. *)
Definition isSpace : ascii -> bool := codeIn [9; 10; 11; 12; 13; 32; 160]%nat.

Definition isChar (x : ascii) (c : ascii) : bool := Ascii.eqb c x.

Definition isDigit (c : ascii) : bool :=
  let n := nat_of_ascii c in ((48 <=? n) && (n <=? 57))%nat.

(** [[^\s@]] *)
Definition notSpaceOrAt (c : ascii) : bool := negb (isSpace c || isChar "@" c).

(** [/^[^\s@]+@[^\s@]+\.[^\s@]+$/] *)
Definition emailRegex : Regex :=
  RSeq (RPlus (RClass notSpaceOrAt))
    (RSeq (RClass (isChar "@"))
      (RSeq (RPlus (RClass notSpaceOrAt))
        (RSeq (RClass (isChar "."))
          (RPlus (RClass notSpaceOrAt))))).

Definition isValidEmail (email : string) : bool := regexTest emailRegex email.

Fixpoint removeChars (p : ascii -> bool) (s : string) : string :=
  match s with
  | EmptyString => EmptyString
  | String c rest => if p c then removeChars p rest else String c (removeChars p rest)
  end.

(** [[\s\-()./]] *)
Definition phoneFormatting (c : ascii) : bool :=
  isSpace c || isChar "-" c || isChar "(" c || isChar ")" c || isChar "." c || isChar "/" c.

(** [/^\+?[0-9]{7,15}$/] *)
Definition phoneRegex : Regex :=
  RSeq (ROpt (RClass (isChar "+"))) (RBetween 7 8 (RClass isDigit)).

Definition isValidPhone (phone : string) : bool :=
  let cleaned := removeChars phoneFormatting phone in
  regexTest phoneRegex cleaned.

Fixpoint trimStart (s : string) : string :=
  match s with
  | EmptyString => EmptyString
  | String c rest => if isSpace c then trimStart rest else s
  end.

Fixpoint reverse (acc s : string) : string :=
  match s with
  | EmptyString => acc
  | String c rest => reverse (String c acc) rest
  end.

(** [s.trim()] *)
Definition trim (s : string) : string :=
  reverse "" (trimStart (reverse "" (trimStart s))).

(** The value handed to [isNonEmpty] and [exists] is a property value:
    a string or [undefined]. *)
Definition isNonEmpty (value : option string) : bool :=
  match value with
  | None => false
  | Some s => (0 <? String.length (trim s))%nat
  end.

Definition exists_ (value : option string) : bool :=
  match value with
  | None => false
  | Some _ => true
  end.

Definition hasMinLength (value : string) (minLength : nat) : bool :=
  (minLength <=? String.length value)%nat.

(** [[^0-9.-]] *)
Definition notNumeric (c : ascii) : bool :=
  negb (isDigit c || isChar "." c || isChar "-" c).

Definition upperChar (c : ascii) : ascii :=
  let n := nat_of_ascii c in
  if ((97 <=? n) && (n <=? 122))%nat then ascii_of_nat (n - 32) else c.

(** [s.toUpperCase()] on ASCII letters *)
Fixpoint toUpperCase (s : string) : string :=
  match s with
  | EmptyString => EmptyString
  | String c rest => String (upperChar c) (toUpperCase rest)
  end.

(** ** Stage tables (types/hubspot.ts) *)

(** A [Record<string, number>] literal: [Object.entries] enumerates it in
    declaration order, indexing finds the entry of a key. *)
Definition LIFECYCLE_STAGE_ORDER : list (string * Z) :=
  [("subscriber", 0);
   ("lead", 1);
   ("marketingqualifiedlead", 2);
   ("salesqualifiedlead", 3);
   ("opportunity", 4);
   ("customer", 5);
   ("evangelist", 6);
   ("other", 7)].

Definition DEAL_STAGE_ORDER : list (string * Z) :=
  [("appointmentscheduled", 0);
   ("qualifiedtobuy", 1);
   ("presentationscheduled", 2);
   ("decisionmakerboughtin", 3);
   ("contractsent", 4);
   ("closedwon", 5);
   ("closedlost", 6)].

(** [table[key]] *)
Fixpoint index (table : list (string * Z)) (key : string) : option Z :=
  match table with
  | [] => None
  | (k, n) :: rest => if String.eqb key k then Some n else index rest key
  end.

(** ** Validation types (types/validation.ts) *)

Record ValidationError := {
  eCode : string;
  eMessage : string;
  eField : option string;
  eCurrentValue : option string;
  eRequiredValue : option string
}.

Record ValidationWarning := {
  wCode : string;
  wMessage : string;
  wField : option string;
  wRecommendation : option string
}.

Record ValidationResult := {
  isValid : bool;
  errors : list ValidationError;
  warnings : list ValidationWarning
}.

Inductive FieldRuleType :=
| TyRequired
| TyNonEmpty
| TyRegex
| TyMinLength
| TyEmail
| TyPhone.

Record RequiredFieldRule := {
  rfField : string;
  rfLabel : string;
  rfType : FieldRuleType;
  rfPattern : option string;
  rfMinLength : option nat;
  rfErrorMessage : option string
}.

Inductive DependencyType := DepAssociation | DepProperty | DepStage.

Record StageDependency := {
  depType : DependencyType;
  depTarget : string;
  depCondition : string;
  depErrorMessage : string
}.

Inductive Operator :=
| OpEquals
| OpNotEquals
| OpContains
| OpGreaterThan
| OpLessThan
| OpExists.

(** [string | number] *)
Inductive ConditionValue :=
| CString (s : string)
| CNumber (n : float).

Record StageCondition := {
  cField : string;
  cOperator : Operator;
  cValue : option ConditionValue;
  cErrorMessage : string
}.

Record StageGateRule := {
  ruleId : string;
  ruleName : string;
  ruleDescription : string;
  fromStage : string;
  toStage : string;
  requiredFields : list RequiredFieldRule;
  dependencies : option (list StageDependency);
  conditions : option (list StageCondition);
  active : bool
}.

Record ValidationRequest := {
  objectType : ObjectType;
  objectId : string;
  currentStage : string;
  targetStage : string;
  properties : gmap string string;
  requestUserId : option string
}.

(** ** Rule catalog (config/rules.ts) *)

Definition fieldRule (field label : string) (ty : FieldRuleType) (message : string)
    : RequiredFieldRule :=
  {| rfField := field; rfLabel := label; rfType := ty;
     rfPattern := None; rfMinLength := None; rfErrorMessage := Some message |}.

Definition lifecycleStageRules : list StageGateRule :=
  [ {| ruleId := "lifecycle-lead-to-mql";
       ruleName := "Lead to MQL Transition";
       ruleDescription := "Requirements for promoting a lead to Marketing Qualified Lead";
       fromStage := "lead";
       toStage := "marketingqualifiedlead";
       requiredFields :=
         [ fieldRule "email" "Email" TyEmail "Valid email is required";
           fieldRule "firstname" "First Name" TyNonEmpty "First name is required";
           fieldRule "lastname" "Last Name" TyNonEmpty "Last name is required";
           fieldRule "company" "Company" TyNonEmpty "Company name is required" ];
       dependencies := None;
       conditions := None;
       active := true |};
    {| ruleId := "lifecycle-mql-to-sql";
       ruleName := "MQL to SQL Transition";
       ruleDescription := "Requirements for promoting an MQL to Sales Qualified Lead";
       fromStage := "marketingqualifiedlead";
       toStage := "salesqualifiedlead";
       requiredFields :=
         [ fieldRule "phone" "Phone" TyPhone "Valid phone number is required";
           fieldRule "hubspot_owner_id" "Contact Owner" TyRequired
             "Contact owner must be assigned" ];
       dependencies := None;
       conditions :=
         Some [ {| cField := "hs_lead_status";
                   cOperator := OpExists;
                   cValue := None;
                   cErrorMessage := "Lead status must be set before SQL promotion" |} ];
       active := true |};
    {| ruleId := "lifecycle-sql-to-opportunity";
       ruleName := "SQL to Opportunity Transition";
       ruleDescription := "Requirements for promoting an SQL to Opportunity";
       fromStage := "salesqualifiedlead";
       toStage := "opportunity";
       requiredFields :=
         [ fieldRule "hubspot_owner_id" "Contact Owner" TyRequired
             "Contact owner must be assigned" ];
       dependencies :=
         Some [ {| depType := DepAssociation;
                   depTarget := "deal";
                   depCondition := "exists";
                   depErrorMessage := "Contact must be associated with at least one deal" |} ];
       conditions := None;
       active := true |};
    {| ruleId := "lifecycle-opportunity-to-customer";
       ruleName := "Opportunity to Customer Transition";
       ruleDescription := "Requirements for converting an Opportunity to Customer";
       fromStage := "opportunity";
       toStage := "customer";
       requiredFields := [];
       dependencies :=
         Some [ {| depType := DepAssociation;
                   depTarget := "deal";
                   depCondition := "closed_won";
                   depErrorMessage := "Contact must have at least one closed-won deal" |} ];
       conditions := None;
       active := true |} ].

Definition dealStageRules : list StageGateRule :=
  [ {| ruleId := "deal-appointment-to-qualified";
       ruleName := "Appointment to Qualified Transition";
       ruleDescription :=
         "Requirements for moving from Appointment Scheduled to Qualified to Buy";
       fromStage := "appointmentscheduled";
       toStage := "qualifiedtobuy";
       requiredFields :=
         [ fieldRule "dealname" "Deal Name" TyNonEmpty "Deal name is required";
           fieldRule "amount" "Deal Amount" TyRequired "Deal amount must be set";
           fieldRule "hubspot_owner_id" "Deal Owner" TyRequired "Deal owner must be assigned" ];
       dependencies := None;
       conditions := None;
       active := true |};
    {| ruleId := "deal-qualified-to-presentation";
       ruleName := "Qualified to Presentation Transition";
       ruleDescription :=
         "Requirements for moving from Qualified to Buy to Presentation Scheduled";
       fromStage := "qualifiedtobuy";
       toStage := "presentationscheduled";
       requiredFields :=
         [ fieldRule "closedate" "Close Date" TyRequired "Expected close date must be set" ];
       dependencies :=
         Some [ {| depType := DepAssociation;
                   depTarget := "contact";
                   depCondition := "exists";
                   depErrorMessage := "Deal must be associated with at least one contact" |} ];
       conditions := None;
       active := true |};
    {| ruleId := "deal-presentation-to-decision";
       ruleName := "Presentation to Decision Maker Transition";
       ruleDescription :=
         "Requirements for moving from Presentation Scheduled to Decision Maker Bought In";
       fromStage := "presentationscheduled";
       toStage := "decisionmakerboughtin";
       requiredFields := [];
       dependencies := None;
       conditions :=
         Some [ {| cField := "amount";
                   cOperator := OpGreaterThan;
                   cValue := Some (CNumber 0);
                   cErrorMessage := "Deal amount must be greater than zero" |} ];
       active := true |};
    {| ruleId := "deal-decision-to-contract";
       ruleName := "Decision Maker to Contract Sent Transition";
       ruleDescription :=
         "Requirements for moving from Decision Maker Bought In to Contract Sent";
       fromStage := "decisionmakerboughtin";
       toStage := "contractsent";
       requiredFields := [];
       dependencies := None;
       conditions := None;
       active := true |};
    {| ruleId := "deal-contract-to-won";
       ruleName := "Contract Sent to Closed Won Transition";
       ruleDescription := "Requirements for closing a deal as won";
       fromStage := "contractsent";
       toStage := "closedwon";
       requiredFields :=
         [ fieldRule "amount" "Deal Amount" TyRequired "Final deal amount must be set";
           fieldRule "closedate" "Close Date" TyRequired "Close date must be set" ];
       dependencies := None;
       conditions := None;
       active := true |} ].

Definition getRulesForObjectType (ot : ObjectType) : list StageGateRule :=
  let rules := match ot with Contact => lifecycleStageRules | Deal => dealStageRules end in
  List.filter active rules.

Definition getRuleForTransition (ot : ObjectType) (from to : string) : option StageGateRule :=
  let rules := getRulesForObjectType ot in
  List.find (fun rule => String.eqb (fromStage rule) from && String.eqb (toStage rule) to) rules.

(** ** Validation engine (validation/engine.ts) *)

(** [haystack.includes(needle)] *)
Fixpoint includes (needle haystack : string) : bool :=
  String.prefix needle haystack
  || match haystack with
     | EmptyString => false
     | String _ rest => includes needle rest
     end.

Section Engine.
(** Two built-ins of the JavaScript runtime are taken as given:
    [regExpTest pattern s] is [new RegExp(pattern).test(s)], or [None] when
    the constructor throws on [pattern]; [parseFloat] is the global
    function, whose result may be NaN. *)
Context (regExpTest : string -> string -> option bool).
Context (parseFloat : string -> float).

Definition matchesPattern (value pattern : string) : bool :=
  match regExpTest pattern value with
  | Some b => b
  | None => false
  end.

(** A property value is a string or [undefined]. *)
Definition parseNumeric (value : option string) : float :=
  match value with
  | Some s =>
      let parsed := parseFloat (removeChars notNumeric s) in
      if is_nan parsed then 0%float else parsed
  | None => 0%float
  end.

(** The outcome of the [switch] on [rule.type]: validity of the value and
    the message to report. *)
Definition checkField (rule : RequiredFieldRule) (value : option string) : bool * string :=
  let message (fallback : string) : string :=
    if truthyStr (rfErrorMessage rule) then default "" (rfErrorMessage rule) else fallback in
  match rfType rule with
  | TyRequired => (exists_ value, message (rfLabel rule ++ " is required"))
  | TyNonEmpty => (isNonEmpty value, message (rfLabel rule ++ " cannot be empty"))
  | TyEmail =>
      (match value with Some s => isValidEmail s | None => false end,
       message (rfLabel rule ++ " must be a valid email"))
  | TyPhone =>
      (match value with Some s => isValidPhone s | None => false end,
       message (rfLabel rule ++ " must be a valid phone number"))
  | TyRegex =>
      (match value, rfPattern rule with
       | Some s, Some pattern => matchesPattern s pattern
       | _, _ => false
       end,
       message (rfLabel rule ++ " format is invalid"))
  | TyMinLength =>
      (match value, rfMinLength rule with
       | Some s, Some n => hasMinLength s n
       | _, _ => false
       end,
       message (rfLabel rule ++ " must be at least "
                ++ match rfMinLength rule with
                   | Some n => numberToString n
                   | None => "undefined"
                   end
                ++ " characters"))
  end.

Definition validateRequiredFields (rules : list RequiredFieldRule)
    (props : gmap string string) : list ValidationError :=
  omap
    (fun rule =>
       let value := props !! rfField rule in
       let '(ok, errorMessage) := checkField rule value in
       if ok then None
       else Some {| eCode := "INVALID_" ++ toUpperCase (rfField rule);
                    eMessage := errorMessage;
                    eField := Some (rfField rule);
                    eCurrentValue := value;
                    eRequiredValue := None |})
    rules.

(** [value === condition.value] *)
Definition strictEquals (value : option string) (expected : option ConditionValue) : bool :=
  match value, expected with
  | None, None => true
  | Some s, Some (CString s') => String.eqb s s'
  | _, _ => false
  end.

Definition checkCondition (condition : StageCondition) (value : option string) : bool :=
  match cOperator condition with
  | OpEquals => strictEquals value (cValue condition)
  | OpNotEquals => negb (strictEquals value (cValue condition))
  | OpContains =>
      match value, cValue condition with
      | Some s, Some (CString needle) => includes needle s
      | _, _ => false
      end
  | OpGreaterThan =>
      match cValue condition with
      | Some (CNumber n) => (n <? parseNumeric value)%float
      | _ => false
      end
  | OpLessThan =>
      match cValue condition with
      | Some (CNumber n) => (parseNumeric value <? n)%float
      | _ => false
      end
  | OpExists => exists_ value && isNonEmpty value
  end.

Definition validateConditions (conds : list StageCondition)
    (props : gmap string string) : list ValidationError :=
  omap
    (fun condition =>
       let value := props !! cField condition in
       if checkCondition condition value then None
       else Some {| eCode := "CONDITION_FAILED_" ++ toUpperCase (cField condition);
                    eMessage := cErrorMessage condition;
                    eField := Some (cField condition);
                    eCurrentValue := value;
                    eRequiredValue := None |})
    conds.

Definition stageOrderFor (ot : ObjectType) : list (string * Z) :=
  match ot with
  | Contact => LIFECYCLE_STAGE_ORDER
  | Deal => DEAL_STAGE_ORDER
  end.

Definition checkBackwardProgression (request : ValidationRequest)
    : option ValidationWarning :=
  let stageOrder := stageOrderFor (objectType request) in
  match index stageOrder (currentStage request), index stageOrder (targetStage request) with
  | Some currentOrder, Some targetOrder =>
      if targetOrder <? currentOrder then
        Some {| wCode := "BACKWARD_PROGRESSION";
                wMessage := "Moving from " ++ currentStage request ++ " to "
                            ++ targetStage request ++ " is a backward progression";
                wField := None;
                wRecommendation :=
                  Some "Backward progressions may require manager approval. Ensure this is intentional." |}
      else None
  | _, _ => None
  end.

Definition checkSkippedStages (request : ValidationRequest) : option ValidationWarning :=
  let stageOrder := stageOrderFor (objectType request) in
  match index stageOrder (currentStage request), index stageOrder (targetStage request) with
  | Some currentOrder, Some targetOrder =>
      if currentOrder + 1 <? targetOrder then
        let skipped :=
          map fst
            (List.filter
               (fun entry => (currentOrder <? entry.2) && (entry.2 <? targetOrder))
               stageOrder) in
        if (0 <? length skipped)%nat then
          Some {| wCode := "SKIPPED_STAGES";
                  wMessage := "Skipping stages: " ++ join ", " skipped;
                  wField := None;
                  wRecommendation :=
                    Some "Consider whether all stage requirements have been met." |}
        else None
      else None
  | _, _ => None
  end.

Definition validateStageTransition (request : ValidationRequest) : ValidationResult :=
  let warnings0 : list ValidationWarning := [] in
  let warnings1 :=
    match checkBackwardProgression request with
    | Some backwardResult => (warnings0 ++ [backwardResult])%list
    | None => warnings0
    end in
  let warnings2 :=
    match checkSkippedStages request with
    | Some skippedResult => (warnings1 ++ [skippedResult])%list
    | None => warnings1
    end in
  let rule :=
    getRuleForTransition (objectType request) (currentStage request) (targetStage request) in
  let errs : list ValidationError :=
    match rule with
    | Some rule =>
        let fieldErrors := validateRequiredFields (requiredFields rule) (properties request) in
        match conditions rule with
        | Some conds =>
            (fieldErrors ++ validateConditions conds (properties request))%list
        | None => fieldErrors
        end
    | None => []
    end in
  {| isValid := Nat.eqb (length errs) 0;
     errors := errs;
     warnings := warnings2 |}.

End Engine.

(** *** Notions used to state the properties *)

(** The ranks of a table are [0, 1, ..., length - 1], in this order. *)
Definition dense (t : list (string * Z)) : Prop :=
  t.*2 = Z.of_nat <$> seq 0 (length t).

(** The test applied to the entries of a stage table when collecting the
    skipped stages: the rank lies strictly between [lo] and [hi]. *)
Definition between (lo hi : Z) (entry : string * Z) : bool :=
  (lo <? entry.2) && (entry.2 <? hi).

(** The runtime built-ins at which the examples are evaluated: a regular
    expression engine that rejects every pattern, and a [parseFloat] that
    parses nothing. *)
Definition noRegExp (pattern s : string) : option bool := None.
Definition noParseFloat (s : string) : float := nan.

(** The request of the unit test "should warn on skipped stages". *)
Definition subscriberToOpportunity : ValidationRequest :=
  {| objectType := Contact;
     objectId := "12345";
     currentStage := "subscriber";
     targetStage := "opportunity";
     properties := ∅;
     requestUserId := None |}.

(** A lead promoted with only an email on record. *)
Definition leadWithEmailOnly : ValidationRequest :=
  {| objectType := Contact;
     objectId := "contact-123";
     currentStage := "lead";
     targetStage := "marketingqualifiedlead";
     properties := {[ "email" := "test@example.com" ]};
     requestUserId := None |}.

(** ** The language of a regular expression *)

(** The strings a regular expression matches as a whole, which is what
    [test] decides for a pattern anchored at both ends. *)
Inductive Matches : Regex -> string -> Prop :=
| MEps : Matches REps ""
| MClass (p : ascii -> bool) (c : ascii) : p c = true -> Matches (RClass p) (String c "")
| MSeq (r1 r2 : Regex) (s1 s2 : string) :
    Matches r1 s1 -> Matches r2 s2 -> Matches (RSeq r1 r2) (s1 ++ s2)
| MAltL (r1 r2 : Regex) (s : string) : Matches r1 s -> Matches (RAlt r1 r2) s
| MAltR (r1 r2 : Regex) (s : string) : Matches r2 s -> Matches (RAlt r1 r2) s
| MStarNil (r : Regex) : Matches (RStar r) ""
| MStarCons (r : Regex) (s1 s2 : string) :
    Matches r s1 -> Matches (RStar r) s2 -> Matches (RStar r) (s1 ++ s2).

(** Every character of a string satisfies [p]. *)
Fixpoint allChars (p : ascii -> bool) (s : string) : bool :=
  match s with
  | EmptyString => true
  | String c rest => p c && allChars p rest
  end.

(** Some character of a string satisfies [p]. *)
Fixpoint someChar (p : ascii -> bool) (s : string) : bool :=
  match s with
  | EmptyString => false
  | String c rest => p c || someChar p rest
  end.

(** A character that is not whitespace. *)
Definition nonSpace (c : ascii) : bool := negb (isSpace c).

(** ** Advisory validation over all rules (validation/engine.ts) *)

(** The one-character string holding a double quote. *)
Definition doubleQuote : string := String (ascii_of_nat 34) EmptyString.

(** [s.replace(/-/g, '_')] *)
Fixpoint dashesToUnderscores (s : string) : string :=
  match s with
  | EmptyString => EmptyString
  | String c rest =>
      String (if isChar "-" c then "_"%char else c) (dashesToUnderscores rest)
  end.

Section Advisory.
Context (regExpTest : string -> string -> option bool).

Definition getValidationRules (ot : ObjectType) : list StageGateRule :=
  getRulesForObjectType ot.

Definition validateAllRules (ot : ObjectType) (props : gmap string string)
    : ValidationResult :=
  let rules := getValidationRules ot in
  let warns :=
    omap
      (fun rule =>
         let fieldErrors := validateRequiredFields regExpTest (requiredFields rule) props in
         if (0 <? length fieldErrors)%nat then
           Some {| wCode := "RULE_" ++ dashesToUnderscores (toUpperCase (ruleId rule));
                   wMessage := "Rule " ++ doubleQuote ++ ruleName rule ++ doubleQuote
                               ++ " would fail for this record";
                   wField := None;
                   wRecommendation :=
                     Some ("Missing fields: "
                           ++ join ", " (map (fun e => default "" (eField e))
                                           fieldErrors)) |}
         else None)
      rules in
  {| isValid := true; errors := []; warnings := warns |}.

End Advisory.

(** ** The validation route (routes/validation.routes.ts) *)

(** The body of a [POST /validate] request, each field present or not.
    A field that is present has the type the handler expects of it: the
    stages, ids and names are strings, [portalId] a number, [properties] an
    object of strings. *)
Record ValidateBody := {
  bObjectType : option string;
  bObjectId : option string;
  bCurrentStage : option string;
  bTargetStage : option string;
  bProperties : option (gmap string string);
  bUserId : option string;
  bPortalId : option Z;
  bUserName : option string
}.

(** What the handler answers: status 400 with an [error], or status 200
    with the validation result. *)
Inductive ValidateResponse :=
| BadRequest (error : string)
| Validated (result : ValidationResult).

(** Both services' stores. *)
Record AppState := {
  scorecards : Scorecard.Store;
  alerts : Alerts.Store
}.

(** [String(Date.now())] *)
Definition dateNowString (now : Date) : string :=
  NilEmpty.string_of_int (Z.to_int now).

(** [result.errors.map((e) => e.field).filter(Boolean)] *)
Definition errorFields (errs : list ValidationError) : list string :=
  omap (fun e => if truthyStr (eField e) then eField e else None) errs.

Section Routes.
Context (regExpTest : string -> string -> option bool).
Context (parseFloat : string -> float).

(** The handler of [POST /validate].  [violationId] and [alertId] are the
    identifiers the two [generateId()] calls it may reach would return. *)
Definition postValidate (now : Date) (violationId alertId : string) (body : ValidateBody)
    (st : AppState) : ValidateResponse * AppState :=
  if negb (truthyStr (bObjectType body) && truthyStr (bObjectId body)
           && truthyStr (bCurrentStage body) && truthyStr (bTargetStage body)
           && match bProperties body with Some _ => true | None => false end)
  then (BadRequest "Missing required fields", st)
  else
    match
      (if String.eqb (default "" (bObjectType body)) "contact" then Some Contact
       else if String.eqb (default "" (bObjectType body)) "deal" then Some Deal
       else None)
    with
    | None => (BadRequest "Invalid object type", st)
    | Some ot =>
        let oid := default "" (bObjectId body) in
        let current := default "" (bCurrentStage body) in
        let target := default "" (bTargetStage body) in
        let request :=
          {| objectType := ot;
             objectId := oid;
             currentStage := current;
             targetStage := target;
             properties := default ∅ (bProperties body);
             requestUserId := bUserId body |} in
        let result := validateStageTransition regExpTest parseFloat request in
        let st :=
          if truthyStr (bUserId body) && truthyNum (bPortalId body) then
            let uid := default "" (bUserId body) in
            let uname := if truthyStr (bUserName body) then default "" (bUserName body) else uid in
            let failed := (0 <? length (errors result))%nat in
            let sc :=
              Scorecard.recordStageTransition
                {| Scorecard.tNow := now;
                   Scorecard.tNewId := violationId;
                   Scorecard.tUserId := uid;
                   Scorecard.tUserName := uname;
                   Scorecard.tObjectType := ot;
                   Scorecard.tObjectId := oid;
                   Scorecard.tFromStage := current;
                   Scorecard.tToStage := target;
                   Scorecard.tIsValid := isValid result;
                   Scorecard.tMissingFields := Some (errorFields (errors result));
                   Scorecard.tRuleId := if failed then Some "validation-error" else None;
                   Scorecard.tRuleName := if failed then Some "Validation Failed" else None |}
                (scorecards st) in
            let al :=
              if negb (isValid result) && failed then
                (Alerts.createAlertFromViolation now alertId (default 0 (bPortalId body))
                   {| vId := dateNowString now;
                      vTimestamp := now;
                      vObjectType := ot;
                      vObjectId := oid;
                      violationType := MissingRequiredField;
                      vFromStage := current;
                      vToStage := target;
                      missingFields := Some (errorFields (errors result));
                      vRuleId := "validation";
                      vRuleName := "Stage Transition Validation";
                      vSeverity := if (2 <? length (errors result))%nat then High else Medium;
                      resolved := false;
                      resolvedAt := None |}
                   uid (alerts st)).2
              else alerts st in
            {| scorecards := sc; alerts := al |}
          else st in
        (Validated result, st)
    end.

End Routes.

(** ** Notions the further properties are stated with *)

Section Descending.
Context {A : Type} (key : A -> Z).

(** A list whose keys never increase. *)
Definition descending (l : list A) : Prop :=
  StronglySorted (fun a b => key b <= key a) l.

End Descending.

Module ScorecardNotions.
Import Scorecard.
Local Open Scope nat_scope.

(** Whether a violation passes the [resolved] and [objectType] filters of a
    query. *)
Definition passes (options : option ViolationQuery) (v : ComplianceViolation) : bool :=
  match options ≫= qResolved with
  | Some wanted => Bool.eqb (resolved v) wanted
  | None => true
  end
  && match options ≫= qObjectType with
     | Some wanted => sameObjectType (vObjectType v) wanted
     | None => true
     end.

(** The references a query selects, newest first, before the limit. *)
Definition selectedRefs (uid : string) (options : option ViolationQuery) (st : Store)
    : list vref :=
  let h := violationHeap st in
  let log := userLog st uid in
  let log :=
    match options ≫= qResolved with
    | Some wanted => List.filter (holdsAt h (fun v => Bool.eqb (resolved v) wanted)) log
    | None => log
    end in
  let log :=
    match options ≫= qObjectType with
    | Some wanted => List.filter (holdsAt h (fun v => sameObjectType (vObjectType v) wanted)) log
    | None => log
    end in
  sortBy (fun a b => (0 <? timestampAt h b - timestampAt h a)%Z) log.

(** The filters of a query, applied through a reference. *)
Definition passesAt (h : list ComplianceViolation) (options : option ViolationQuery)
    (r : vref) : bool :=
  match options ≫= qResolved with
  | Some wanted => holdsAt h (fun v => Bool.eqb (resolved v) wanted) r
  | None => true
  end
  && match options ≫= qObjectType with
     | Some wanted => holdsAt h (fun v => sameObjectType (vObjectType v) wanted) r
     | None => true
     end.

(** What holds of a scorecard stored under [uid]. *)
Record GoodScorecard (st : Store) (uid : string) (sc : RepScorecard) : Prop := {
  good_key : userId sc = uid;
  good_total :
    totalStageTransitions (metrics sc)
    = validTransitions (metrics sc) + invalidAttempts (metrics sc);
  good_valid :
    validTransitions (metrics sc)
    = contactsStagedCorrectly (metrics sc) + dealsStagedCorrectly (metrics sc);
  good_embedded_count : length (violations sc) <= invalidAttempts (metrics sc);
  good_embedded : forall r, r ∈ violations sc -> r ∈ userLog st uid
}.

(** What holds of a store the service has produced. *)
Record Consistent (st : Store) : Prop := {
  cons_keys : NoDup (scorecardStore st).*1;
  cons_cards :
    forall uid sc, JsMap.get uid (scorecardStore st) = Some sc -> GoodScorecard st uid sc;
  cons_refs : forall uid r, r ∈ userLog st uid -> r < length (violationHeap st)
}.

(** [v'] is [v] up to resolution: every field but [resolved] and
    [resolvedAt] is the same, and a resolved violation stays resolved. *)
Record Evolves (v v' : ComplianceViolation) : Prop := {
  ev_id : vId v' = vId v;
  ev_timestamp : vTimestamp v' = vTimestamp v;
  ev_objectType : vObjectType v' = vObjectType v;
  ev_objectId : vObjectId v' = vObjectId v;
  ev_type : violationType v' = violationType v;
  ev_from : vFromStage v' = vFromStage v;
  ev_to : vToStage v' = vToStage v;
  ev_missing : missingFields v' = missingFields v;
  ev_ruleId : vRuleId v' = vRuleId v;
  ev_ruleName : vRuleName v' = vRuleName v;
  ev_severity : vSeverity v' = vSeverity v;
  ev_resolved : resolved v = true -> resolved v' = true
}.

(** The heap [h'] holds every object of [h], up to resolution. *)
Definition HeapEvolves (h h' : list ComplianceViolation) : Prop :=
  forall r v, h !! r = Some v -> exists v', h' !! r = Some v' /\ Evolves v v'.

End ScorecardNotions.

Module AlertNotions.
Import Alerts.

(** Whether an alert passes the filters of a portal query. *)
Definition passesPortal (options : option PortalAlertQuery) (a : GovernanceAlert) : bool :=
  match options ≫= paAcknowledged with
  | Some wanted => Bool.eqb (acknowledged a) wanted
  | None => true
  end
  && (if truthyStr (options ≫= paSeverity)
      then String.eqb (severityName (aSeverity a)) (default "" (options ≫= paSeverity))
      else true)
  && match options ≫= paType with
     | Some wanted => sameAlertType (aType a) wanted
     | None => true
     end.

(** Whether an alert passes the filter of a user query. *)
Definition passesUser (options : option UserAlertQuery) (a : GovernanceAlert) : bool :=
  match options ≫= uaAcknowledged with
  | Some wanted => Bool.eqb (acknowledged a) wanted
  | None => true
  end.

End AlertNotions.

(** A body asking to promote a lead that has only an email, and the state
    of a server that has just started. *)
Definition leadBody : ValidateBody :=
  {| bObjectType := Some "contact";
     bObjectId := Some "contact-123";
     bCurrentStage := Some "lead";
     bTargetStage := Some "marketingqualifiedlead";
     bProperties := Some {[ "email" := "test@example.com" ]};
     bUserId := Some "user-456";
     bPortalId := Some 12345%Z;
     bUserName := None |}.

Definition freshApp : AppState :=
  {| scorecards := Scorecard.empty; alerts := Alerts.empty |}.

(** * Properties *)

(** ** Insertion-ordered maps *)

Module JsMapFacts.
Section Facts.
Context {V : Type}.
Implicit Types (m : list (string * V)) (k : string) (v : V).

Lemma get_set_eq m k v : JsMap.get k (JsMap.set k v m) = Some v.
Proof.
  induction m as [|[k' v'] rest IH]; simpl.
  - by rewrite String.eqb_refl.
  - destruct (String.eqb k k') eqn:E; simpl.
    + by rewrite String.eqb_refl.
    + by rewrite E.
Qed.

Lemma get_set_ne m k k' v : k <> k' -> JsMap.get k' (JsMap.set k v m) = JsMap.get k' m.
Proof.
  intros Hne. induction m as [|[k0 v0] rest IH]; simpl.
  - apply String.eqb_neq in Hne. rewrite String.eqb_sym in Hne. by rewrite Hne.
  - destruct (String.eqb k k0) eqn:E; simpl.
    + apply String.eqb_eq in E. subst k0.
      assert (String.eqb k' k = false) as -> by (apply String.eqb_neq; congruence).
      done.
    + by rewrite IH.
Qed.

(** Writing back the value a key already has changes nothing. *)
Lemma set_get_id m k v : JsMap.get k m = Some v -> JsMap.set k v m = m.
Proof.
  induction m as [|[k0 v0] rest IH]; simpl; [done|].
  destruct (String.eqb k k0) eqn:E.
  - apply String.eqb_eq in E. subst k0. by intros [= ->].
  - intros Hg. by rewrite IH.
Qed.
End Facts.
End JsMapFacts.

(** ** Validators *)

(** The cases of the validators' unit tests. *)
Example isValidEmail_cases :
  map isValidEmail
    ["test@example.com"; "user.name@domain.co.uk"; "test+tag@gmail.com";
     "not-an-email"; "@domain.com"; "test@"; ""]
  = [true; true; true; false; false; false; false].
Proof. reflexivity. Qed.

Example isValidPhone_cases :
  map isValidPhone
    ["+1-555-555-5555"; "5555555555"; "+44 20 7946 0958"; "(555) 555-5555";
     "123"; "abc"; ""]
  = [true; true; true; true; false; false; false].
Proof. reflexivity. Qed.

Example isNonEmpty_cases :
  map isNonEmpty [Some "hello"; Some "  hello  "; Some ""; Some "   "; None]
  = [true; true; false; false; false].
Proof. reflexivity. Qed.

Example hasMinLength_cases :
  (hasMinLength "hello" 5, hasMinLength "hello" 3, hasMinLength "hi" 5) = (true, true, false).
Proof. reflexivity. Qed.

(** ** Scorecard service *)

Module ScorecardFacts.
Import Scorecard JsMapFacts.
Local Open Scope nat_scope.

Lemma getOrCreate_lookup now uid uname st :
  JsMap.get uid (scorecardStore (getOrCreateScorecard now uid uname st).2)
  = Some (current now uid uname st).
Proof.
  unfold current, getOrCreateScorecard.
  destruct (JsMap.get uid (scorecardStore st)) eqn:E; simpl; [done|].
  apply get_set_eq.
Qed.

Lemma getOrCreate_lookup_ne now uid uname st other :
  uid <> other ->
  JsMap.get other (scorecardStore (getOrCreateScorecard now uid uname st).2)
  = JsMap.get other (scorecardStore st).
Proof.
  intros Hne. unfold getOrCreateScorecard.
  destruct (JsMap.get uid (scorecardStore st)) eqn:E; simpl; [done|].
  by apply get_set_ne.
Qed.

Lemma getOrCreate_existing now uid uname st sc :
  JsMap.get uid (scorecardStore st) = Some sc ->
  getOrCreateScorecard now uid uname st = (sc, st).
Proof. intros H. unfold getOrCreateScorecard. by rewrite H. Qed.

Lemma getOrCreate_logs now uid uname st :
  violationStore (getOrCreateScorecard now uid uname st).2 = violationStore st
  /\ violationHeap (getOrCreateScorecard now uid uname st).2 = violationHeap st.
Proof.
  unfold getOrCreateScorecard. by destruct (JsMap.get uid (scorecardStore st)).
Qed.

Lemma record_lookup c st :
  exists after,
    JsMap.get (tUserId c) (scorecardStore (recordStageTransition c st)) = Some after
    /\ Recorded c (current (tNow c) (tUserId c) (tUserName c) st) after.
Proof.
  unfold recordStageTransition, current.
  destruct (getOrCreateScorecard (tNow c) (tUserId c) (tUserName c) st) as [sc st1].
  destruct (tIsValid c) eqn:Hv; [|destruct (truthyStr (tRuleId c) && truthyStr (tRuleName c))];
    simpl; rewrite get_set_eq; eexists; (split; [reflexivity|]);
    constructor; simpl; rewrite ?Hv; reflexivity.
Qed.

Lemma record_lookup_ne c st other :
  tUserId c <> other ->
  JsMap.get other (scorecardStore (recordStageTransition c st))
  = JsMap.get other (scorecardStore st).
Proof.
  intros Hne. unfold recordStageTransition.
  pose proof (getOrCreate_lookup_ne (tNow c) (tUserId c) (tUserName c) st other Hne) as Hg.
  destruct (getOrCreateScorecard (tNow c) (tUserId c) (tUserName c) st) as [sc st1].
  simpl in Hg.
  destruct (tIsValid c); [|destruct (truthyStr (tRuleId c) && truthyStr (tRuleName c))];
    simpl; by rewrite get_set_ne.
Qed.

Lemma current_metrics now uid uname st :
  metrics (current now uid uname st) = storedMetrics st uid.
Proof.
  unfold current, storedMetrics, getOrCreateScorecard.
  by destruct (JsMap.get uid (scorecardStore st)).
Qed.

Lemma storedMetrics_lookup st uid sc :
  JsMap.get uid (scorecardStore st) = Some sc -> storedMetrics st uid = metrics sc.
Proof. unfold storedMetrics. by intros ->. Qed.

(** The counters after a sequence of calls, from any starting point. *)
Lemma recordAll_counts uid cs : forall st,
  (callsFor uid cs = 0%nat ->
     JsMap.get uid (scorecardStore (recordAll st cs)) = JsMap.get uid (scorecardStore st))
  /\ ((0 < callsFor uid cs)%nat ->
      exists sc,
        JsMap.get uid (scorecardStore (recordAll st cs)) = Some sc
        /\ totalStageTransitions (metrics sc)
           = (totalStageTransitions (storedMetrics st uid) + callsFor uid cs)%nat
        /\ (validTransitions (metrics sc) + invalidAttempts (metrics sc)
            = validTransitions (storedMetrics st uid)
              + invalidAttempts (storedMetrics st uid) + callsFor uid cs)%nat).
Proof.
  induction cs as [|c cs IH]; intros st; simpl.
  - split; [done | lia].
  - destruct (IH (recordStageTransition c st)) as [IH0 IHpos].
    destruct (String.eqb (tUserId c) uid) eqn:E.
    + apply String.eqb_eq in E. subst uid.
      destruct (record_lookup c st) as (after & Hget & Hrec).
      destruct Hrec as [_ _ Htot Hval Hinv _ _ _].
      rewrite current_metrics in Htot, Hval, Hinv.
      pose proof (storedMetrics_lookup _ _ _ Hget) as Hm.
      split; [lia | intros _].
      destruct (Nat.eq_dec (callsFor (tUserId c) cs) 0) as [Hz | Hnz].
      * exists after. rewrite IH0 by done. rewrite Hz.
        destruct (tIsValid c); repeat split; try done; lia.
      * destruct IHpos as (sc & Hsc & Ht & Hvi); [lia|].
        exists sc. rewrite Hm in Ht, Hvi.
        destruct (tIsValid c); repeat split; try done; lia.
    + apply String.eqb_neq in E.
      unfold storedMetrics in *.
      rewrite (record_lookup_ne c st uid E) in IH0, IHpos.
      split; [intros Hz; by apply IH0 | intros Hp; by apply IHpos].
Qed.

(** C3. After any sequence of recorded transitions that starts without a
    scorecard for the user, the user's scorecard counts exactly the calls
    made for that user: [totalStageTransitions] is their number [N], and so
    is [validTransitions + invalidAttempts] (with no call for the user there
    is still no scorecard).  Each single call adds one to
    [totalStageTransitions] and one to exactly one of [validTransitions]
    and [invalidAttempts]. *)
Theorem record_counts_calls (uid : string) (st : Store) (cs : list Transition)
    (Hfresh : JsMap.get uid (scorecardStore st) = None) :
  let N := callsFor uid cs in
  let st' := recordAll st cs in
  (N = 0%nat -> JsMap.get uid (scorecardStore st') = None)
  /\ ((0 < N)%nat ->
      exists sc,
        JsMap.get uid (scorecardStore st') = Some sc
        /\ totalStageTransitions (metrics sc) = N
        /\ (validTransitions (metrics sc) + invalidAttempts (metrics sc))%nat = N)
  /\ (forall (c : Transition) (st0 : Store),
        let before := storedMetrics st0 (tUserId c) in
        exists sc,
          JsMap.get (tUserId c) (scorecardStore (recordStageTransition c st0)) = Some sc
          /\ totalStageTransitions (metrics sc) = S (totalStageTransitions before)
          /\ ((validTransitions (metrics sc) = S (validTransitions before)
               /\ invalidAttempts (metrics sc) = invalidAttempts before)
              \/ (validTransitions (metrics sc) = validTransitions before
                  /\ invalidAttempts (metrics sc) = S (invalidAttempts before)))).
Proof.
  intros N st'. subst N st'.
  destruct (recordAll_counts uid cs st) as [H0 Hpos].
  assert (storedMetrics st uid = createEmptyMetrics) as Hm
    by (unfold storedMetrics; by rewrite Hfresh).
  rewrite Hm in Hpos. simpl in Hpos.
  split; [|split].
  - intros Hz. rewrite H0 by done. done.
  - done.
  - intros c st0 before. subst before.
    destruct (record_lookup c st0) as (after & Hget & Hrec).
    destruct Hrec as [_ _ Htot Hval Hinv _ _ _].
    rewrite current_metrics in Htot, Hval, Hinv.
    exists after. split; [done|]. split; [done|].
    destruct (tIsValid c); [left | right]; done.
Qed.

Lemma record_counts_calls_witness :
  let uid := "compliance-score-user" in
  let st' := recordAll empty eightValidTwoInvalid in
  JsMap.get uid (scorecardStore empty) = None
  /\ callsFor uid eightValidTwoInvalid = 10%nat
  /\ exists sc,
       JsMap.get uid (scorecardStore st') = Some sc
       /\ totalStageTransitions (metrics sc) = 10%nat
       /\ (validTransitions (metrics sc) + invalidAttempts (metrics sc))%nat = 10%nat.
Proof.
  split; [reflexivity|]. split; [reflexivity|].
  apply (record_counts_calls "compliance-score-user" empty eightValidTwoInvalid);
    [reflexivity | vm_compute; lia].
Defined.

(** C2. After every recorded transition the user's compliance score is
    [validTransitions / totalStageTransitions * 100 * 0.6 +
    requiredFieldsCompliance * 0.4] over the updated counters; the score of
    counters with no transition is 100, which is also the score a scorecard
    is created with; a scorecard with eight valid transitions out of ten and
    the default field compliance of 100 has the score 88, as the run of
    eight valid and two invalid transitions from an empty store shows. *)
Theorem compliance_score_formula :
  (forall (c : Transition) (st : Store),
     exists sc,
       JsMap.get (tUserId c) (scorecardStore (recordStageTransition c st)) = Some sc
       /\ complianceScore sc
          = (num (validTransitions (metrics sc)) / num (totalStageTransitions (metrics sc))
             * 100 * 0.6
             + requiredFieldsCompliance (metrics sc) * 0.4)%float)
  /\ (forall m : ScorecardMetrics,
        totalStageTransitions m = 0%nat -> calculateComplianceScore m = 100%float)
  /\ (forall now uid uname st,
        JsMap.get uid (scorecardStore st) = None ->
        complianceScore (current now uid uname st) = 100%float)
  /\ (forall (c : Transition) (st : Store) (sc : RepScorecard),
        JsMap.get (tUserId c) (scorecardStore (recordStageTransition c st)) = Some sc ->
        validTransitions (metrics sc) = 8%nat ->
        totalStageTransitions (metrics sc) = 10%nat ->
        requiredFieldsCompliance (metrics sc) = 100%float ->
        complianceScore sc = 88%float)
  /\ (exists sc,
        JsMap.get "compliance-score-user"
          (scorecardStore (recordAll empty eightValidTwoInvalid)) = Some sc
        /\ validTransitions (metrics sc) = 8%nat
        /\ invalidAttempts (metrics sc) = 2%nat
        /\ requiredFieldsCompliance (metrics sc) = 100%float
        /\ complianceScore sc = 88%float).
Proof.
  assert (forall c st,
            exists sc,
              JsMap.get (tUserId c) (scorecardStore (recordStageTransition c st)) = Some sc
              /\ complianceScore sc
                 = (num (validTransitions (metrics sc))
                    / num (totalStageTransitions (metrics sc)) * 100 * 0.6
                    + requiredFieldsCompliance (metrics sc) * 0.4)%float) as Hformula.
  { intros c st. destruct (record_lookup c st) as (after & Hget & Hrec).
    exists after. split; [done|].
    destruct Hrec as [_ _ Ht _ _ _ Hs _]. rewrite Hs.
    unfold calculateComplianceScore. by rewrite Ht. }
  split; [exact Hformula|]. split; [|split; [|split]].
  - intros m Hm. unfold calculateComplianceScore. by rewrite Hm.
  - intros now uid uname st Hnone. unfold current, getOrCreateScorecard.
    by rewrite Hnone.
  - intros c st sc Hget Hv Ht Hf.
    destruct (Hformula c st) as (sc' & Hget' & Hscore).
    rewrite Hget in Hget'. injection Hget' as <-.
    rewrite Hscore, Hv, Ht, Hf. reflexivity.
  - eexists. split; [vm_compute; reflexivity|]. vm_compute. auto.
Qed.

(** *** [updateFieldsCompliance] *)

Lemma updateFields_lookup now uid uname total compliant st :
  exists after,
    JsMap.get uid (scorecardStore (updateFieldsCompliance now uid uname total compliant st))
    = Some after
    /\ userName after = userName (current now uid uname st)
    /\ complianceScore after = complianceScore (current now uid uname st)
    /\ lastUpdated after = now
    /\ requiredFieldsCompliance (metrics after)
       = (if (0 <? total)%float then (compliant / total * 100)%float
          else requiredFieldsCompliance (storedMetrics st uid))
    /\ totalStageTransitions (metrics after) = totalStageTransitions (storedMetrics st uid)
    /\ validTransitions (metrics after) = validTransitions (storedMetrics st uid)
    /\ invalidAttempts (metrics after) = invalidAttempts (storedMetrics st uid).
Proof.
  rewrite <- (current_metrics now uid uname st).
  unfold updateFieldsCompliance, current.
  destruct (getOrCreateScorecard now uid uname st) as [sc st1].
  simpl. rewrite get_set_eq. eexists. split; [reflexivity|]. simpl.
  destruct (0 <? total)%float; simpl; repeat split; reflexivity.
Qed.

Lemma updateFields_lookup_ne now uid uname total compliant st other :
  uid <> other ->
  JsMap.get other (scorecardStore (updateFieldsCompliance now uid uname total compliant st))
  = JsMap.get other (scorecardStore st).
Proof.
  intros Hne. unfold updateFieldsCompliance.
  pose proof (getOrCreate_lookup_ne now uid uname st other Hne) as Hg.
  destruct (getOrCreateScorecard now uid uname st) as [sc st1].
  simpl in *. by rewrite get_set_ne.
Qed.

(** C8. With [totalFields > 0], [updateFieldsCompliance] stores
    [compliantFields / totalFields * 100] as the required-fields compliance
    and the call time as [lastUpdated], and leaves the compliance score as
    it was (the score of the scorecard the call started from); the new
    percentage enters the score at the user's next recorded transition. *)
Theorem updateFields_keeps_score (now : Date) (uid uname : string)
    (totalFields compliantFields : float) (st : Store)
    (Hpos : (0 <? totalFields)%float = true) :
  let st' := updateFieldsCompliance now uid uname totalFields compliantFields st in
  (exists sc,
     JsMap.get uid (scorecardStore st') = Some sc
     /\ requiredFieldsCompliance (metrics sc) = (compliantFields / totalFields * 100)%float
     /\ lastUpdated sc = now
     /\ complianceScore sc = complianceScore (current now uid uname st))
  /\ (forall c : Transition,
        tUserId c = uid ->
        exists sc,
          JsMap.get uid (scorecardStore (recordStageTransition c st')) = Some sc
          /\ complianceScore sc
             = (num (validTransitions (metrics sc)) / num (totalStageTransitions (metrics sc))
                * 100 * 0.6
                + compliantFields / totalFields * 100 * 0.4)%float).
Proof.
  intros st'. subst st'.
  destruct (updateFields_lookup now uid uname totalFields compliantFields st)
    as (after & Hget & _ & Hscore & Hupd & Hrfc & _).
  rewrite Hpos in Hrfc.
  split; [by exists after|].
  intros c <-.
  destruct (record_lookup c
              (updateFieldsCompliance now (tUserId c) uname totalFields compliantFields st))
    as (sc & Hsc & Hrec).
  exists sc. split; [done|].
  destruct Hrec as [_ _ Htot _ _ Hf Hs _].
  rewrite Hs. unfold calculateComplianceScore. rewrite Htot. simpl.
  rewrite Hf, current_metrics, (storedMetrics_lookup _ _ _ Hget), Hrfc. done.
Qed.

Lemma updateFields_keeps_score_witness :
  let st := recordAll empty eightValidTwoInvalid in
  let st' := updateFieldsCompliance 1700000000100%Z "compliance-score-user" "Renamed" 4 1 st in
  exists sc,
    JsMap.get "compliance-score-user" (scorecardStore st') = Some sc
    /\ requiredFieldsCompliance (metrics sc) = (1 / 4 * 100)%float
    /\ lastUpdated sc = 1700000000100%Z
    /\ complianceScore sc
       = complianceScore
           (current 1700000000100%Z "compliance-score-user" "Renamed" st).
Proof.
  intros st st'.
  refine (proj1 (updateFields_keeps_score 1700000000100%Z "compliance-score-user" "Renamed"
                   4 1 st _)).
  reflexivity.
Defined.

(** *** The user name of a scorecard *)

Lemma reset_lookup now uid st other :
  userName <$> JsMap.get other (scorecardStore (resetScorecardForNewPeriod now uid st))
  = userName <$> JsMap.get other (scorecardStore st).
Proof.
  unfold resetScorecardForNewPeriod.
  destruct (JsMap.get uid (scorecardStore st)) as [sc|] eqn:E; [|done].
  simpl. destruct (decide (uid = other)) as [<-|Hne].
  - by rewrite get_set_eq, E.
  - by rewrite get_set_ne.
Qed.

Lemma getUserViolations_scorecards uid options st :
  scorecardStore (getUserViolations uid options st).2 = scorecardStore st.
Proof.
  unfold getUserViolations. simpl.
  repeat match goal with
         | |- context [match ?x with _ => _ end] => destruct x; simpl
         end; reflexivity.
Qed.

Lemma resolve_scorecards now uid vid st :
  scorecardStore (resolveViolation now uid vid st).2 = scorecardStore st.
Proof.
  unfold resolveViolation.
  repeat match goal with
         | |- context [match ?x with _ => _ end] => destruct x eqn:?; simpl
         end; reflexivity.
Qed.

Lemma step_userName op st uid :
  is_Some (JsMap.get uid (scorecardStore st)) ->
  userName <$> JsMap.get uid (scorecardStore (step st op))
  = userName <$> JsMap.get uid (scorecardStore st).
Proof.
  intros [sc Hsc]. destruct op as [now u n | c | now u n t k | u | | u o | now u v | now u];
    cbn [step].
  - destruct (decide (u = uid)) as [->|Hne].
    + by rewrite (getOrCreate_existing _ _ _ _ _ Hsc).
    + by rewrite getOrCreate_lookup_ne.
  - destruct (decide (tUserId c = uid)) as [<-|Hne].
    + destruct (record_lookup c st) as (after & -> & Hrec).
      destruct Hrec as [_ Hname _ _ _ _ _ _].
      unfold current in Hname. rewrite (getOrCreate_existing _ _ _ _ _ Hsc) in Hname.
      rewrite Hsc. simpl. by rewrite Hname.
    + by rewrite record_lookup_ne.
  - destruct (decide (u = uid)) as [->|Hne].
    + destruct (updateFields_lookup now uid n t k st) as (after & -> & Hname & _).
      unfold current in Hname. rewrite (getOrCreate_existing _ _ _ _ _ Hsc) in Hname.
      rewrite Hsc. simpl. by rewrite Hname.
    + by rewrite updateFields_lookup_ne.
  - done.
  - done.
  - by rewrite getUserViolations_scorecards.
  - by rewrite resolve_scorecards.
  - apply reset_lookup.
Qed.

(** C10. Once a user has a scorecard its [userName] never changes: not by a
    later [getOrCreateScorecard], [recordStageTransition] or
    [updateFieldsCompliance] that passes another name, nor by any other
    operation of the service, whatever sequence of them runs. *)
Theorem userName_fixed_at_creation (uid : string) (sc : RepScorecard) (st : Store)
    (ops : list Op) (Hsc : JsMap.get uid (scorecardStore st) = Some sc) :
  (exists sc',
     JsMap.get uid (scorecardStore (run st ops)) = Some sc' /\ userName sc' = userName sc)
  /\ (forall now uname, userName (getOrCreateScorecard now uid uname st).1 = userName sc).
Proof.
  split.
  - revert st sc Hsc. induction ops as [|op ops IH]; intros st sc Hsc; simpl.
    + by exists sc.
    + pose proof (step_userName op st uid (ex_intro _ sc Hsc)) as Hstep.
      rewrite Hsc in Hstep. simpl in Hstep.
      destruct (JsMap.get uid (scorecardStore (step st op))) as [sc1|] eqn:E1; [|done].
      simpl in Hstep. injection Hstep as Hname.
      destruct (IH _ _ E1) as (sc' & Hget & Hn). exists sc'. split; [done|]. congruence.
  - intros now uname. by rewrite (getOrCreate_existing _ _ _ _ _ Hsc).
Qed.

Lemma userName_fixed_at_creation_witness :
  let st := (getOrCreateScorecard 1700000000000%Z "test-user-1" "Test User" empty).2 in
  let ops :=
    [OpGetOrCreate 1700000000001%Z "test-user-1" "Someone Else";
     OpRecord
       {| tNow := 1700000000002%Z; tNewId := "1700000000002-abc";
          tUserId := "test-user-1"; tUserName := "Another Name";
          tObjectType := Deal; tObjectId := "deal-1";
          tFromStage := "appointment"; tToStage := "qualified";
          tIsValid := false; tMissingFields := Some ["amount"];
          tRuleId := Some "rule-1"; tRuleName := Some "Amount Required" |};
     OpUpdateFields 1700000000003%Z "test-user-1" "Third Name" 10 7] in
  exists sc',
    JsMap.get "test-user-1" (scorecardStore (run st ops)) = Some sc'
    /\ userName sc' = "Test User".
Proof.
  intros st ops.
  refine (proj1 (userName_fixed_at_creation "test-user-1"
                   (current 1700000000000%Z "test-user-1" "Test User" empty)
                   st ops _)).
  reflexivity.
Defined.

(** *** [resolveViolation] *)

Lemma resolveAt_lookup now r h r0 :
  resolveAt now r h !! r0
  = if decide (r0 = r) then markResolved now <$> h !! r0 else h !! r0.
Proof.
  unfold resolveAt. destruct (h !! r) as [v|] eqn:E.
  - destruct (decide (r0 = r)) as [->|Hne].
    + rewrite list_lookup_insert_eq by (by eapply lookup_lt_Some). by rewrite E.
    + by rewrite list_lookup_insert_ne.
  - destruct (decide (r0 = r)) as [->|Hne]; [by rewrite E | done].
Qed.

Lemma holdsAt_id_resolveAt now r h vid r0 :
  holdsAt (resolveAt now r h) (fun v => String.eqb (vId v) vid) r0
  = holdsAt h (fun v => String.eqb (vId v) vid) r0.
Proof.
  unfold holdsAt. rewrite resolveAt_lookup.
  destruct (decide (r0 = r)); [|done]. by destruct (h !! r0).
Qed.

Lemma findById_resolveAt now r h vid refs :
  findById (resolveAt now r h) vid refs = findById h vid refs.
Proof.
  unfold findById. induction refs as [|r0 refs IH]; simpl; [done|].
  by rewrite holdsAt_id_resolveAt, IH.
Qed.

Lemma findById_Some h vid refs r :
  findById h vid refs = Some r ->
  In r refs /\ exists v, h !! r = Some v /\ vId v = vid.
Proof.
  unfold findById. intros H. apply find_some in H as [Hin Hh]. split; [done|].
  unfold holdsAt in Hh. destruct (h !! r) as [v|]; [|done].
  exists v. split; [done|]. by apply String.eqb_eq.
Qed.

Lemma resolveAt_other now r h v r0 v0 :
  h !! r = Some v -> h !! r0 = Some v0 -> vId v0 <> vId v ->
  resolveAt now r h !! r0 = Some v0.
Proof.
  intros Hr Hr0 Hne. rewrite resolveAt_lookup.
  destruct (decide (r0 = r)) as [->|]; [congruence | done].
Qed.

(** The object behind [r] once [resolveAt] has run on [r] and then possibly
    on one more reference. *)
Lemma resolveAt_twice_lookup now r r' h v :
  h !! r = Some v ->
  exists v', resolveAt now r' (resolveAt now r h) !! r = Some v'
             /\ vId v' = vId v /\ resolved v' = true /\ resolvedAt v' = Some now.
Proof.
  intros Hr. rewrite !resolveAt_lookup, Hr.
  repeat case_decide; try done; simpl; eexists; (split; [reflexivity|]); done.
Qed.

(** C6. Resolving an id that the user's violation log does not hold returns
    [false] and leaves the whole state as it was.  Resolving an id the log
    holds returns [true]; the violation found in the log is then resolved
    with [resolvedAt] set to the call time, and so is the violation with
    that id found in the scorecard's embedded list when the user has a
    scorecard that lists one; both lists hold the references they held, and
    violations with another id are untouched. *)
Theorem resolveViolation_boundary (now : Date) (uid vid : string) (st : Store) :
  (findById (violationHeap st) vid (userLog st uid) = None ->
   resolveViolation now uid vid st = (false, st))
  /\ (forall r,
        findById (violationHeap st) vid (userLog st uid) = Some r ->
        let st' := (resolveViolation now uid vid st).2 in
        (resolveViolation now uid vid st).1 = true
        /\ scorecardStore st' = scorecardStore st
        /\ violationStore st' = violationStore st
        /\ (exists v',
              violationHeap st' !! r = Some v'
              /\ vId v' = vid /\ resolved v' = true /\ resolvedAt v' = Some now)
        /\ (forall sc r',
              JsMap.get uid (scorecardStore st) = Some sc ->
              findById (violationHeap st) vid (violations sc) = Some r' ->
              exists v',
                violationHeap st' !! r' = Some v'
                /\ vId v' = vid /\ resolved v' = true /\ resolvedAt v' = Some now)
        /\ (forall r0 v0,
              violationHeap st !! r0 = Some v0 -> vId v0 <> vid ->
              violationHeap st' !! r0 = Some v0)).
Proof.
  unfold userLog, resolveViolation. split.
  - intros Hnone. destruct (violationStore st !! uid) as [log|]; simpl in *; [|done].
    by rewrite Hnone.
  - intros r Hfind. destruct (violationStore st !! uid) as [log|]; simpl in *; [|done].
    rewrite Hfind. simpl.
    destruct (findById_Some _ _ _ _ Hfind) as (_ & v & Hv & Hid).
    destruct (JsMap.get uid (scorecardStore st)) as [sc|] eqn:Hsc; simpl.
    + rewrite findById_resolveAt.
      destruct (findById (violationHeap st) vid (violations sc)) as [r'|] eqn:Hfind'; simpl.
      * destruct (findById_Some _ _ _ _ Hfind') as (_ & w & Hw & Hidw).
        repeat split; try done.
        -- destruct (resolveAt_twice_lookup now r r' _ v Hv) as (v' & ? & ? & ? & ?).
           exists v'. repeat split; congruence.
        -- intros sc0 r0 [= <-] Hf. rewrite Hfind' in Hf. injection Hf as <-.
           rewrite resolveAt_lookup. rewrite decide_True by done.
           rewrite resolveAt_lookup. destruct (decide (r' = r)) as [->|].
           ++ rewrite Hv. simpl. eexists. split; [reflexivity|]. done.
           ++ rewrite Hw. simpl. eexists. split; [reflexivity|]. done.
        -- intros r0 v0 Hr0 Hne.
           assert (resolveAt now r (violationHeap st) !! r' = Some
                     (if decide (r' = r) then markResolved now w else w)) as Hw'.
           { rewrite resolveAt_lookup, Hw. by destruct (decide (r' = r)). }
           eapply resolveAt_other; [exact Hw' | | ].
           ++ eapply resolveAt_other; [exact Hv | done | congruence].
           ++ destruct (decide (r' = r)); simpl; congruence.
      * repeat split; try done.
        -- rewrite resolveAt_lookup, decide_True, Hv by done. simpl.
           eexists. split; [reflexivity|]. done.
        -- intros sc0 r0 [= <-] Hf. congruence.
        -- intros r0 v0 Hr0 Hne.
           eapply resolveAt_other; [exact Hv | done | congruence].
    + repeat split; try done.
      * rewrite resolveAt_lookup, decide_True, Hv by done. simpl.
        eexists. split; [reflexivity|]. done.
      * intros r0 v0 Hr0 Hne.
        eapply resolveAt_other; [exact Hv | done | congruence].
Qed.

Lemma resolveViolation_boundary_witness :
  resolveViolation 1700000002000%Z "unknown-user" "unknown-violation" twoViolations
  = (false, twoViolations)
  /\ (resolveViolation 1700000002000%Z "violation-user" "1700000001000-bbb" twoViolations).1
     = true.
Proof.
  split.
  - apply (proj1 (resolveViolation_boundary 1700000002000%Z "unknown-user"
                    "unknown-violation" twoViolations)).
    reflexivity.
  - apply (proj2 (resolveViolation_boundary 1700000002000%Z "violation-user"
                    "1700000001000-bbb" twoViolations) 1).
    reflexivity.
Defined.

(** *** The trend *)






(** *** Queries *)

Lemma getScorecard_readonly uid st : (getScorecard uid st).2 = st.
Proof. reflexivity. Qed.

Lemma getAllScorecards_readonly st : (getAllScorecards st).2 = st.
Proof. reflexivity. Qed.

(** With a [resolved] or an [objectType] filter the sort works on the
    filtered copy, and the store is left as it was. *)
Lemma getUserViolations_filtered_readonly uid q st :
  is_Some (qResolved q) \/ is_Some (qObjectType q) ->
  (getUserViolations uid (Some q) st).2 = st.
Proof.
  intros Hq. unfold getUserViolations. simpl.
  destruct (qResolved q) as [b|], (qObjectType q) as [o|]; simpl; try done.
  destruct Hq as [[? [=]]|[? [=]]].
Qed.

(** C7, at the failing input.  The user's log holds two violations in the
    order they were recorded; [getUserViolations] without a filter sorts the
    stored array itself, newest first, so after the query the log holds them
    in the opposite order and the store is not the store it was. *)
Theorem getUserViolations_reorders_log :
  let st' := (getUserViolations "violation-user" None twoViolations).2 in
  userLog twoViolations "violation-user" = [0; 1]
  /\ userLog st' "violation-user" = [1; 0]
  /\ st' <> twoViolations.
Proof.
  intros st'.
  assert (userLog twoViolations "violation-user" = [0; 1]) as H0 by reflexivity.
  assert (userLog st' "violation-user" = [1; 0]) as H1 by reflexivity.
  split; [exact H0 | split; [exact H1 |]].
  intros Heq. rewrite Heq in H1. rewrite H0 in H1. discriminate.
Qed.

End ScorecardFacts.

(** ** Alert service *)

Module AlertFacts.
Import Alerts.
Local Open Scope nat_scope.

Lemma getAlert_readonly alertId st : (getAlert alertId st).2 = st.
Proof. reflexivity. Qed.

Lemma getPortalAlerts_readonly portalId options st :
  (getPortalAlerts portalId options st).2 = st.
Proof. reflexivity. Qed.

Lemma getUserAlerts_readonly uid options st : (getUserAlerts uid options st).2 = st.
Proof. reflexivity. Qed.

Lemma getUnacknowledgedAlertCount_readonly uid st :
  (getUnacknowledgedAlertCount uid st).2 = st.
Proof. reflexivity. Qed.

(** *** The cleanup loop *)

Lemma cleanup_fold_lookup cutoffDate l : forall acc k,
  (foldl (cleanupVisit cutoffDate) acc l).1 !! k
  = if dooms cutoffDate k l then None else acc.1 !! k.
Proof.
  induction l as [|[k0 a0] l IH]; intros [m n] k; [done|].
  cbn [foldl]. rewrite IH. unfold dooms. cbn [existsb fst snd]. fold (dooms cutoffDate k l).
  destruct (dooms cutoffDate k l); [by rewrite orb_true_r|]. rewrite orb_false_r.
  unfold cleanupVisit. cbn [fst snd].
  destruct (expired cutoffDate a0); cbn [fst snd].
  - destruct (String.eqb_spec k0 k) as [->|Hne]; cbn [andb].
    + apply lookup_delete_eq.
    + by apply lookup_delete_ne.
  - by rewrite andb_false_r.
Qed.

Lemma cleanup_fold_count cutoffDate l : forall acc,
  (foldl (cleanupVisit cutoffDate) acc l).2
  = acc.2 + length (List.filter (fun e => expired cutoffDate e.2) l).
Proof.
  induction l as [|[k0 a0] l IH]; intros [m n]; [simpl; lia|].
  cbn [foldl List.filter]. rewrite IH. unfold cleanupVisit. cbn [fst snd].
  destruct (expired cutoffDate a0); simpl; lia.
Qed.

(** Every deletion of the loop removes an entry that is still there. *)
Lemma cleanup_fold_size cutoffDate l : forall acc,
  NoDup l.*1 ->
  (forall k a, (k, a) ∈ l -> is_Some (acc.1 !! k)) ->
  (foldl (cleanupVisit cutoffDate) acc l).2 + size (foldl (cleanupVisit cutoffDate) acc l).1
  = acc.2 + size acc.1.
Proof.
  induction l as [|[k0 a0] l IH]; intros [m n] Hnd Hin; [done|].
  cbn [foldl]. rewrite fmap_cons in Hnd. apply NoDup_cons in Hnd as [Hk0 Hnd].
  rewrite IH; [|done|].
  - unfold cleanupVisit. cbn [fst snd]. destruct (expired cutoffDate a0); cbn [fst snd]; [|done].
    destruct (Hin k0 a0) as [a Ha]; [left|]. cbn [fst] in Ha.
    pose proof (map_size_delete_Some k0 m (ex_intro _ a Ha)) as Hs.
    assert (size m <> 0) by (apply map_size_ne_0_lookup_2 with k0; eauto).
    lia.
  - intros k a Hka. unfold cleanupVisit. cbn [fst snd].
    destruct (Hin k a) as [b Hb]; [by right|]. cbn [fst] in Hb.
    destruct (expired cutoffDate a0); cbn [fst]; [|by eexists].
    rewrite lookup_delete_ne; [by eexists|].
    intros <-. apply Hk0. apply list_elem_of_fmap. by exists (k0, a).
Qed.

Lemma dooms_map_to_list cutoffDate k (m : gmap string GovernanceAlert) :
  dooms cutoffDate k (map_to_list m)
  = match m !! k with
    | Some a => expired cutoffDate a
    | None => false
    end.
Proof.
  unfold dooms. destruct (m !! k) as [a|] eqn:E.
  - destruct (expired cutoffDate a) eqn:Ha.
    + apply existsb_exists. exists (k, a). split.
      * apply list_elem_of_In. by apply elem_of_map_to_list.
      * simpl. by rewrite String.eqb_refl.
    + apply not_true_is_false. intros H. apply existsb_exists in H as ([k' a'] & Hin & Hb).
      simpl in Hb. apply andb_true_iff in Hb as [Hk Ha'].
      apply String.eqb_eq in Hk. subst k'.
      apply list_elem_of_In, elem_of_map_to_list in Hin. congruence.
  - apply not_true_is_false. intros H. apply existsb_exists in H as ([k' a'] & Hin & Hb).
    simpl in Hb. apply andb_true_iff in Hb as [Hk Ha'].
    apply String.eqb_eq in Hk. subst k'.
    apply list_elem_of_In, elem_of_map_to_list in Hin. congruence.
Qed.



End AlertFacts.

(** ** Validation engine *)

Section EngineFacts.
Context (regExpTest : string -> string -> option bool).
Context (parseFloat : string -> float).

Local Abbreviation validate := (validateStageTransition regExpTest parseFloat).

(** *** Indexing a stage table *)

Lemma index_elem (t : list (string * Z)) k n : index t k = Some n -> (k, n) ∈ t.
Proof.
  induction t as [|[k0 n0] t IH]; simpl; [done|].
  destruct (String.eqb_spec k k0) as [->|Hne].
  - intros [= ->]. left.
  - intros H. right. by apply IH.
Qed.

Lemma index_NoDup (t : list (string * Z)) k n :
  NoDup t.*1 -> (k, n) ∈ t -> index t k = Some n.
Proof.
  induction t as [|[k0 n0] t IH]; simpl; intros Hnd Hin.
  - by apply elem_of_nil in Hin.
  - apply NoDup_cons in Hnd as [Hk0 Hnd].
    apply elem_of_cons in Hin as [[= -> ->]|Hin].
    + by rewrite String.eqb_refl.
    + destruct (String.eqb_spec k k0) as [->|Hne]; [|by apply IH].
      exfalso. apply Hk0. apply list_elem_of_fmap. by exists (k0, n).
Qed.

Lemma dense_range t k n : dense t -> (k, n) ∈ t -> 0 <= n < Z.of_nat (length t).
Proof.
  intros Hd Hin.
  assert (n ∈ t.*2) as Hn by (apply list_elem_of_fmap; by exists (k, n)).
  rewrite Hd in Hn. apply list_elem_of_fmap in Hn as (i & -> & Hi).
  apply elem_of_seq in Hi. lia.
Qed.

Lemma dense_rank t n : dense t -> 0 <= n < Z.of_nat (length t) -> exists k, (k, n) ∈ t.
Proof.
  intros Hd Hn.
  assert (n ∈ t.*2) as Hin.
  { rewrite Hd. apply list_elem_of_fmap. exists (Z.to_nat n). split; [lia|].
    apply elem_of_seq. lia. }
  apply list_elem_of_fmap in Hin as ([k n'] & -> & Hin). by exists k.
Qed.

Lemma stageOrderFor_wf ot : NoDup (stageOrderFor ot).*1 /\ dense (stageOrderFor ot).
Proof.
  destruct ot; (split; [|reflexivity]); simpl; apply NoDup_ListNoDup;
    repeat (constructor; [simpl; intuition discriminate|]); constructor.
Qed.

(** *** The stages strictly between two ranks *)

Lemma between_keys_sublist lo hi (t : list (string * Z)) :
  sublist (map fst (List.filter (between lo hi) t)) t.*1.
Proof.
  induction t as [|e t IH]; simpl; [constructor|].
  destruct (between lo hi e); simpl; by constructor.
Qed.

Lemma between_keys_spec lo hi (t : list (string * Z)) s :
  NoDup t.*1 ->
  s ∈ map fst (List.filter (between lo hi) t)
  <-> exists r, index t s = Some r /\ lo < r < hi.
Proof.
  intros Hnd. split.
  - intros Hs. apply list_elem_of_fmap in Hs as ([k r] & -> & Hin).
    apply list_elem_of_In, filter_In in Hin as [Hin Hb].
    apply list_elem_of_In in Hin.
    exists r. split; [by apply index_NoDup|].
    unfold between in Hb. simpl in Hb. lia.
  - intros (r & Hidx & Hr). apply index_elem in Hidx.
    apply list_elem_of_fmap. exists (s, r). split; [done|].
    apply list_elem_of_In, filter_In. split; [by apply list_elem_of_In|].
    unfold between. simpl. lia.
Qed.

(** *** Warnings of a transition *)

Lemma validate_warnings request :
  warnings (validate request)
  = (option_list (checkBackwardProgression request)
     ++ option_list (checkSkippedStages request))%list.
Proof.
  unfold validateStageTransition. simpl.
  by destruct (checkBackwardProgression request), (checkSkippedStages request).
Qed.

(** C5. When both stages of a request have a rank in the table of its
    entity type and the target's rank exceeds the current rank by more than
    one, the warnings of [validateStageTransition] are exactly one
    [SKIPPED_STAGES] warning; the stages it names, joined by a comma and a
    space, are those whose rank lies strictly between the two ranks, in the
    order the table declares them.  When either stage has no rank, no
    warning of the result has the code [SKIPPED_STAGES]. *)
Theorem skipped_stages_warning (request : ValidationRequest) :
  let table := stageOrderFor (objectType request) in
  (forall currentOrder targetOrder,
     index table (currentStage request) = Some currentOrder ->
     index table (targetStage request) = Some targetOrder ->
     currentOrder + 1 < targetOrder ->
     exists skipped,
       warnings (validate request)
       = [ {| wCode := "SKIPPED_STAGES";
              wMessage := "Skipping stages: " ++ join ", " skipped;
              wField := None;
              wRecommendation :=
                Some "Consider whether all stage requirements have been met." |} ]
       /\ sublist skipped table.*1
       /\ (forall s,
             s ∈ skipped
             <-> exists r, index table s = Some r /\ currentOrder < r < targetOrder))
  /\ (index table (currentStage request) = None
      \/ index table (targetStage request) = None ->
      forall w, w ∈ warnings (validate request) -> wCode w <> "SKIPPED_STAGES").
Proof.
  intros table. destruct (stageOrderFor_wf (objectType request)) as [Hnd Hdense].
  fold table in Hnd, Hdense. split.
  - intros rc rt Hc Ht Hgap.
    exists (map fst (List.filter (between rc rt) table)).
    split; [|split].
    + rewrite validate_warnings.
      unfold checkBackwardProgression, checkSkippedStages. fold table.
      rewrite Hc, Ht.
      assert ((rt <? rc) = false) as -> by lia.
      assert ((rc + 1 <? rt) = true) as -> by lia.
      fold (between rc rt).
      assert ((0 <? length (map fst (List.filter (between rc rt) table)))%nat = true) as ->.
      { apply Nat.ltb_lt.
        pose proof (dense_range _ _ _ Hdense (index_elem _ _ _ Hc)) as Hrc.
        pose proof (dense_range _ _ _ Hdense (index_elem _ _ _ Ht)) as Hrt.
        destruct (dense_rank table (rc + 1) Hdense) as [k Hk]; [lia|].
        assert (k ∈ map fst (List.filter (between rc rt) table)) as Hin.
        { apply between_keys_spec; [done|]. exists (rc + 1). split; [|lia].
          by apply index_NoDup. }
        destruct (map fst (List.filter (between rc rt) table)); simpl; [|lia].
        by apply elem_of_nil in Hin. }
      reflexivity.
    + apply between_keys_sublist.
    + intros s. by apply between_keys_spec.
  - intros Habsent.
    assert (warnings (validate request) = []) as ->.
    { rewrite validate_warnings.
      unfold checkBackwardProgression, checkSkippedStages. fold table.
      destruct Habsent as [-> | ->]; [done|].
      by destruct (index table (currentStage request)). }
    intros w Hw. by apply elem_of_nil in Hw.
Qed.

(** *** Validity *)

(** C1. The [isValid] flag of a validation result is true exactly when its
    error list is empty, so two results with the same errors have the same
    flag whatever their warnings are.  When no rule matches the transition
    of the request there are no errors and the result is valid; this happens
    with warnings present, as for a contact moved from subscriber to
    opportunity. *)
Theorem isValid_iff_no_errors (request : ValidationRequest) :
  let result := validate request in
  (isValid result = true <-> errors result = [])
  /\ (forall other : ValidationRequest,
        errors (validate other) = errors result ->
        isValid (validate other) = isValid result)
  /\ (getRuleForTransition (objectType request) (currentStage request) (targetStage request)
      = None ->
      errors result = [] /\ isValid result = true)
  /\ (getRuleForTransition Contact "subscriber" "opportunity" = None
      /\ warnings (validate subscriberToOpportunity) <> []
      /\ isValid (validate subscriberToOpportunity) = true).
Proof.
  intros result.
  assert (forall r, isValid (validate r) = true <-> errors (validate r) = []) as Hiff.
  { intros r. unfold validateStageTransition. simpl.
    rewrite Nat.eqb_eq. apply length_zero_iff_nil. }
  split; [apply Hiff|]. split; [|split].
  - intros other Heq. unfold validateStageTransition in *. simpl in *. by rewrite Heq.
  - intros Hnone. subst result. unfold validateStageTransition. simpl.
    by rewrite Hnone.
  - split; [reflexivity|]. split; [|reflexivity].
    rewrite validate_warnings. discriminate.
Qed.

End EngineFacts.

(** The engine at concrete requests. *)

Lemma isValid_iff_no_errors_witness :
  getRuleForTransition Contact "subscriber" "opportunity" = None
  /\ errors (validateStageTransition noRegExp noParseFloat subscriberToOpportunity) = []
  /\ isValid (validateStageTransition noRegExp noParseFloat subscriberToOpportunity) = true
  /\ isValid (validateStageTransition noRegExp noParseFloat leadWithEmailOnly) = false.
Proof.
  split; [reflexivity|].
  destruct (proj1 (proj2 (proj2
              (isValid_iff_no_errors noRegExp noParseFloat subscriberToOpportunity)))
              eq_refl) as [He Hv].
  split; [exact He|]. split; [exact Hv|]. reflexivity.
Defined.

Lemma skipped_stages_warning_witness :
  exists skipped,
    warnings (validateStageTransition noRegExp noParseFloat subscriberToOpportunity)
    = [ {| wCode := "SKIPPED_STAGES";
           wMessage := "Skipping stages: " ++ join ", " skipped;
           wField := None;
           wRecommendation :=
             Some "Consider whether all stage requirements have been met." |} ]
    /\ join ", " skipped = "lead, marketingqualifiedlead, salesqualifiedlead".
Proof.
  destruct (proj1 (skipped_stages_warning noRegExp noParseFloat subscriberToOpportunity)
              0 4 eq_refl eq_refl eq_refl) as (skipped & Hw & _ & _).
  exists skipped. split; [exact Hw|].
  assert (warnings (validateStageTransition noRegExp noParseFloat subscriberToOpportunity)
          = [ {| wCode := "SKIPPED_STAGES";
                 wMessage := "Skipping stages: lead, marketingqualifiedlead, salesqualifiedlead";
                 wField := None;
                 wRecommendation :=
                   Some "Consider whether all stage requirements have been met." |} ])
    as Hconcrete by reflexivity.
  rewrite Hconcrete in Hw. injection Hw as Hmsg.
  cbv [String.append] in Hmsg. congruence.
Defined.

(** * Further properties *)

(** ** Regular expressions and the validators built on them *)

Module ValidatorFacts.

Lemma append_nil_l (s : string) : "" ++ s = s.
Proof. reflexivity. Qed.

Lemma append_cons c (s1 s2 : string) : String c s1 ++ s2 = String c (s1 ++ s2).
Proof. reflexivity. Qed.

Lemma append_nil_r (s : string) : s ++ "" = s.
Proof. induction s as [|c s IH]; [done | by rewrite append_cons, IH]. Qed.

Lemma append_assoc (s1 s2 s3 : string) : (s1 ++ s2) ++ s3 = s1 ++ (s2 ++ s3).
Proof. induction s1 as [|c s1 IH]; [done | by rewrite !append_cons, IH]. Qed.

Lemma nullable_spec r : nullable r = true <-> Matches r "".
Proof.
  split.
  - induction r; simpl; intros H; try discriminate.
    + constructor.
    + apply andb_true_iff in H as [H1 H2].
      rewrite <- (append_nil_l ""). constructor; auto.
    + apply orb_true_iff in H as [H|H]; [apply MAltL | apply MAltR]; auto.
    + constructor.
  - intros H. remember "" as s eqn:Es. induction H; simpl; try done.
    + destruct s1; [|discriminate]. rewrite append_nil_l in Es.
      by rewrite IHMatches1, IHMatches2.
    + by rewrite IHMatches.
    + rewrite IHMatches by done. apply orb_true_r.
Qed.

(** A match of [r*] against a string that starts with [c] begins with a
    match of [r] against a string that starts with [c]. *)
Lemma star_cons_inv r c s :
  Matches (RStar r) (String c s) ->
  exists s1 s2, s = s1 ++ s2 /\ Matches r (String c s1) /\ Matches (RStar r) s2.
Proof.
  intros H. remember (RStar r) as r' eqn:Er. remember (String c s) as s' eqn:Es.
  revert s Es. induction H; intros s0 Es; try discriminate.
  injection Er as ->.
  destruct s1 as [|c1 s1].
  - rewrite append_nil_l in Es. apply IHMatches2; done.
  - rewrite append_cons in Es. injection Es as -> <-. by exists s1, s2.
Qed.

Lemma seq_cons_inv r1 r2 c s :
  Matches (RSeq r1 r2) (String c s)
  <-> (exists s1 s2, s = s1 ++ s2 /\ Matches r1 (String c s1) /\ Matches r2 s2)
      \/ (Matches r1 "" /\ Matches r2 (String c s)).
Proof.
  split.
  - intros H. remember (RSeq r1 r2) as r eqn:Er. remember (String c s) as s' eqn:Es.
    destruct H; try discriminate. injection Er as -> ->.
    destruct s1 as [|c1 s1].
    + rewrite append_nil_l in Es. subst. by right.
    + rewrite append_cons in Es. injection Es as -> <-. left. by exists s1, s2.
  - intros [(s1 & s2 & -> & H1 & H2)|[H1 H2]].
    + rewrite <- append_cons. by constructor.
    + rewrite <- (append_nil_l (String c s)). by constructor.
Qed.

Lemma seq_inv r1 r2 s :
  Matches (RSeq r1 r2) s <-> exists s1 s2, s = s1 ++ s2 /\ Matches r1 s1 /\ Matches r2 s2.
Proof.
  split.
  - intros H. inversion H; subst. by exists s1, s2.
  - intros (s1 & s2 & -> & H1 & H2). by constructor.
Qed.

Lemma alt_inv r1 r2 s : Matches (RAlt r1 r2) s <-> Matches r1 s \/ Matches r2 s.
Proof.
  split.
  - intros H. inversion H; subst; auto.
  - intros [H|H]; [by apply MAltL | by apply MAltR].
Qed.

Lemma deriv_spec c r : forall s, Matches (deriv c r) s <-> Matches r (String c s).
Proof.
  induction r as [| |p|r1 IH1 r2 IH2|r1 IH1 r2 IH2|r IH]; intros s; simpl.
  - split; intros H; inversion H.
  - split; intros H; inversion H.
  - destruct (p c) eqn:Hp; split; intros H; inversion H; subst.
    + by constructor.
    + constructor.
    + congruence.
  - assert (Matches (RSeq (deriv c r1) r2) s
            <-> exists s1 s2, s = s1 ++ s2 /\ Matches r1 (String c s1) /\ Matches r2 s2)
      as Hseq.
    { rewrite seq_inv. split; intros (s1 & s2 & -> & H1 & H2); exists s1, s2;
        (split; [done|]); (split; [by apply IH1 | done]). }
    rewrite seq_cons_inv. destruct (nullable r1) eqn:Hn.
    + rewrite alt_inv, Hseq, IH2. split; intros [H|H]; auto.
      * right. split; [by apply nullable_spec | done].
      * right. by destruct H.
    + rewrite Hseq. split; [by left|]. intros [H|[H1 H2]]; [done|].
      apply nullable_spec in H1. congruence.
  - rewrite !alt_inv, IH1, IH2. done.
  - split.
    + intros H. apply seq_inv in H as (s1 & s2 & -> & H1 & H2).
      rewrite <- append_cons. constructor; [by apply IH | done].
    + intros H. apply star_cons_inv in H as (s1 & s2 & -> & H1 & H2).
      constructor; [by apply IH | done].
Qed.

(** The matcher decides the language of the regular expression. *)
Lemma regexTest_spec (r : Regex) (s : string) : regexTest r s = true <-> Matches r s.
Proof.
  revert r. induction s as [|c s IH]; intros r; simpl.
  - apply nullable_spec.
  - rewrite IH. apply deriv_spec.
Qed.

(** *** Character classes and repetitions *)

Lemma class_inv p s : Matches (RClass p) s <-> exists c, s = String c "" /\ p c = true.
Proof.
  split.
  - intros H. inversion H; subst. by eexists.
  - intros (c & -> & Hp). by constructor.
Qed.

Lemma allChars_app p (s1 s2 : string) :
  allChars p (s1 ++ s2) = allChars p s1 && allChars p s2.
Proof.
  induction s1 as [|c s1 IH]; [done|].
  rewrite append_cons. simpl. by rewrite IH, andb_assoc.
Qed.

Lemma length_app (s1 s2 : string) :
  String.length (s1 ++ s2) = (String.length s1 + String.length s2)%nat.
Proof. induction s1 as [|c s1 IH]; [done|]. rewrite append_cons. simpl. by rewrite IH. Qed.

Lemma star_class_spec p s : Matches (RStar (RClass p)) s <-> allChars p s = true.
Proof.
  split.
  - intros H. remember (RStar (RClass p)) as r eqn:Er.
    induction H; try discriminate; [done|]. injection Er as ->.
    apply class_inv in H as (c & -> & Hc).
    rewrite allChars_app. simpl. rewrite Hc. simpl. by apply IHMatches2.
  - induction s as [|c s IH]; simpl; intros H; [constructor|].
    apply andb_true_iff in H as [Hc Hs].
    rewrite <- (append_nil_l s), <- append_cons. constructor; [by constructor | by apply IH].
Qed.

Lemma plus_class_spec p s :
  Matches (RPlus (RClass p)) s <-> s <> "" /\ allChars p s = true.
Proof.
  unfold RPlus. rewrite seq_inv. split.
  - intros (s1 & s2 & -> & H1 & H2). apply class_inv in H1 as (c & -> & Hc).
    apply star_class_spec in H2. rewrite append_cons, append_nil_l.
    split; [done|]. simpl. by rewrite Hc, H2.
  - intros [Hne Hall]. destruct s as [|c s]; [done|]. simpl in Hall.
    apply andb_true_iff in Hall as [Hc Hs].
    exists (String c ""), s. split; [done|]. split; [by constructor | by apply star_class_spec].
Qed.

Lemma repeat_class_spec p n s :
  Matches (RRepeat n (RClass p)) s <-> String.length s = n /\ allChars p s = true.
Proof.
  revert s. induction n as [|n IH]; intros s; simpl.
  - split.
    + intros H. by inversion H.
    + intros [Hl _]. destruct s; [constructor | discriminate].
  - rewrite seq_inv. split.
    + intros (s1 & s2 & -> & H1 & H2). apply class_inv in H1 as (c & -> & Hc).
      apply IH in H2 as [Hl Ha]. rewrite append_cons, append_nil_l. simpl.
      by rewrite Hl, Hc, Ha.
    + intros [Hl Ha]. destruct s as [|c s]; [discriminate|]. simpl in *.
      apply andb_true_iff in Ha as [Hc Hs].
      exists (String c ""), s. split; [done|]. split; [by constructor|].
      apply IH. split; [lia | done].
Qed.

Lemma repeat_opt_class_spec p n s :
  Matches (RRepeat n (ROpt (RClass p))) s
  <-> (String.length s <= n)%nat /\ allChars p s = true.
Proof.
  revert s. induction n as [|n IH]; intros s; simpl.
  - split.
    + intros H. inversion H. simpl. split; [lia | done].
    + intros [Hl _]. destruct s; [constructor | simpl in Hl; lia].
  - rewrite seq_inv. split.
    + intros (s1 & s2 & -> & H1 & H2). apply IH in H2 as [Hl Ha].
      unfold ROpt in H1. apply alt_inv in H1 as [H1|H1].
      * inversion H1; subst. rewrite append_nil_l. split; [lia | done].
      * apply class_inv in H1 as (c & -> & Hc). rewrite append_cons, append_nil_l. simpl.
        rewrite Hc, Ha. split; [lia | done].
    + intros [Hl Ha]. destruct s as [|c s].
      * exists "", "". split; [done|]. split; [apply MAltL; constructor|].
        apply IH. simpl. split; [lia | done].
      * simpl in *. apply andb_true_iff in Ha as [Hc Hs].
        exists (String c ""), s. split; [done|].
        split; [apply MAltR; by constructor|]. apply IH. split; [lia | done].
Qed.

Lemma split_at n (s : string) :
  (n <= String.length s)%nat ->
  exists s1 s2, s = s1 ++ s2 /\ String.length s1 = n.
Proof.
  revert s. induction n as [|n IH]; intros s Hn.
  - by exists "", s.
  - destruct s as [|c s]; simpl in Hn; [lia|].
    destruct (IH s) as (s1 & s2 & -> & Hl); [lia|].
    exists (String c s1), s2. split; [done|]. simpl. by rewrite Hl.
Qed.

Lemma between_class_spec p lo extra s :
  Matches (RBetween lo extra (RClass p)) s
  <-> (lo <= String.length s <= lo + extra)%nat /\ allChars p s = true.
Proof.
  unfold RBetween. rewrite seq_inv. split.
  - intros (s1 & s2 & -> & H1 & H2).
    apply repeat_class_spec in H1 as [Hl1 Ha1].
    apply repeat_opt_class_spec in H2 as [Hl2 Ha2].
    rewrite length_app, allChars_app, Ha1, Ha2. split; [lia | done].
  - intros [Hl Ha]. destruct (split_at lo s) as (s1 & s2 & -> & Hl1); [lia|].
    rewrite length_app in Hl. rewrite allChars_app in Ha.
    apply andb_true_iff in Ha as [Ha1 Ha2].
    exists s1, s2. split; [done|].
    split; [by apply repeat_class_spec | apply repeat_opt_class_spec; split; [lia | done]].
Qed.

(** *** [isValidEmail] *)

(** X1. [isValidEmail] accepts exactly the strings of the shape
    [local@domain.tld] in which the three parts are non-empty and hold
    neither whitespace nor an at sign (the domain and the last part may
    themselves hold dots). *)
Theorem isValidEmail_shape (email : string) :
  isValidEmail email = true
  <-> exists localPart domain tld,
        email = localPart ++ "@" ++ domain ++ "." ++ tld
        /\ localPart <> "" /\ domain <> "" /\ tld <> ""
        /\ allChars notSpaceOrAt localPart = true
        /\ allChars notSpaceOrAt domain = true
        /\ allChars notSpaceOrAt tld = true.
Proof.
  unfold isValidEmail, emailRegex. rewrite regexTest_spec. split.
  - intros H.
    apply seq_inv in H as (l & r1 & -> & Hl & H).
    apply seq_inv in H as (a & r2 & -> & Ha & H).
    apply seq_inv in H as (d & r3 & -> & Hd & H).
    apply seq_inv in H as (o & t & -> & Ho & Ht).
    apply plus_class_spec in Hl as [? ?]. apply plus_class_spec in Hd as [? ?].
    apply plus_class_spec in Ht as [? ?].
    apply class_inv in Ha as (ca & -> & Hca). apply class_inv in Ho as (co & -> & Hco).
    unfold isChar in Hca, Hco. apply Ascii.eqb_eq in Hca, Hco. subst ca co.
    exists l, d, t. done.
  - intros (l & d & t & -> & Hl & Hd & Ht & Hal & Had & Hat).
    constructor; [by apply plus_class_spec|].
    change ("@" ++ d ++ "." ++ t)%string with (String "@" "" ++ (d ++ "." ++ t))%string.
    constructor; [by constructor|].
    constructor; [by apply plus_class_spec|].
    change ("." ++ t)%string with (String "." "" ++ t)%string.
    constructor; [by constructor | by apply plus_class_spec].
Qed.

(** *** [isValidPhone] *)

Lemma removeChars_app p (s1 s2 : string) :
  removeChars p (s1 ++ s2) = removeChars p s1 ++ removeChars p s2.
Proof.
  induction s1 as [|c s1 IH]; [done|]. rewrite append_cons. simpl.
  destruct (p c); [done|]. by rewrite append_cons, IH.
Qed.

(** X2. [isValidPhone] looks only at what is left once whitespace, dashes,
    parentheses, dots and slashes are removed: the number is accepted
    exactly when that remainder is seven to fifteen digits, optionally
    preceded by one plus sign.  Inserting or dropping such a formatting
    character anywhere therefore never changes the answer. *)
Theorem isValidPhone_shape (phone : string) :
  (isValidPhone phone = true
   <-> exists digits,
         (removeChars phoneFormatting phone = digits
          \/ removeChars phoneFormatting phone = "+" ++ digits)
         /\ allChars isDigit digits = true
         /\ (7 <= String.length digits <= 15)%nat)
  /\ (forall (before after : string) (c : ascii),
        phone = before ++ String c after ->
        phoneFormatting c = true ->
        isValidPhone phone = isValidPhone (before ++ after)).
Proof.
  split.
  - unfold isValidPhone, phoneRegex. rewrite regexTest_spec, seq_inv.
    set (cleaned := removeChars phoneFormatting phone). split.
    + intros (s1 & s2 & Heq & H1 & H2).
      apply between_class_spec in H2 as [Hl Ha].
      exists s2. split; [|split; [done | simpl in Hl; lia]].
      unfold ROpt in H1. apply alt_inv in H1 as [H1|H1].
      * inversion H1; subst. left. by rewrite Heq.
      * apply class_inv in H1 as (c & -> & Hc). unfold isChar in Hc.
        apply Ascii.eqb_eq in Hc. subst c. right. by rewrite Heq.
    + intros (digits & [Hc|Hc] & Ha & Hl).
      * exists "", digits. split; [by rewrite Hc|].
        split; [apply MAltL; constructor | apply between_class_spec; split; [simpl; lia | done]].
      * exists "+"%string, digits. split; [by rewrite Hc|].
        split; [apply MAltR; by constructor
               | apply between_class_spec; split; [simpl; lia | done]].
  - intros before after c -> Hc. unfold isValidPhone.
    rewrite !removeChars_app. simpl. by rewrite Hc.
Qed.

Lemma isValidPhone_shape_witness :
  isValidPhone "(555) 555-5555" = isValidPhone "555) 555-5555".
Proof.
  apply (proj2 (isValidPhone_shape "(555) 555-5555") "" "555) 555-5555" "("%char);
    reflexivity.
Defined.

(** *** [isNonEmpty], [exists] and [parseNumeric] *)

Lemma someChar_reverse p acc s :
  someChar p (reverse acc s) = someChar p s || someChar p acc.
Proof.
  revert acc. induction s as [|c s IH]; intros acc; simpl; [done|].
  rewrite IH. simpl. destruct (p c), (someChar p s), (someChar p acc); done.
Qed.

Lemma reverse_nil acc s : reverse acc s = "" -> acc = "" /\ s = "".
Proof.
  revert acc. induction s as [|c s IH]; intros acc; simpl; [done|].
  intros H. by apply IH in H as [? _].
Qed.

Lemma someChar_trimStart s : someChar nonSpace (trimStart s) = someChar nonSpace s.
Proof.
  induction s as [|c s IH]; simpl; [done|].
  destruct (isSpace c) eqn:E; simpl; [|done].
  unfold nonSpace at 2. by rewrite E.
Qed.

Lemma trimStart_all_space s : someChar nonSpace s = false -> trimStart s = "".
Proof.
  induction s as [|c s IH]; simpl; [done|]. unfold nonSpace at 1.
  destruct (isSpace c); simpl; [done | discriminate].
Qed.

Lemma someChar_trim s : someChar nonSpace (trim s) = someChar nonSpace s.
Proof.
  unfold trim. rewrite someChar_reverse, someChar_trimStart, someChar_reverse,
    someChar_trimStart. simpl. by rewrite !orb_false_r.
Qed.

Lemma trim_length s : (0 <? String.length (trim s))%nat = someChar nonSpace s.
Proof.
  destruct (someChar nonSpace s) eqn:E.
  - rewrite <- someChar_trim in E. by destruct (trim s).
  - unfold trim. by rewrite (trimStart_all_space s E).
Qed.


(** X3. [isNonEmpty] holds of a property value exactly when the value is a
    string with at least one character that is not whitespace.  So a value
    that is non-empty also [exists], while the empty string and a string of
    blanks exist without being non-empty; and a condition with the
    operator [exists] asks for no less than [isNonEmpty]. *)
Theorem isNonEmpty_spec (parseFloat : string -> float) (value : option string) :
  isNonEmpty value
  = match value with
    | Some s => someChar nonSpace s
    | None => false
    end
  /\ (isNonEmpty value = true -> exists_ value = true)
  /\ (forall s, allChars isSpace s = true ->
        exists_ (Some s) = true /\ isNonEmpty (Some s) = false)
  /\ (forall condition,
        cOperator condition = OpExists ->
        checkCondition parseFloat condition value = isNonEmpty value).
Proof.
  split; [|split; [|split]].
  - destruct value as [s|]; [apply trim_length | done].
  - by destruct value.
  - intros s Hs. split; [done|]. simpl. rewrite trim_length.
    induction s as [|c s IH]; simpl in *; [done|].
    apply andb_true_iff in Hs as [Hc Hs]. unfold nonSpace at 1. rewrite Hc. simpl. auto.
  - intros condition Hop. unfold checkCondition. rewrite Hop. by destruct value.
Qed.


End ValidatorFacts.

(** ** Rules, validity and warnings *)

Section EngineMore.
Context (regExpTest : string -> string -> option bool).
Context (parseFloat : string -> float).

Local Abbreviation validate := (validateStageTransition regExpTest parseFloat).

Lemma omap_nil_iff {A B} (f : A -> option B) (l : list A) :
  omap f l = [] <-> forall x, x ∈ l -> f x = None.
Proof.
  induction l as [|a l IH]; simpl.
  - split; [|done]. intros _ x Hx. by apply elem_of_nil in Hx.
  - destruct (f a) eqn:E.
    + split; [done|]. intros H. specialize (H a (list_elem_of_here _ _)). congruence.
    + rewrite IH. split.
      * intros H x Hx. apply elem_of_cons in Hx as [->|Hx]; auto.
      * intros H x Hx. apply H. by right.
Qed.

Lemma isValid_errors request :
  isValid (validate request) = true <-> errors (validate request) = [].
Proof.
  unfold validateStageTransition. simpl. rewrite Nat.eqb_eq. apply length_zero_iff_nil.
Qed.

Lemma validateRequiredFields_nil rules props :
  validateRequiredFields regExpTest rules props = []
  <-> forall rule, rule ∈ rules -> (checkField regExpTest rule (props !! rfField rule)).1 = true.
Proof.
  unfold validateRequiredFields. rewrite omap_nil_iff.
  split; intros H rule Hin; specialize (H rule Hin);
    destruct (checkField regExpTest rule (props !! rfField rule)) as [[] msg]; done.
Qed.

Lemma validateConditions_nil conds props :
  validateConditions parseFloat conds props = []
  <-> forall c, c ∈ conds -> checkCondition parseFloat c (props !! cField c) = true.
Proof.
  unfold validateConditions. rewrite omap_nil_iff.
  split; intros H c Hin; specialize (H c Hin);
    destruct (checkCondition parseFloat c (props !! cField c)); done.
Qed.

Lemma getRuleForTransition_Some ot from to rule :
  getRuleForTransition ot from to = Some rule ->
  rule ∈ getRulesForObjectType ot /\ fromStage rule = from /\ toStage rule = to.
Proof.
  unfold getRuleForTransition. intros H. apply find_some in H as [Hin Hb].
  apply andb_true_iff in Hb as [Hf Ht].
  apply String.eqb_eq in Hf, Ht. split; [by apply list_elem_of_In | done].
Qed.

(** X5. A request is valid exactly when every required-field check and
    every condition of the rule matching its transition passes on the
    request's properties; with no matching rule it is valid.  The rule's
    dependencies play no part: a rule that declares nothing but
    dependencies accepts every request. *)
Theorem isValid_characterisation (request : ValidationRequest) :
  let props := properties request in
  let matching :=
    getRuleForTransition (objectType request) (currentStage request) (targetStage request) in
  (isValid (validate request) = true
   <-> forall rule,
         matching = Some rule ->
         (forall fieldRule,
            fieldRule ∈ requiredFields rule ->
            (checkField regExpTest fieldRule (props !! rfField fieldRule)).1 = true)
         /\ (forall conds condition,
               conditions rule = Some conds ->
               condition ∈ conds ->
               checkCondition parseFloat condition (props !! cField condition) = true))
  /\ (forall rule,
        matching = Some rule ->
        requiredFields rule = [] ->
        conditions rule = None ->
        isValid (validate request) = true).
Proof.
  intros props matching.
  assert (isValid (validate request) = true
          <-> forall rule,
                matching = Some rule ->
                (forall fieldRule,
                   fieldRule ∈ requiredFields rule ->
                   (checkField regExpTest fieldRule (props !! rfField fieldRule)).1 = true)
                /\ (forall conds condition,
                      conditions rule = Some conds ->
                      condition ∈ conds ->
                      checkCondition parseFloat condition (props !! cField condition) = true))
    as Hiff.
  { rewrite isValid_errors. unfold validateStageTransition. simpl. fold matching props.
    destruct matching as [rule|]; [|split; [by intros _ rule [=] | done]].
    split.
    - intros He rule0 [= <-].
      destruct (conditions rule) as [conds|].
      + apply app_eq_nil in He as [Hf Hc].
        split; [by apply validateRequiredFields_nil|].
        intros conds0 c [= <-]. by apply validateConditions_nil.
      + split; [by apply validateRequiredFields_nil | done].
    - intros H. destruct (H rule eq_refl) as [Hf Hc].
      apply validateRequiredFields_nil in Hf. rewrite Hf.
      destruct (conditions rule) as [conds|]; [|done]. simpl.
      apply validateConditions_nil. intros c Hin. by apply (Hc conds). }
  split; [exact Hiff|].
  intros rule Hm Hr Hc. apply Hiff. intros rule0 Hm0.
  rewrite Hm in Hm0. injection Hm0 as <-. rewrite Hr, Hc. split.
  - intros fr Hin. by apply elem_of_nil in Hin.
  - done.
Qed.

(** The transitions of the catalog's rules and their ranks. *)
Lemma catalog_rules_adjacent ot rule :
  rule ∈ getRulesForObjectType ot ->
  exists r,
    index (stageOrderFor ot) (fromStage rule) = Some r
    /\ index (stageOrderFor ot) (toStage rule) = Some (r + 1).
Proof.
  destruct ot; unfold getRulesForObjectType; simpl; intros H;
    repeat (apply elem_of_cons in H as [->|H]; [eexists; split; reflexivity|]);
    by apply elem_of_nil in H.
Qed.

(** X6. Looking a rule up by its own transition finds it, and a lookup
    returns only an active rule of the entity type whose stages are the
    ones asked for: no two active rules of the catalog share a transition.
    Every rule of the catalog leads from a stage to the stage ranked next. *)
Theorem getRuleForTransition_catalog (ot : ObjectType) :
  (forall rule,
     rule ∈ getRulesForObjectType ot ->
     getRuleForTransition ot (fromStage rule) (toStage rule) = Some rule)
  /\ (forall from to rule,
        getRuleForTransition ot from to = Some rule ->
        rule ∈ getRulesForObjectType ot
        /\ active rule = true /\ fromStage rule = from /\ toStage rule = to)
  /\ (forall rule,
        rule ∈ getRulesForObjectType ot ->
        exists r,
          index (stageOrderFor ot) (fromStage rule) = Some r
          /\ index (stageOrderFor ot) (toStage rule) = Some (r + 1)).
Proof.
  split; [|split].
  - destruct ot; unfold getRulesForObjectType; simpl; intros rule H;
      repeat (apply elem_of_cons in H as [->|H]; [reflexivity|]);
      by apply elem_of_nil in H.
  - intros from to rule H. destruct (getRuleForTransition_Some _ _ _ _ H) as (Hin & Hf & Ht).
    repeat split; try done.
    unfold getRulesForObjectType in Hin. apply list_elem_of_In, filter_In in Hin. tauto.
  - apply catalog_rules_adjacent.
Qed.


(** X8. A transition that a rule governs never draws a stage-order warning,
    so a result never carries both errors and warnings: a request that is
    warned about is valid. *)
Theorem warned_request_is_valid (request : ValidationRequest) :
  (forall rule,
     getRuleForTransition (objectType request) (currentStage request) (targetStage request)
     = Some rule ->
     warnings (validate request) = [])
  /\ (warnings (validate request) <> [] ->
      errors (validate request) = [] /\ isValid (validate request) = true).
Proof.
  assert (forall rule,
            getRuleForTransition (objectType request) (currentStage request)
              (targetStage request) = Some rule ->
            warnings (validate request) = []) as Hrule.
  { intros rule H. apply getRuleForTransition_Some in H as (Hin & Hf & Ht).
    destruct (catalog_rules_adjacent _ _ Hin) as (r & Hr & Hr').
    rewrite Hf in Hr. rewrite Ht in Hr'.
    rewrite validate_warnings. unfold checkBackwardProgression, checkSkippedStages.
    rewrite Hr, Hr'.
    assert ((r + 1 <? r) = false) as -> by lia.
    by assert ((r + 1 <? r + 1) = false) as -> by lia. }
  split; [exact Hrule|].
  intros Hw.
  assert (errors (validate request) = []) as He.
  { unfold validateStageTransition. simpl.
    destruct (getRuleForTransition _ _ _) as [rule|] eqn:E; [|done].
    exfalso. apply Hw. by apply (Hrule rule). }
  split; [done | by apply isValid_errors].
Qed.

End EngineMore.

Lemma warned_request_is_valid_witness :
  errors (validateStageTransition noRegExp noParseFloat subscriberToOpportunity) = []
  /\ isValid (validateStageTransition noRegExp noParseFloat subscriberToOpportunity) = true.
Proof.
  apply (proj2 (warned_request_is_valid noRegExp noParseFloat subscriberToOpportunity)).
  discriminate.
Defined.

(** ** Advisory validation *)

Section AdvisoryFacts.
Context (regExpTest : string -> string -> option bool).
Context (parseFloat : string -> float).

Local Abbreviation validate := (validateStageTransition regExpTest parseFloat).

(** The code of the warning [validateAllRules] issues for a rule. *)
Local Abbreviation ruleCode rule :=
  ("RULE_" ++ dashesToUnderscores (toUpperCase (ruleId rule)))%string.

Lemma getRuleForTransition_own ot rule :
  rule ∈ getRulesForObjectType ot ->
  getRuleForTransition ot (fromStage rule) (toStage rule) = Some rule.
Proof.
  destruct ot; unfold getRulesForObjectType; simpl; intros H;
    repeat (apply elem_of_cons in H as [->|H]; [reflexivity|]);
    by apply elem_of_nil in H.
Qed.

Lemma ruleCode_inj ot rule rule' :
  rule ∈ getRulesForObjectType ot -> rule' ∈ getRulesForObjectType ot ->
  ruleCode rule = ruleCode rule' -> rule = rule'.
Proof.
  destruct ot; unfold getRulesForObjectType; simpl; intros H H';
    repeat (apply elem_of_cons in H as [->|H]);
    try (by apply elem_of_nil in H);
    repeat (apply elem_of_cons in H' as [->|H']);
    try (by apply elem_of_nil in H');
    intros Hc; first [reflexivity | vm_compute in Hc; discriminate].
Qed.

Lemma validateAllRules_warning ot props rule :
  rule ∈ getValidationRules ot ->
  (exists w, w ∈ warnings (validateAllRules regExpTest ot props) /\ wCode w = ruleCode rule)
  <-> validateRequiredFields regExpTest (requiredFields rule) props <> [].
Proof.
  intros Hin. unfold validateAllRules. simpl. split.
  - intros (w & Hw & Hcode). apply list_elem_of_omap in Hw as (rule' & Hin' & Hg).
    destruct (validateRequiredFields regExpTest (requiredFields rule') props) eqn:E;
      simpl in Hg; [done|].
    injection Hg as <-. simpl in Hcode.
    rewrite <- (ruleCode_inj ot rule' rule Hin' Hin Hcode). by rewrite E.
  - intros Hne.
    destruct (validateRequiredFields regExpTest (requiredFields rule) props) eqn:E; [done|].
    eexists. split.
    + apply list_elem_of_omap. exists rule. split; [done|]. rewrite E. simpl. reflexivity.
    + done.
Qed.

(** X9. [validateAllRules] always answers valid, with no errors.  It warns
    about a rule (under the code made from the rule's id) exactly when one
    of the rule's required-field checks fails on the properties.  Whenever
    it warns about a rule, validating the rule's own transition with those
    properties fails; for a rule without conditions the converse holds too,
    while a rule's conditions are never looked at. *)
Theorem validateAllRules_advisory (ot : ObjectType) (props : gmap string string) :
  let advisory := validateAllRules regExpTest ot props in
  let transition rule oid uid :=
    {| objectType := ot; objectId := oid;
       currentStage := fromStage rule; targetStage := toStage rule;
       properties := props; requestUserId := uid |} in
  isValid advisory = true
  /\ errors advisory = []
  /\ (forall rule,
        rule ∈ getValidationRules ot ->
        (exists w, w ∈ warnings advisory /\ wCode w = ruleCode rule)
        <-> validateRequiredFields regExpTest (requiredFields rule) props <> [])
  /\ (forall rule oid uid,
        rule ∈ getValidationRules ot ->
        (exists w, w ∈ warnings advisory /\ wCode w = ruleCode rule) ->
        isValid (validate (transition rule oid uid)) = false)
  /\ (forall rule oid uid,
        rule ∈ getValidationRules ot ->
        conditions rule = None ->
        isValid (validate (transition rule oid uid)) = false ->
        exists w, w ∈ warnings advisory /\ wCode w = ruleCode rule).
Proof.
  intros advisory transition.
  split; [done|]. split; [done|]. split; [|split].
  - intros rule Hin. by apply validateAllRules_warning.
  - intros rule oid uid Hin Hw. apply validateAllRules_warning in Hw; [|done].
    unfold validateStageTransition. simpl.
    rewrite (getRuleForTransition_own ot rule Hin).
    destruct (validateRequiredFields regExpTest (requiredFields rule) props); [done|].
    by destruct (conditions rule).
  - intros rule oid uid Hin Hc Hinv. apply validateAllRules_warning; [done|].
    unfold validateStageTransition in Hinv. simpl in Hinv.
    rewrite (getRuleForTransition_own ot rule Hin), Hc in Hinv.
    by destruct (validateRequiredFields regExpTest (requiredFields rule) props).
Qed.

End AdvisoryFacts.

(** ** Sorting *)

Module SortFacts.
Section ByKey.
Context {A : Type} (key : A -> Z).

(** The comparator [(a, b) => key(b) - key(a)], positive when [b] has the
    larger key. *)
Local Abbreviation after := (fun a b : A => 0 <? key b - key a).

Lemma sortInsert_Permutation x l : sortInsert after x l ≡ₚ x :: l.
Proof.
  induction l as [|y l IH]; simpl; [done|].
  destruct (0 <? key y - key x); [|done].
  rewrite IH. apply Permutation_swap.
Qed.

Lemma sortBy_Permutation l : sortBy after l ≡ₚ l.
Proof.
  unfold sortBy. induction l as [|x l IH]; simpl; [done|].
  by rewrite sortInsert_Permutation, IH.
Qed.

Lemma sortInsert_descending x l :
  descending key l -> descending key (sortInsert after x l).
Proof.
  unfold descending. induction 1 as [|y l Hl IH Hy]; simpl.
  - repeat constructor.
  - destruct (Z.ltb_spec 0 (key y - key x)).
    + constructor; [done|].
      apply Forall_forall. intros z Hz.
      rewrite sortInsert_Permutation in Hz.
      apply elem_of_cons in Hz as [->|Hz]; [lia|].
      rewrite Forall_forall in Hy. by apply Hy.
    + constructor; [by constructor|].
      constructor; [lia|].
      eapply Forall_impl; [exact Hy|]. simpl. intros; lia.
Qed.

Lemma sortBy_descending l : descending key (sortBy after l).
Proof.
  unfold sortBy. induction l as [|x l IH]; simpl; [constructor|].
  by apply sortInsert_descending.
Qed.

(** Sorting a list that is in order already gives the list back. *)
Lemma sortBy_sorted_id l : descending key l -> sortBy after l = l.
Proof.
  unfold sortBy, descending. induction 1 as [|x l Hl IH Hx]; simpl; [done|].
  rewrite IH. destruct l as [|y l]; simpl; [done|].
  apply Forall_cons in Hx as [Hy _].
  by assert ((0 <? key y - key x) = false) as -> by lia.
Qed.

Lemma sortBy_idem l : sortBy after (sortBy after l) = sortBy after l.
Proof. apply sortBy_sorted_id, sortBy_descending. Qed.

Lemma sortBy_length l : length (sortBy after l) = length l.
Proof. apply Permutation_length, sortBy_Permutation. Qed.

End ByKey.
End SortFacts.

(** ** More on the scorecard service *)

Module ScorecardMore.
Import Scorecard JsMapFacts ScorecardFacts SortFacts ScorecardNotions.
Local Open Scope nat_scope.

(** *** [getUserViolations] *)

Lemma getUserViolations_result_eq uid options st :
  (getUserViolations uid options st).1
  = omap (fun r => violationHeap st !! r)
      (Alerts.limited (options ≫= qLimit) (selectedRefs uid options st)).
Proof.
  unfold getUserViolations, selectedRefs, userLog, Alerts.limited.
  destruct (violationStore st !! uid) as [log|]; simpl;
    destruct (options ≫= qResolved), (options ≫= qObjectType); reflexivity.
Qed.

Lemma getUserViolations_state_eq uid options st :
  (getUserViolations uid options st).2
  = match violationStore st !! uid, options ≫= qResolved, options ≫= qObjectType with
    | Some log, None, None =>
        withViolationLog st uid
          (sortBy (fun a b => (0 <? timestampAt (violationHeap st) b
                                    - timestampAt (violationHeap st) a)%Z) log)
    | _, _, _ => st
    end.
Proof.
  unfold getUserViolations.
  destruct (violationStore st !! uid) as [log|]; simpl;
    destruct (options ≫= qResolved), (options ≫= qObjectType); reflexivity.
Qed.

Lemma elem_of_List_filter {A} (p : A -> bool) (l : list A) x :
  x ∈ List.filter p l <-> x ∈ l /\ p x = true.
Proof. by rewrite !list_elem_of_In, filter_In. Qed.

Lemma passesAt_lookup h options r v :
  h !! r = Some v -> passesAt h options r = passes options v.
Proof. intros H. unfold passesAt, passes, holdsAt. by rewrite H. Qed.

Lemma selectedRefs_elem uid options st r :
  r ∈ selectedRefs uid options st
  <-> r ∈ userLog st uid /\ passesAt (violationHeap st) options r = true.
Proof.
  unfold selectedRefs. rewrite (sortBy_Permutation (timestampAt (violationHeap st))).
  unfold passesAt.
  destruct (options ≫= qResolved) as [b|], (options ≫= qObjectType) as [o|];
    rewrite ?elem_of_List_filter, ?andb_true_iff; tauto.
Qed.

Lemma limited_subseteq {A} limit (l : list A) x : x ∈ Alerts.limited limit l -> x ∈ l.
Proof.
  unfold Alerts.limited, slice0. destruct (truthyNum limit); [|done].
  destruct (0 <=? default 0%Z limit)%Z; apply subseteq_take.
Qed.

Lemma limited_length {A} n (l : list A) :
  (0 < n)%Z -> length (Alerts.limited (Some n) l) <= Z.to_nat n.
Proof.
  intros Hn. unfold Alerts.limited, slice0. simpl.
  assert ((n =? 0)%Z = false) as -> by lia. simpl.
  assert ((0 <=? n)%Z = true) as -> by lia.
  rewrite length_take. lia.
Qed.

Lemma limited_sorted {A} (R : A -> A -> Prop) limit (l : list A) :
  StronglySorted R l -> StronglySorted R (Alerts.limited limit l).
Proof.
  assert (forall n, StronglySorted R l -> StronglySorted R (take n l)) as Htake.
  { intros n H. revert n. induction H as [|x l Hl IH Hx]; intros [|n]; simpl;
      try constructor; [apply IH|].
    apply Forall_forall. intros y Hy. apply subseteq_take in Hy.
    rewrite Forall_forall in Hx. by apply Hx. }
  intros H. unfold Alerts.limited, slice0. destruct (truthyNum limit); [|done].
  destruct (0 <=? default 0%Z limit)%Z; by apply Htake.
Qed.

Lemma omap_length_le {A B} (f : A -> option B) (l : list A) :
  length (omap f l) <= length l.
Proof. induction l as [|a l IH]; csimpl; [done|]. destruct (f a); csimpl; lia. Qed.

Lemma omap_heap_sorted (h : list ComplianceViolation) refs :
  descending (timestampAt h) refs ->
  StronglySorted (fun a b => (vTimestamp b <= vTimestamp a)%Z) (omap (fun r => h !! r) refs).
Proof.
  unfold descending. induction 1 as [|r refs Hs IH Hr]; simpl; [constructor|].
  destruct (h !! r) as [v|] eqn:E; [|done].
  constructor; [done|]. apply Forall_forall. intros w Hw.
  apply list_elem_of_omap in Hw as (r' & Hin & Hr').
  rewrite Forall_forall in Hr. specialize (Hr r' Hin).
  unfold timestampAt in Hr. by rewrite E, Hr' in Hr.
Qed.

(** X10. The violations [getUserViolations] returns are ordered newest
    first; each one is a violation of the user's log that passes the
    [resolved] and [objectType] filters of the query; a positive [limit]
    bounds their number.  Without a limit, or with the limit 0, which counts
    as none, every logged violation that passes the filters is returned. *)
Theorem getUserViolations_result (uid : string) (options : option ViolationQuery)
    (st : Store) :
  let result := (getUserViolations uid options st).1 in
  StronglySorted (fun a b => (vTimestamp b <= vTimestamp a)%Z) result
  /\ (forall v,
        v ∈ result ->
        (exists r, r ∈ userLog st uid /\ violationHeap st !! r = Some v)
        /\ (forall wanted, options ≫= qResolved = Some wanted -> resolved v = wanted)
        /\ (forall wanted, options ≫= qObjectType = Some wanted -> vObjectType v = wanted))
  /\ (forall n, options ≫= qLimit = Some n -> (0 < n)%Z -> length result <= Z.to_nat n)
  /\ (options ≫= qLimit = None \/ options ≫= qLimit = Some 0%Z ->
      forall r v,
        r ∈ userLog st uid -> violationHeap st !! r = Some v -> passes options v = true ->
        v ∈ result).
Proof.
  intros result. subst result. rewrite getUserViolations_result_eq.
  split; [|split; [|split]].
  - apply omap_heap_sorted, limited_sorted, sortBy_descending.
  - intros v Hv. apply list_elem_of_omap in Hv as (r & Hr & Hv).
    apply limited_subseteq, selectedRefs_elem in Hr as [Hlog Hpass].
    split; [by exists r|].
    rewrite (passesAt_lookup _ _ _ _ Hv) in Hpass. unfold passes in Hpass.
    apply andb_true_iff in Hpass as [Hres Hobj].
    split.
    + intros wanted Hw. rewrite Hw in Hres. by apply Bool.eqb_prop.
    + intros wanted Hw. rewrite Hw in Hobj. by destruct (vObjectType v), wanted.
  - intros n Hn Hpos. rewrite Hn.
    etransitivity; [apply omap_length_le | by apply limited_length].
  - intros Hlim r v Hr Hv Hp. apply list_elem_of_omap. exists r. split; [|done].
    assert (Alerts.limited (options ≫= qLimit) (selectedRefs uid options st)
            = selectedRefs uid options st) as ->.
    { unfold Alerts.limited. by destruct Hlim as [-> | ->]. }
    apply selectedRefs_elem. split; [done|]. by rewrite (passesAt_lookup _ _ _ _ Hv).
Qed.

Lemma userLog_withViolationLog st uid log other :
  userLog (withViolationLog st uid log) other
  = if decide (uid = other) then log else userLog st other.
Proof.
  unfold userLog, withViolationLog. simpl. rewrite lookup_insert.
  by destruct (decide (uid = other)).
Qed.

Lemma selectedRefs_after_query uid options st :
  selectedRefs uid options (getUserViolations uid options st).2
  = selectedRefs uid options st.
Proof.
  rewrite getUserViolations_state_eq.
  destruct (violationStore st !! uid) as [log|] eqn:E; [|done].
  destruct (options ≫= qResolved) eqn:Er; [done|].
  destruct (options ≫= qObjectType) eqn:Eo; [done|].
  unfold selectedRefs. rewrite Er, Eo, userLog_withViolationLog, decide_True by done.
  simpl. unfold userLog. rewrite E. simpl.
  apply (sortBy_idem (timestampAt (violationHeap st))).
Qed.

(** X11. A query of a user's violations never touches the scorecards, the
    violation objects or another user's log.  The user's own log keeps its
    entries, possibly in another order: an unfiltered query leaves it
    sorted newest first.  Asking the same query again changes nothing more
    and gives the same answer. *)
Theorem getUserViolations_state (uid : string) (options : option ViolationQuery)
    (st : Store) :
  let st' := (getUserViolations uid options st).2 in
  scorecardStore st' = scorecardStore st
  /\ violationHeap st' = violationHeap st
  /\ userLog st' uid ≡ₚ userLog st uid
  /\ (forall other, other <> uid -> violationStore st' !! other = violationStore st !! other)
  /\ (options ≫= qResolved = None -> options ≫= qObjectType = None ->
      descending (timestampAt (violationHeap st)) (userLog st' uid))
  /\ (getUserViolations uid options st').2 = st'
  /\ (getUserViolations uid options st').1 = (getUserViolations uid options st).1.
Proof.
  intros st'.
  assert (violationHeap st' = violationHeap st) as Hheap.
  { subst st'. rewrite getUserViolations_state_eq.
    by destruct (violationStore st !! uid), (options ≫= qResolved), (options ≫= qObjectType). }
  split; [apply getUserViolations_scorecards|]. split; [exact Hheap|].
  split; [|split; [|split; [|split]]].
  - subst st'. rewrite getUserViolations_state_eq.
    destruct (violationStore st !! uid) as [log|] eqn:E; [|done].
    destruct (options ≫= qResolved); [done|]. destruct (options ≫= qObjectType); [done|].
    rewrite userLog_withViolationLog, decide_True by done.
    unfold userLog. rewrite E. simpl.
    apply (sortBy_Permutation (timestampAt (violationHeap st))).
  - intros other Hne. subst st'. rewrite getUserViolations_state_eq.
    destruct (violationStore st !! uid) as [log|] eqn:E; [|done].
    destruct (options ≫= qResolved); [done|]. destruct (options ≫= qObjectType); [done|].
    simpl. by rewrite lookup_insert_ne.
  - intros Hr Ho. subst st'. rewrite getUserViolations_state_eq, Hr, Ho.
    destruct (violationStore st !! uid) as [log|] eqn:E.
    + rewrite userLog_withViolationLog, decide_True by done.
      apply (sortBy_descending (timestampAt (violationHeap st))).
    + unfold userLog. rewrite E. constructor.
  - rewrite (getUserViolations_state_eq uid options st'). subst st'.
    rewrite getUserViolations_state_eq.
    destruct (violationStore st !! uid) as [log|] eqn:E; [|by rewrite E].
    destruct (options ≫= qResolved) eqn:Er; [by rewrite E|].
    destruct (options ≫= qObjectType) eqn:Eo; [by rewrite E|].
    simpl. rewrite lookup_insert_eq.
    rewrite (sortBy_idem (timestampAt (violationHeap st))).
    unfold withViolationLog. simpl. by rewrite insert_insert_eq.
  - rewrite !getUserViolations_result_eq. fold st'. rewrite Hheap. subst st'.
    by rewrite selectedRefs_after_query.
Qed.

(** *** [resetScorecardForNewPeriod] *)

Lemma resolveViolation_answer now uid vid st :
  (resolveViolation now uid vid st).1
  = match findById (violationHeap st) vid (userLog st uid) with
    | Some _ => true
    | None => false
    end.
Proof.
  unfold resolveViolation, userLog.
  destruct (violationStore st !! uid) as [log|]; simpl; [|done].
  by destruct (findById (violationHeap st) vid log).
Qed.



(** *** What [recordStageTransition] writes *)

(** X13. An invalid transition that carries a rule id and a rule name
    allocates one violation, unresolved, stamped with the call time and the
    generated id, and appends the same reference to the user's log and to
    the scorecard's embedded list.  A valid transition, and an invalid one
    lacking a rule id or a rule name, allocates nothing and appends
    nothing (the invalid attempt is still counted). *)
Theorem record_dual_write (c : Transition) (st : Store) :
  let st' := recordStageTransition c st in
  let before := current (tNow c) (tUserId c) (tUserName c) st in
  let r := length (violationHeap st) in
  (tIsValid c = false -> truthyStr (tRuleId c) = true -> truthyStr (tRuleName c) = true ->
   exists v sc',
     violationHeap st' = (violationHeap st ++ [v])%list
     /\ vId v = tNewId c /\ vTimestamp v = tNow c
     /\ resolved v = false /\ resolvedAt v = None
     /\ missingFields v = tMissingFields c
     /\ vSeverity v = determineSeverity (missingCount (tMissingFields c))
     /\ (violationType v = MissingRequiredField <-> 0 < missingCount (tMissingFields c))
     /\ userLog st' (tUserId c) = (userLog st (tUserId c) ++ [r])%list
     /\ JsMap.get (tUserId c) (scorecardStore st') = Some sc'
     /\ violations sc' = (violations before ++ [r])%list)
  /\ (tIsValid c = true \/ truthyStr (tRuleId c) = false \/ truthyStr (tRuleName c) = false ->
      exists sc',
        violationHeap st' = violationHeap st
        /\ violationStore st' = violationStore st
        /\ JsMap.get (tUserId c) (scorecardStore st') = Some sc'
        /\ violations sc' = violations before).
Proof.
  intros st' before r. subst st' before r.
  unfold recordStageTransition, current.
  destruct (getOrCreate_logs (tNow c) (tUserId c) (tUserName c) st) as [Hlog Hheap].
  destruct (getOrCreateScorecard (tNow c) (tUserId c) (tUserName c) st) as [sc [m1 l1 h1]].
  simpl in Hlog, Hheap. subst l1 h1. split.
  - intros -> -> ->. simpl. rewrite get_set_eq.
    eexists _, _. do 7 (split; [reflexivity|]).
    split; [|split; [|split; [reflexivity | reflexivity]]].
    + destruct (missingCount (tMissingFields c)); simpl; split; intros; try done; lia.
    + unfold userLog. simpl. by rewrite lookup_insert_eq.
  - intros Hcase.
    destruct (tIsValid c) eqn:Hv; simpl.
    + rewrite get_set_eq. by eexists.
    + destruct Hcase as [?|Hcase]; [done|].
      assert (truthyStr (tRuleId c) && truthyStr (tRuleName c) = false) as ->.
      { destruct Hcase as [-> | ->]; [done | apply andb_false_r]. }
      simpl. rewrite get_set_eq. by eexists.
Qed.

Lemma record_dual_write_witness :
  let c := violationCall "violation-user" 1700000000000%Z "1700000000000-aaa" in
  exists v sc',
    violationHeap (recordStageTransition c empty) = [v]
    /\ resolved v = false
    /\ userLog (recordStageTransition c empty) "violation-user" = [0]
    /\ JsMap.get "violation-user" (scorecardStore (recordStageTransition c empty)) = Some sc'
    /\ violations sc' = [0].
Proof.
  intros c.
  destruct (proj1 (record_dual_write c empty) eq_refl eq_refl eq_refl)
    as (v & sc' & Hh & _ & _ & Hr & _ & _ & _ & _ & Hl & Hg & Hv).
  exists v, sc'. split; [exact Hh|]. split; [exact Hr|]. split; [exact Hl|].
  split; [exact Hg | exact Hv].
Defined.

(** X14. Recording a transition for one user leaves every other user's
    scorecard and violation log as they are, and never changes or removes a
    violation object that was there before. *)
Theorem record_frame (c : Transition) (st : Store) :
  let st' := recordStageTransition c st in
  (forall other,
     other <> tUserId c ->
     JsMap.get other (scorecardStore st') = JsMap.get other (scorecardStore st)
     /\ violationStore st' !! other = violationStore st !! other)
  /\ (forall r v, violationHeap st !! r = Some v -> violationHeap st' !! r = Some v).
Proof.
  intros st'. subst st'. split.
  - intros other Hne. split; [by apply record_lookup_ne|].
    unfold recordStageTransition.
    destruct (getOrCreate_logs (tNow c) (tUserId c) (tUserName c) st) as [Hlog _].
    destruct (getOrCreateScorecard (tNow c) (tUserId c) (tUserName c) st) as [sc st1].
    simpl in Hlog.
    destruct (tIsValid c); [|destruct (truthyStr (tRuleId c) && truthyStr (tRuleName c))];
      simpl; rewrite ?lookup_insert_ne by done; by rewrite Hlog.
  - intros r v Hr. unfold recordStageTransition.
    destruct (getOrCreate_logs (tNow c) (tUserId c) (tUserName c) st) as [_ Hheap].
    destruct (getOrCreateScorecard (tNow c) (tUserId c) (tUserName c) st) as [sc st1].
    simpl in Hheap.
    destruct (tIsValid c); [|destruct (truthyStr (tRuleId c) && truthyStr (tRuleName c))];
      simpl; rewrite Hheap; [done| |done].
    by apply lookup_app_l_Some.
Qed.

(** *** Invariants of the stores *)

Lemma keys_set_existing {V} (m : list (string * V)) k v :
  is_Some (JsMap.get k m) -> (JsMap.set k v m).*1 = m.*1.
Proof.
  induction m as [|[k0 v0] m IH]; intros [x Hx]; cbn [JsMap.set JsMap.get] in *; [done|].
  destruct (String.eqb_spec k k0) as [->|Hne]; rewrite !fmap_cons; cbn [fst]; [done|].
  f_equal. apply IH. by exists x.
Qed.

Lemma keys_set_new {V} (m : list (string * V)) k v :
  JsMap.get k m = None -> (JsMap.set k v m).*1 = (m.*1 ++ [k])%list /\ k ∉ m.*1.
Proof.
  induction m as [|[k0 v0] m IH]; intros Hx; cbn [JsMap.set JsMap.get] in *.
  - split; [done|]. apply not_elem_of_nil.
  - destruct (String.eqb_spec k k0) as [->|Hne]; [done|].
    rewrite !fmap_cons. cbn [fst].
    destruct (IH Hx) as [-> Hnin]. split; [done|].
    intros [?|?]%elem_of_cons; done.
Qed.

(** Replacing the scorecard of a user who has one, while logs only gain
    entries. *)
Lemma consistent_update st st' uid sc' :
  Consistent st ->
  is_Some (JsMap.get uid (scorecardStore st)) ->
  scorecardStore st' = JsMap.set uid sc' (scorecardStore st) ->
  (forall u r, r ∈ userLog st u -> r ∈ userLog st' u) ->
  (forall u r, r ∈ userLog st' u -> r < length (violationHeap st')) ->
  GoodScorecard st' uid sc' ->
  Consistent st'.
Proof.
  intros [Hk Hc Hr] Hsome Hstore Hlogs Hrefs Hgood. constructor.
  - rewrite Hstore, keys_set_existing; done.
  - intros u sc. rewrite Hstore. destruct (decide (uid = u)) as [<-|Hne].
    + rewrite get_set_eq. by intros [= <-].
    + rewrite get_set_ne by done. intros Hu. destruct (Hc u sc Hu).
      constructor; auto.
  - done.
Qed.

Lemma consistent_getOrCreate now uid uname st :
  Consistent st ->
  Consistent (getOrCreateScorecard now uid uname st).2
  /\ GoodScorecard st uid (getOrCreateScorecard now uid uname st).1.
Proof.
  intros Hst. pose proof Hst as [Hk Hc Hr]. unfold getOrCreateScorecard.
  destruct (JsMap.get uid (scorecardStore st)) as [sc|] eqn:E; simpl; [by auto|].
  assert (GoodScorecard st uid
            {| userId := uid; userName := uname; period := getCurrentPeriod now;
               metrics := createEmptyMetrics; complianceScore := 100; trend := Stable;
               violations := []; lastUpdated := now |}) as Hgood.
  { constructor; simpl; try done. intros r Hr0. by apply elem_of_nil in Hr0. }
  split; [|done]. constructor; simpl.
  - destruct (keys_set_new (scorecardStore st) uid
                {| userId := uid; userName := uname; period := getCurrentPeriod now;
                   metrics := createEmptyMetrics; complianceScore := 100; trend := Stable;
                   violations := []; lastUpdated := now |} E) as [-> Hnin].
    apply NoDup_app. split; [done|]. split; [|apply NoDup_singleton].
    intros x Hx Hx'. apply list_elem_of_singleton in Hx'. by subst.
  - intros u sc. destruct (decide (uid = u)) as [<-|Hne].
    + rewrite get_set_eq. intros [= <-]. destruct Hgood. by constructor.
    + rewrite get_set_ne by done. intros Hu. destruct (Hc u sc Hu). by constructor.
  - done.
Qed.

Lemma consistent_record c st : Consistent st -> Consistent (recordStageTransition c st).
Proof.
  intros Hst.
  destruct (consistent_getOrCreate (tNow c) (tUserId c) (tUserName c) st Hst) as [H1 Hg].
  pose proof (getOrCreate_lookup (tNow c) (tUserId c) (tUserName c) st) as Hget.
  destruct (getOrCreate_logs (tNow c) (tUserId c) (tUserName c) st) as [Hlog Hheap].
  unfold recordStageTransition, current in *.
  destruct (getOrCreateScorecard (tNow c) (tUserId c) (tUserName c) st) as [sc [m1 l1 h1]].
  cbn [fst snd scorecardStore violationStore violationHeap] in *. subst l1 h1.
  destruct Hg as [Hkey Htot Hval Hcnt Hemb]. pose proof H1 as [_ _ Hrefs].
  unfold userLog in *. cbn [scorecardStore violationStore violationHeap] in *.
  destruct (tIsValid c); [|destruct (truthyStr (tRuleId c) && truthyStr (tRuleName c))].
  - eapply consistent_update; [exact H1 | by eexists | reflexivity | done | done |].
    constructor; cbn; try done; try lia. destruct (tObjectType c); lia.
  - eapply consistent_update; [exact H1 | by eexists | reflexivity | | |].
    + intros u r. unfold userLog. cbn. rewrite lookup_insert.
      destruct (decide (tUserId c = u)) as [<-|]; [|done].
      cbn. intros Hr. apply elem_of_app. by left.
    + intros u r. unfold userLog. cbn. rewrite lookup_insert, length_app. cbn.
      destruct (decide (tUserId c = u)) as [<-|]; cbn.
      * intros [Hr|Hr]%elem_of_app; [apply Hrefs in Hr; lia|].
        apply list_elem_of_singleton in Hr. lia.
      * intros Hr. apply Hrefs in Hr. lia.
    + constructor; cbn; try done; try lia.
      * rewrite length_app. cbn. lia.
      * intros r Hr. unfold userLog. cbn. rewrite lookup_insert_eq. cbn.
        apply elem_of_app in Hr as [Hr|Hr]; apply elem_of_app; [left; by apply Hemb | by right].
  - eapply consistent_update; [exact H1 | by eexists | reflexivity | done | done |].
    constructor; cbn; try done; lia.
Qed.

Lemma consistent_updateFields now uid uname t k st :
  Consistent st -> Consistent (updateFieldsCompliance now uid uname t k st).
Proof.
  intros Hst.
  destruct (consistent_getOrCreate now uid uname st Hst) as [H1 Hg].
  pose proof (getOrCreate_lookup now uid uname st) as Hget.
  destruct (getOrCreate_logs now uid uname st) as [Hlog Hheap].
  unfold updateFieldsCompliance, current in *.
  destruct (getOrCreateScorecard now uid uname st) as [sc [m1 l1 h1]].
  cbn [fst snd scorecardStore violationStore violationHeap] in *. subst l1 h1.
  destruct Hg as [Hkey Htot Hval Hcnt Hemb].
  eapply consistent_update; [exact H1 | by eexists | reflexivity | done | apply H1 |].
  constructor; cbn; try done; by destruct (0 <? t)%float.
Qed.

Lemma consistent_same_cards st st' :
  Consistent st ->
  scorecardStore st' = scorecardStore st ->
  (forall u r, r ∈ userLog st u <-> r ∈ userLog st' u) ->
  length (violationHeap st') = length (violationHeap st) ->
  Consistent st'.
Proof.
  intros [Hk Hc Hr] Hs Hl Hh. constructor.
  - by rewrite Hs.
  - intros u sc. rewrite Hs. intros Hu. destruct (Hc u sc Hu). constructor; try done.
    intros r Hin. apply Hl. auto.
  - intros u r Hin. rewrite Hh. apply (Hr u). by apply Hl.
Qed.

Lemma resolveAt_length now r h : length (resolveAt now r h) = length h.
Proof. unfold resolveAt. destruct (h !! r); [apply length_insert | done]. Qed.

Lemma resolve_logs now uid vid st :
  violationStore (resolveViolation now uid vid st).2 = violationStore st
  /\ length (violationHeap (resolveViolation now uid vid st).2) = length (violationHeap st).
Proof.
  unfold resolveViolation.
  destruct (violationStore st !! uid) as [log|]; [|done].
  destruct (findById (violationHeap st) vid log); [|done]. simpl.
  destruct (JsMap.get uid (scorecardStore st)) as [sc|]; simpl;
    [destruct (findById _ vid (violations sc)); simpl|];
    by rewrite ?resolveAt_length.
Qed.

Lemma consistent_step op st : Consistent st -> Consistent (step st op).
Proof.
  intros Hst. destruct op as [now u n | c | now u n t k | u | | u o | now u v | now u];
    cbn [step].
  - by apply consistent_getOrCreate.
  - by apply consistent_record.
  - by apply consistent_updateFields.
  - done.
  - done.
  - apply (consistent_same_cards st); [done | apply getUserViolations_scorecards | |].
    + intros u0 r. rewrite getUserViolations_state_eq.
      destruct (violationStore st !! u) as [log|] eqn:E; [|done].
      destruct (o ≫= qResolved); [done|]. destruct (o ≫= qObjectType); [done|].
      rewrite userLog_withViolationLog. destruct (decide (u = u0)) as [<-|]; [|done].
      rewrite (sortBy_Permutation (timestampAt (violationHeap st))).
      unfold userLog. by rewrite E.
    + rewrite getUserViolations_state_eq.
      by destruct (violationStore st !! u), (o ≫= qResolved), (o ≫= qObjectType).
  - destruct (resolve_logs now u v st) as [Hl Hh].
    apply (consistent_same_cards st); [done | apply resolve_scorecards | | done].
    intros u0 r. unfold userLog. by rewrite Hl.
  - unfold resetScorecardForNewPeriod.
    destruct (JsMap.get u (scorecardStore st)) as [sc|] eqn:E; [|done].
    destruct (cons_cards st Hst u sc E) as [Hkey _ _ _ _].
    eapply (consistent_update st); [done | by eexists | reflexivity | done | apply Hst |].
    constructor; simpl; try done. intros r Hr. by apply elem_of_nil in Hr.
Qed.

Lemma consistent_run ops : forall st, Consistent st -> Consistent (run st ops).
Proof.
  induction ops as [|op ops IH]; intros st Hst; simpl; [done|].
  apply IH. by apply consistent_step.
Qed.

Lemma consistent_empty : Consistent empty.
Proof.
  constructor; simpl.
  - constructor.
  - intros uid sc [=].
  - intros uid r Hr. by apply elem_of_nil in Hr.
Qed.

(** X15. After any sequence of operations on an initially empty store,
    every scorecard is stored under its own user id, its total is the sum
    of valid transitions and invalid attempts, its valid transitions are the
    sum of the contacts and deals staged correctly, and it embeds no more
    violations than it counts invalid attempts.  (A period reset zeroes all
    of these together.) *)
Theorem scorecard_counters_invariant (ops : list Op) (uid : string) (sc : RepScorecard)
    (Hsc : JsMap.get uid (scorecardStore (run empty ops)) = Some sc) :
  userId sc = uid
  /\ totalStageTransitions (metrics sc)
     = validTransitions (metrics sc) + invalidAttempts (metrics sc)
  /\ validTransitions (metrics sc)
     = contactsStagedCorrectly (metrics sc) + dealsStagedCorrectly (metrics sc)
  /\ length (violations sc) <= invalidAttempts (metrics sc).
Proof.
  destruct (cons_cards _ (consistent_run ops empty consistent_empty) uid sc Hsc).
  done.
Qed.

Lemma scorecard_counters_invariant_witness :
  exists sc,
    JsMap.get "compliance-score-user"
      (scorecardStore (run empty (map OpRecord eightValidTwoInvalid))) = Some sc
    /\ totalStageTransitions (metrics sc)
       = validTransitions (metrics sc) + invalidAttempts (metrics sc).
Proof.
  assert (exists sc,
            JsMap.get "compliance-score-user"
              (scorecardStore (run empty (map OpRecord eightValidTwoInvalid))) = Some sc)
    as [sc Hsc] by (vm_compute; eexists; reflexivity).
  exists sc. split; [exact Hsc|].
  exact (proj1 (proj2 (scorecard_counters_invariant _ _ _ Hsc))).
Defined.

(** X16. After any sequence of operations on an initially empty store, the
    dual write is intact: every reference a scorecard embeds is also in its
    user's violation log, every reference of a log points to an allocated
    violation object, and no user has two scorecards. *)
Theorem violation_references_invariant (ops : list Op) :
  let st := run empty ops in
  (forall uid sc r,
     JsMap.get uid (scorecardStore st) = Some sc ->
     r ∈ violations sc -> r ∈ userLog st uid)
  /\ (forall uid r, r ∈ userLog st uid -> is_Some (violationHeap st !! r))
  /\ NoDup (scorecardStore st).*1.
Proof.
  intros st. destruct (consistent_run ops empty consistent_empty) as [Hk Hc Hr].
  fold st in Hk, Hc, Hr. split; [|split; [|done]].
  - intros uid sc r Hsc. by apply (good_embedded _ _ _ (Hc uid sc Hsc)).
  - intros uid r Hin. apply lookup_lt_is_Some. by apply (Hr uid).
Qed.

(** *** Violation objects over time *)

Lemma Evolves_refl v : Evolves v v.
Proof. by constructor. Qed.

Lemma Evolves_trans v1 v2 v3 : Evolves v1 v2 -> Evolves v2 v3 -> Evolves v1 v3.
Proof. intros [] []. constructor; try congruence. auto. Qed.

Lemma Evolves_markResolved now v : Evolves v (markResolved now v).
Proof. by constructor. Qed.

Lemma HeapEvolves_refl h : HeapEvolves h h.
Proof. intros r v Hv. exists v. split; [done | apply Evolves_refl]. Qed.

Lemma HeapEvolves_trans h1 h2 h3 : HeapEvolves h1 h2 -> HeapEvolves h2 h3 -> HeapEvolves h1 h3.
Proof.
  intros H12 H23 r v Hv. destruct (H12 r v Hv) as (v2 & Hv2 & He2).
  destruct (H23 r v2 Hv2) as (v3 & Hv3 & He3). exists v3. split; [done|].
  by apply Evolves_trans with v2.
Qed.

Lemma HeapEvolves_resolveAt now r h : HeapEvolves h (resolveAt now r h).
Proof.
  intros r0 v Hv. rewrite resolveAt_lookup, Hv. destruct (decide (r0 = r)); simpl.
  - eexists. split; [done | apply Evolves_markResolved].
  - eexists. split; [done | apply Evolves_refl].
Qed.

Lemma HeapEvolves_step op st : HeapEvolves (violationHeap st) (violationHeap (step st op)).
Proof.
  destruct op as [now u n | c | now u n t k | u | | u o | now u v | now u]; cbn [step].
  - destruct (getOrCreate_logs now u n st) as [_ ->]. apply HeapEvolves_refl.
  - unfold recordStageTransition.
    destruct (getOrCreate_logs (tNow c) (tUserId c) (tUserName c) st) as [_ Hheap].
    destruct (getOrCreateScorecard (tNow c) (tUserId c) (tUserName c) st) as [sc st1].
    simpl in Hheap.
    destruct (tIsValid c); [|destruct (truthyStr (tRuleId c) && truthyStr (tRuleName c))];
      simpl; rewrite Hheap; try apply HeapEvolves_refl.
    intros r v Hv. exists v. split; [by apply lookup_app_l_Some | apply Evolves_refl].
  - unfold updateFieldsCompliance.
    destruct (getOrCreate_logs now u n st) as [_ Hheap].
    destruct (getOrCreateScorecard now u n st) as [sc st1]. simpl in *.
    rewrite Hheap. apply HeapEvolves_refl.
  - apply HeapEvolves_refl.
  - apply HeapEvolves_refl.
  - rewrite getUserViolations_state_eq.
    destruct (violationStore st !! u), (o ≫= qResolved), (o ≫= qObjectType);
      apply HeapEvolves_refl.
  - unfold resolveViolation.
    destruct (violationStore st !! u) as [log|]; [|apply HeapEvolves_refl].
    destruct (findById (violationHeap st) v log); [|apply HeapEvolves_refl]. simpl.
    destruct (JsMap.get u (scorecardStore st)) as [sc|]; simpl;
      [destruct (findById _ v (violations sc)); simpl|];
      try apply HeapEvolves_resolveAt.
    eapply HeapEvolves_trans; apply HeapEvolves_resolveAt.
  - unfold resetScorecardForNewPeriod.
    destruct (JsMap.get u (scorecardStore st)); apply HeapEvolves_refl.
Qed.

Lemma HeapEvolves_run ops :
  forall st, HeapEvolves (violationHeap st) (violationHeap (run st ops)).
Proof.
  induction ops as [|op ops IH]; intros st; simpl.
  - apply HeapEvolves_refl.
  - eapply HeapEvolves_trans; [apply (HeapEvolves_step op) | apply IH].
Qed.

(** X17. No operation of the service removes or rewrites a violation:
    whatever runs afterwards, a violation object is still there with the
    same id, timestamp, record, stages, missing fields, rule and severity.
    Only [resolved] and [resolvedAt] can change, and a resolved violation
    is never unresolved again. *)
Theorem violations_only_resolve (ops : list Op) (st : Store) (r : vref)
    (v : ComplianceViolation) (Hv : violationHeap st !! r = Some v) :
  exists v',
    violationHeap (run st ops) !! r = Some v'
    /\ vId v' = vId v /\ vTimestamp v' = vTimestamp v
    /\ vObjectType v' = vObjectType v /\ vObjectId v' = vObjectId v
    /\ violationType v' = violationType v
    /\ vFromStage v' = vFromStage v /\ vToStage v' = vToStage v
    /\ missingFields v' = missingFields v
    /\ vRuleId v' = vRuleId v /\ vRuleName v' = vRuleName v
    /\ vSeverity v' = vSeverity v
    /\ (resolved v = true -> resolved v' = true).
Proof.
  destruct (HeapEvolves_run ops st r v Hv) as (v' & Hv' & []).
  exists v'. repeat split; done.
Qed.

Lemma violations_only_resolve_witness :
  exists v',
    violationHeap
      (run twoViolations
         [OpResolve 1700000002000%Z "violation-user" "1700000000000-aaa";
          OpReset 1700000003000%Z "violation-user";
          OpRecord (violationCall "violation-user" 1700000004000%Z "1700000004000-ccc")])
      !! 0 = Some v'
    /\ vId v' = "1700000000000-aaa".
Proof.
  assert (exists v, violationHeap twoViolations !! 0 = Some v /\ vId v = "1700000000000-aaa")
    as (v & Hv & Hid) by (vm_compute; eexists; split; reflexivity).
  destruct (violations_only_resolve
              [OpResolve 1700000002000%Z "violation-user" "1700000000000-aaa";
               OpReset 1700000003000%Z "violation-user";
               OpRecord (violationCall "violation-user" 1700000004000%Z "1700000004000-ccc")]
              twoViolations 0 v Hv) as (v' & Hv' & Hid' & _).
  exists v'. split; [exact Hv'|]. by rewrite Hid'.
Defined.

(** *** Resolving, then asking *)

Lemma findById_evolves h h' vid log :
  HeapEvolves h h' -> is_Some (findById h vid log) -> is_Some (findById h' vid log).
Proof.
  intros Hev. unfold findById. induction log as [|r0 log IH]; simpl; [done|].
  unfold holdsAt at 1 3. destruct (h !! r0) as [v0|] eqn:E0.
  - destruct (Hev r0 v0 E0) as (v1 & -> & [Hid _ _ _ _ _ _ _ _ _ _ _]).
    rewrite Hid. destruct (String.eqb (vId v0) vid); [by eauto | apply IH].
  - intros Hrest. destruct (h' !! r0) as [v1|]; [|by apply IH].
    destruct (String.eqb (vId v1) vid); [by eauto | by apply IH].
Qed.

Lemma resolve_found now uid vid st r :
  findById (violationHeap st) vid (userLog st uid) = Some r ->
  exists v',
    violationHeap (resolveViolation now uid vid st).2 !! r = Some v'
    /\ vId v' = vid /\ resolved v' = true /\ resolvedAt v' = Some now.
Proof.
  unfold userLog, resolveViolation. intros Hfind.
  destruct (violationStore st !! uid) as [log|]; simpl in *; [|done].
  rewrite Hfind. simpl.
  destruct (findById_Some _ _ _ _ Hfind) as (_ & v & Hv & Hid).
  destruct (JsMap.get uid (scorecardStore st)) as [sc|]; simpl;
    [rewrite findById_resolveAt;
     destruct (findById (violationHeap st) vid (violations sc)) as [r'|]; simpl|].
  - destruct (resolveAt_twice_lookup now r r' _ v Hv) as (v' & ? & ? & ? & ?).
    exists v'. repeat split; congruence.
  - rewrite resolveAt_lookup, decide_True, Hv by done. by eexists.
  - rewrite resolveAt_lookup, decide_True, Hv by done. by eexists.
Qed.

(** X18. Once [resolveViolation] has answered [true], the user's resolved
    violations, as [getUserViolations] lists them, include one with that id
    and the call time as [resolvedAt].  Resolving the same id again
    succeeds again and moves [resolvedAt] to the later time. *)
Theorem resolved_violation_is_listed (now : Date) (uid vid : string) (st : Store)
    (Hok : (resolveViolation now uid vid st).1 = true) :
  let st' := (resolveViolation now uid vid st).2 in
  let resolvedOnly := Some {| qResolved := Some true; qObjectType := None; qLimit := None |} in
  (exists v,
     v ∈ (getUserViolations uid resolvedOnly st').1
     /\ vId v = vid /\ resolvedAt v = Some now)
  /\ (forall later,
        (resolveViolation later uid vid st').1 = true
        /\ exists v,
             v ∈ (getUserViolations uid resolvedOnly (resolveViolation later uid vid st').2).1
             /\ vId v = vid /\ resolvedAt v = Some later).
Proof.
  intros st' resolvedOnly.
  assert (forall t s,
            (resolveViolation t uid vid s).1 = true ->
            exists v,
              v ∈ (getUserViolations uid resolvedOnly (resolveViolation t uid vid s).2).1
              /\ vId v = vid /\ resolvedAt v = Some t) as Hlisted.
  { intros t s Hs. rewrite resolveViolation_answer in Hs.
    destruct (findById (violationHeap s) vid (userLog s uid)) as [r|] eqn:Hfind; [|done].
    destruct (resolve_found t uid vid s r Hfind) as (v' & Hv' & Hid & Hres & Hat).
    exists v'. split; [|done].
    rewrite getUserViolations_result_eq. apply list_elem_of_omap. exists r. split; [|done].
    apply selectedRefs_elem. split.
    - unfold userLog. rewrite (proj1 (resolve_logs t uid vid s)).
      apply list_elem_of_In. by apply (findById_Some _ _ _ _ Hfind).
    - rewrite (passesAt_lookup _ _ _ _ Hv'). unfold passes. simpl. by rewrite Hres. }
  split; [by apply Hlisted|].
  intros later.
  assert ((resolveViolation later uid vid st').1 = true) as Hagain.
  { rewrite resolveViolation_answer in *. subst st'.
    unfold userLog. rewrite (proj1 (resolve_logs now uid vid st)). fold (userLog st uid).
    destruct (findById (violationHeap st) vid (userLog st uid)) as [r|] eqn:Hfind; [|done].
    destruct (findById_evolves _ (violationHeap (resolveViolation now uid vid st).2)
                vid (userLog st uid)
                (HeapEvolves_step (OpResolve now uid vid) st)) as [r1 ->]; by eauto. }
  split; [done | by apply Hlisted].
Qed.

Lemma resolved_violation_is_listed_witness :
  let st' :=
    (resolveViolation 1700000002000%Z "violation-user" "1700000001000-bbb" twoViolations).2 in
  exists v,
    v ∈ (getUserViolations "violation-user"
           (Some {| qResolved := Some true; qObjectType := None; qLimit := None |}) st').1
    /\ vId v = "1700000001000-bbb" /\ resolvedAt v = Some 1700000002000%Z.
Proof.
  intros st'.
  apply (proj1 (resolved_violation_is_listed 1700000002000%Z "violation-user"
                  "1700000001000-bbb" twoViolations eq_refl)).
Defined.

(** *** [getAllScorecards] *)

Lemma sortInsert_perm_any {A} (after : A -> A -> bool) x l :
  sortInsert after x l ≡ₚ x :: l.
Proof.
  induction l as [|y l IH]; simpl; [done|].
  destruct (after x y); [|done]. rewrite IH. apply Permutation_swap.
Qed.

Lemma sortBy_perm_any {A} (after : A -> A -> bool) l : sortBy after l ≡ₚ l.
Proof.
  unfold sortBy. induction l as [|x l IH]; simpl; [done|].
  by rewrite sortInsert_perm_any, IH.
Qed.

Lemma get_elem_of {V} (m : list (string * V)) k v :
  NoDup m.*1 -> (k, v) ∈ m -> JsMap.get k m = Some v.
Proof.
  induction m as [|[k0 v0] m IH]; intros Hnd Hin; cbn [JsMap.get].
  - by apply elem_of_nil in Hin.
  - rewrite fmap_cons in Hnd. apply NoDup_cons in Hnd as [Hk0 Hnd].
    apply elem_of_cons in Hin as [[= -> ->]|Hin]; [by rewrite String.eqb_refl|].
    destruct (String.eqb_spec k k0) as [->|Hne]; [|by apply IH].
    exfalso. apply Hk0. apply list_elem_of_fmap. by exists (k0, v).
Qed.

(** X19. On a store reached from the empty one, [getAllScorecards] lists
    the scorecard of every user exactly once: the result is a rearrangement
    of the stored scorecards, no two entries have the same user id, and
    each entry is the scorecard [getScorecard] returns for its user. *)
Theorem getAllScorecards_lists_each_user_once (ops : list Op) :
  let st := run empty ops in
  let listed := (getAllScorecards st).1 in
  listed ≡ₚ JsMap.values (scorecardStore st)
  /\ length listed = length (scorecardStore st)
  /\ NoDup (map userId listed)
  /\ (forall sc, sc ∈ listed -> (getScorecard (userId sc) st).1 = Some sc)
  /\ (forall uid sc, (getScorecard uid st).1 = Some sc -> sc ∈ listed).
Proof.
  intros st listed.
  destruct (consistent_run ops empty consistent_empty) as [Hk Hc _]. fold st in Hk, Hc.
  assert (listed ≡ₚ JsMap.values (scorecardStore st)) as Hperm
    by apply sortBy_perm_any.
  assert (forall sc, sc ∈ JsMap.values (scorecardStore st) ->
                     JsMap.get (userId sc) (scorecardStore st) = Some sc) as Hval.
  { intros sc Hin. unfold JsMap.values in Hin.
    apply list_elem_of_fmap in Hin as ([k v] & -> & Hin). simpl.
    pose proof (get_elem_of _ _ _ Hk Hin) as Hg.
    destruct (Hc k v Hg) as [-> _ _ _ _]. done. }
  split; [done|]. split; [|split; [|split]].
  - rewrite Hperm. unfold JsMap.values. by rewrite length_map.
  - rewrite Hperm.
    assert (map userId (JsMap.values (scorecardStore st)) = (scorecardStore st).*1) as ->;
      [|done].
    unfold JsMap.values. rewrite map_map. apply map_ext_in.
    intros [k v] Hin. simpl. apply list_elem_of_In in Hin.
    pose proof (get_elem_of _ _ _ Hk Hin) as Hg. by destruct (Hc k v Hg).
  - intros sc Hin. rewrite Hperm in Hin. by apply Hval.
  - intros uid sc Hg. simpl in Hg. rewrite Hperm. unfold JsMap.values.
    apply list_elem_of_fmap. exists (uid, sc). split; [done|].
    clear -Hg. induction (scorecardStore st) as [|[k0 v0] m IH]; simpl in Hg; [done|].
    destruct (String.eqb_spec uid k0) as [->|Hne].
    + injection Hg as ->. left.
    + right. by apply IH.
Qed.

End ScorecardMore.

(** ** More on the alert service *)

Module AlertMore.
Import Alerts AlertFacts SortFacts AlertNotions.
Local Open Scope nat_scope.

Local Abbreviation newest :=
  (StronglySorted (fun a b : GovernanceAlert => (aTimestamp b <= aTimestamp a)%Z)).

Lemma newestFirst_sorted alerts : newest (newestFirst alerts).
Proof. apply (sortBy_descending aTimestamp). Qed.

Lemma newestFirst_elem alerts a : a ∈ newestFirst alerts <-> a ∈ alerts.
Proof. unfold newestFirst. by rewrite (sortBy_Permutation aTimestamp). Qed.

Lemma newestFirst_length alerts : length (newestFirst alerts) = length alerts.
Proof. apply (sortBy_length aTimestamp). Qed.

Lemma resolveIds_elem st ids a :
  a ∈ resolveIds st ids <-> exists id, id ∈ ids /\ alertStore st !! id = Some a.
Proof. apply list_elem_of_omap. Qed.

Lemma limited_none {A} limit (l : list A) :
  limit = None \/ limit = Some 0%Z -> limited limit l = l.
Proof. unfold limited. by intros [-> | ->]. Qed.

Lemma filter_true {A} (l : list A) : List.filter (fun _ => true) l = l.
Proof. induction l as [|a l IH]; simpl; [done | by rewrite IH]. Qed.

Lemma filter_and {A} (p q : A -> bool) l :
  List.filter q (List.filter p l) = List.filter (fun x => p x && q x) l.
Proof.
  induction l as [|a l IH]; simpl; [done|].
  destruct (p a); simpl; [destruct (q a)|]; by rewrite IH.
Qed.

Lemma List_filter_length_le {A} (p : A -> bool) l : length (List.filter p l) <= length l.
Proof. induction l as [|a l IH]; simpl; [done|]. destruct (p a); simpl; lia. Qed.

Lemma limited_length_le {A} limit (l : list A) : length (limited limit l) <= length l.
Proof.
  unfold limited, slice0. destruct (truthyNum limit); [|done].
  destruct (0 <=? default 0%Z limit)%Z; rewrite length_take; lia.
Qed.

Lemma getPortalAlerts_eq portalId options st :
  (getPortalAlerts portalId options st).1
  = limited (options ≫= paLimit)
      (newestFirst
         (List.filter (passesPortal options)
            (resolveIds st (default [] (alertsByPortal st !! portalId))))).
Proof.
  unfold getPortalAlerts. cbn [fst]. do 2 f_equal.
  generalize (resolveIds st (default [] (alertsByPortal st !! portalId))). intros l.
  transitivity
    (List.filter
       (fun a => match options ≫= paType with
                 | Some wanted => sameAlertType (aType a) wanted
                 | None => true
                 end)
       (List.filter
          (fun a => if truthyStr (options ≫= paSeverity)
                    then String.eqb (severityName (aSeverity a))
                           (default "" (options ≫= paSeverity))
                    else true)
          (List.filter
             (fun a => match options ≫= paAcknowledged with
                       | Some wanted => Bool.eqb (acknowledged a) wanted
                       | None => true
                       end) l))).
  - destruct (options ≫= paAcknowledged), (truthyStr (options ≫= paSeverity)),
      (options ≫= paType); by rewrite ?filter_true.
  - rewrite !filter_and. apply filter_ext. intros a. unfold passesPortal.
    by rewrite ?andb_assoc.
Qed.

(** X20. The alerts [getPortalAlerts] returns are ordered newest first;
    each is a stored alert whose id the portal's index lists and which
    passes the [acknowledged], [severity] and [type] filters of the query;
    a positive [limit] bounds their number.  Ids of the index that the
    store no longer holds are passed over.  Without a limit (or with the
    limit 0, which counts as none) every stored alert of the index that
    passes the filters is returned. *)
Theorem getPortalAlerts_result (portalId : Z) (options : option PortalAlertQuery)
    (st : Store) :
  let ids := default [] (alertsByPortal st !! portalId) in
  let result := (getPortalAlerts portalId options st).1 in
  newest result
  /\ (forall a,
        a ∈ result ->
        (exists id, id ∈ ids /\ alertStore st !! id = Some a)
        /\ passesPortal options a = true)
  /\ (forall n, options ≫= paLimit = Some n -> (0 < n)%Z -> length result <= Z.to_nat n)
  /\ (options ≫= paLimit = None \/ options ≫= paLimit = Some 0%Z ->
      forall id a,
        id ∈ ids -> alertStore st !! id = Some a -> passesPortal options a = true ->
        a ∈ result)
  /\ length result <= length ids.
Proof.
  intros ids result. subst result. rewrite getPortalAlerts_eq. fold ids.
  split; [|split; [|split; [|split]]].
  - apply ScorecardMore.limited_sorted, newestFirst_sorted.
  - intros a Ha. apply ScorecardMore.limited_subseteq in Ha.
    rewrite newestFirst_elem, ScorecardMore.elem_of_List_filter in Ha. destruct Ha as [Ha Hp].
    split; [by apply resolveIds_elem | done].
  - intros n Hn Hpos. rewrite Hn. by apply ScorecardMore.limited_length.
  - intros Hlim id a Hid Ha Hp. rewrite limited_none by done.
    rewrite newestFirst_elem, ScorecardMore.elem_of_List_filter.
    split; [|done]. apply resolveIds_elem. by exists id.
  - pose proof (limited_length_le (options ≫= paLimit)
                  (newestFirst (List.filter (passesPortal options) (resolveIds st ids)))).
    pose proof (List_filter_length_le (passesPortal options) (resolveIds st ids)).
    pose proof (ScorecardMore.omap_length_le (fun id => alertStore st !! id) ids).
    rewrite newestFirst_length in *. unfold resolveIds in *. lia.
Qed.

Lemma getUserAlerts_eq uid options st :
  (getUserAlerts uid options st).1
  = limited (options ≫= uaLimit)
      (newestFirst
         (List.filter (passesUser options)
            (resolveIds st (default [] (alertsByUser st !! uid))))).
Proof.
  unfold getUserAlerts, passesUser. cbn [fst]. do 2 f_equal.
  destruct (options ≫= uaAcknowledged); by rewrite ?filter_true.
Qed.

(** X21. The alerts [getUserAlerts] returns are ordered newest first; each
    is a stored alert whose id the user's index lists and whose
    [acknowledged] flag is the one asked for, if one is asked for; a
    positive [limit] bounds their number; without a limit every such alert
    is returned. *)
Theorem getUserAlerts_result (uid : string) (options : option UserAlertQuery)
    (st : Store) :
  let ids := default [] (alertsByUser st !! uid) in
  let result := (getUserAlerts uid options st).1 in
  newest result
  /\ (forall a,
        a ∈ result ->
        (exists id, id ∈ ids /\ alertStore st !! id = Some a)
        /\ (forall wanted, options ≫= uaAcknowledged = Some wanted -> acknowledged a = wanted))
  /\ (forall n, options ≫= uaLimit = Some n -> (0 < n)%Z -> length result <= Z.to_nat n)
  /\ (options ≫= uaLimit = None \/ options ≫= uaLimit = Some 0%Z ->
      forall id a,
        id ∈ ids -> alertStore st !! id = Some a -> passesUser options a = true ->
        a ∈ result).
Proof.
  intros ids result. subst result. rewrite getUserAlerts_eq. fold ids.
  split; [|split; [|split]].
  - apply ScorecardMore.limited_sorted, newestFirst_sorted.
  - intros a Ha. apply ScorecardMore.limited_subseteq in Ha.
    rewrite newestFirst_elem, ScorecardMore.elem_of_List_filter in Ha. destruct Ha as [Ha Hp].
    split; [by apply resolveIds_elem|].
    intros wanted Hw. unfold passesUser in Hp. rewrite Hw in Hp. by apply Bool.eqb_prop.
  - intros n Hn Hpos. rewrite Hn. by apply ScorecardMore.limited_length.
  - intros Hlim id a Hid Ha Hp. rewrite limited_none by done.
    rewrite newestFirst_elem, ScorecardMore.elem_of_List_filter.
    split; [|done]. apply resolveIds_elem. by exists id.
Qed.

(** *** [createAlert] and [acknowledgeAlert] *)

Lemma getUserAlerts_elem uid options st a :
  options ≫= uaLimit = None ->
  a ∈ (getUserAlerts uid options st).1
  <-> passesUser options a = true
      /\ exists id, id ∈ default [] (alertsByUser st !! uid) /\ alertStore st !! id = Some a.
Proof.
  intros Hl. rewrite getUserAlerts_eq, Hl, limited_none by (by left).
  rewrite newestFirst_elem, ScorecardMore.elem_of_List_filter, resolveIds_elem. tauto.
Qed.

Lemma getPortalAlerts_elem portalId options st a :
  options ≫= paLimit = None ->
  a ∈ (getPortalAlerts portalId options st).1
  <-> passesPortal options a = true
      /\ exists id, id ∈ default [] (alertsByPortal st !! portalId)
                    /\ alertStore st !! id = Some a.
Proof.
  intros Hl. rewrite getPortalAlerts_eq, Hl, limited_none by (by left).
  rewrite newestFirst_elem, ScorecardMore.elem_of_List_filter, resolveIds_elem. tauto.
Qed.

(** X22. [createAlert] stores the new alert under the generated id, so
    [getAlert] finds it; the alert is unacknowledged and stamped with the
    call time; the id is appended to the index of the portal and to the
    index of the alert's user, and the alert is among the alerts listed for
    that portal and for that user.  Alerts under other ids and the indices
    of other portals and users are not touched. *)
Theorem createAlert_spec (now : Date) (newId : string) (portalId : Z)
    (fields : AlertFields) (st : Store) :
  let alert := (createAlert now newId portalId fields st).1 in
  let st' := (createAlert now newId portalId fields st).2 in
  (getAlert newId st').1 = Some alert
  /\ aId alert = newId /\ acknowledged alert = false /\ aTimestamp alert = now
  /\ aUserId alert = fUserId fields
  /\ alertsByPortal st' !! portalId
     = Some (default [] (alertsByPortal st !! portalId) ++ [newId])%list
  /\ alertsByUser st' !! fUserId fields
     = Some (default [] (alertsByUser st !! fUserId fields) ++ [newId])%list
  /\ alert ∈ (getPortalAlerts portalId None st').1
  /\ alert ∈ (getUserAlerts (fUserId fields) None st').1
  /\ (forall id, id <> newId -> alertStore st' !! id = alertStore st !! id)
  /\ (forall p, p <> portalId -> alertsByPortal st' !! p = alertsByPortal st !! p)
  /\ (forall u, u <> fUserId fields -> alertsByUser st' !! u = alertsByUser st !! u).
Proof.
  intros alert st'.
  assert (alertStore st' !! newId = Some alert) as Hstored by apply lookup_insert_eq.
  assert (alertsByPortal st' !! portalId
          = Some (default [] (alertsByPortal st !! portalId) ++ [newId])%list) as Hp
    by apply lookup_insert_eq.
  assert (alertsByUser st' !! fUserId fields
          = Some (default [] (alertsByUser st !! fUserId fields) ++ [newId])%list) as Hu
    by apply lookup_insert_eq.
  split; [exact Hstored|]. do 4 (split; [reflexivity|]).
  split; [exact Hp|]. split; [exact Hu|].
  split; [|split; [|split; [|split]]].
  - apply getPortalAlerts_elem; [done|]. split; [done|].
    exists newId. rewrite Hp. split; [|done]. apply elem_of_app; right; left.
  - apply getUserAlerts_elem; [done|]. split; [done|].
    exists newId. rewrite Hu. split; [|done]. apply elem_of_app; right; left.
  - intros id Hne. by apply lookup_insert_ne.
  - intros p Hne. by apply lookup_insert_ne.
  - intros u Hne. by apply lookup_insert_ne.
Qed.




(** *** The count of unacknowledged alerts *)

Lemma unacknowledged_count_eq uid st :
  (getUnacknowledgedAlertCount uid st).1
  = length (List.filter (fun a => negb (acknowledged a))
              (resolveIds st (default [] (alertsByUser st !! uid)))).
Proof.
  unfold getUnacknowledgedAlertCount.
  pose proof (getUserAlerts_eq uid
                (Some {| uaAcknowledged := Some false; uaLimit := None |}) st) as H.
  pose proof (getUserAlerts_readonly uid
                (Some {| uaAcknowledged := Some false; uaLimit := None |}) st) as H'.
  destruct (getUserAlerts uid _ st) as [alerts st0]. cbn in *. subst alerts.
  rewrite newestFirst_length. apply (f_equal (@length _)). apply filter_ext. intros a.
  unfold passesUser. cbn. by destruct (acknowledged a).
Qed.

Lemma resolveIds_insert_fresh st newId alert ids :
  newId ∉ ids ->
  omap (fun id => <[newId := alert]> (alertStore st) !! id) ids = resolveIds st ids.
Proof.
  unfold resolveIds. induction ids as [|id ids IH]; intros Hnin; csimpl; [done|].
  apply not_elem_of_cons in Hnin as [Hne Hnin].
  rewrite lookup_insert_ne by done. by rewrite IH.
Qed.

Lemma filter_app_single {A} (p : A -> bool) l x :
  List.filter p (l ++ [x]) = (List.filter p l ++ if p x then [x] else [])%list.
Proof. by rewrite List.filter_app. Qed.

(** X24. Creating an alert under an id that no user's index lists raises
    the unacknowledged count of the alert's user by one and leaves the count
    of every other user as it was. *)
Theorem createAlert_counts (now : Date) (newId : string) (portalId : Z)
    (fields : AlertFields) (st : Store)
    (Hfresh : forall uid ids, alertsByUser st !! uid = Some ids -> newId ∉ ids) :
  let st' := (createAlert now newId portalId fields st).2 in
  (getUnacknowledgedAlertCount (fUserId fields) st').1
  = S (getUnacknowledgedAlertCount (fUserId fields) st).1
  /\ (forall other,
        other <> fUserId fields ->
        (getUnacknowledgedAlertCount other st').1 = (getUnacknowledgedAlertCount other st).1).
Proof.
  intros st'. subst st'. rewrite !unacknowledged_count_eq.
  assert (forall uid, newId ∉ default [] (alertsByUser st !! uid)) as Hnin.
  { intros uid. destruct (alertsByUser st !! uid) as [ids|] eqn:E; cbn.
    - by apply (Hfresh uid).
    - apply not_elem_of_nil. }
  split.
  - unfold createAlert. cbn [snd alertsByUser alertStore]. rewrite lookup_insert_eq. cbn.
    unfold resolveIds at 1. cbn [alertStore]. rewrite omap_app. csimpl.
    rewrite lookup_insert_eq. csimpl.
    rewrite (resolveIds_insert_fresh st newId _ _ (Hnin (fUserId fields))).
    rewrite filter_app_single. cbn [negb acknowledged]. rewrite length_app.
    unfold resolveIds. cbn [length]. lia.
  - intros other Hne. rewrite !unacknowledged_count_eq.
    unfold createAlert. cbn [snd alertsByUser alertStore].
    rewrite lookup_insert_ne by done.
    unfold resolveIds at 1. cbn [alertStore].
    by rewrite (resolveIds_insert_fresh st newId _ _ (Hnin other)).
Qed.

Lemma createAlert_counts_witness :
  (getUnacknowledgedAlertCount "user-456"
     (createAlert 1700000004000%Z "1700000004000-ccc" 12345 sampleAlert oneAcknowledged).2).1
  = S (getUnacknowledgedAlertCount "user-456" oneAcknowledged).1.
Proof.
  refine (proj1 (createAlert_counts 1700000004000%Z "1700000004000-ccc" 12345 sampleAlert
                   oneAcknowledged _)).
  intros uid ids Hids.
  destruct (decide (uid = "user-456")) as [->|Hne].
  - vm_compute in Hids. injection Hids as <-.
    rewrite !not_elem_of_cons. repeat split; try discriminate. apply not_elem_of_nil.
  - assert (alertsByUser oneAcknowledged
            = <["user-456" := ["1700000000000-aaa"; "1700000001000-bbb"]]> ∅) as Hidx
      by (vm_compute; reflexivity).
    rewrite Hidx, lookup_insert_ne, lookup_empty in Hids by done. discriminate.
Defined.

(** *** Cleaning up twice *)

Lemma cleanup_lookup now days st id :
  alertStore (cleanupOldAlerts now days st).2 !! id
  = match alertStore st !! id with
    | Some a => if expired (daysBefore now (default 30%Z days)) a then None else Some a
    | None => None
    end.
Proof.
  unfold cleanupOldAlerts.
  pose proof (cleanup_fold_lookup (daysBefore now (default 30%Z days))
                (map_to_list (alertStore st)) (alertStore st, 0) id) as H.
  destruct (foldl _ _ _) as [pruned n]. cbn in *. rewrite H, dooms_map_to_list.
  destruct (alertStore st !! id) as [a|]; [|done].
  by destruct (expired _ a).
Qed.

Lemma cleanup_count now days st :
  (cleanupOldAlerts now days st).1 + size (alertStore (cleanupOldAlerts now days st).2)
  = size (alertStore st).
Proof.
  unfold cleanupOldAlerts.
  pose proof (cleanup_fold_size (daysBefore now (default 30%Z days))
                (map_to_list (alertStore st)) (alertStore st, 0)
                (NoDup_fst_map_to_list _)) as H.
  destruct (foldl _ _ _) as [pruned n]. cbn in *. apply H.
  intros k a Hin. apply elem_of_map_to_list in Hin. by eexists.
Qed.

Lemma cleanup_indices now days st :
  alertsByPortal (cleanupOldAlerts now days st).2 = alertsByPortal st
  /\ alertsByUser (cleanupOldAlerts now days st).2 = alertsByUser st.
Proof. unfold cleanupOldAlerts. by destruct (foldl _ _ _). Qed.

(** X25. Running [cleanupOldAlerts] a second time with the same clock and
    the same age removes nothing: it answers 0 and leaves the state the
    first run produced. *)
Theorem cleanupOldAlerts_idempotent (now : Date) (olderThanDays : option Z) (st : Store) :
  let st' := (cleanupOldAlerts now olderThanDays st).2 in
  cleanupOldAlerts now olderThanDays st' = (0, st').
Proof.
  intros st'.
  assert (alertStore (cleanupOldAlerts now olderThanDays st').2 = alertStore st') as Hstore.
  { apply map_eq. intros id. rewrite cleanup_lookup. subst st'. rewrite cleanup_lookup.
    destruct (alertStore st !! id) as [a|]; [|done].
    destruct (expired _ a) eqn:E; [done|]. by rewrite E. }
  pose proof (cleanup_count now olderThanDays st') as Hcount. rewrite Hstore in Hcount.
  destruct (cleanup_indices now olderThanDays st') as [Hp Hu].
  destruct (cleanupOldAlerts now olderThanDays st') as [n [s1 p1 u1]].
  cbn in *. subst. f_equal; [lia|]. by destruct st'.
Qed.

End AlertMore.

(** ** The [POST /validate] handler *)

Module RoutesFacts.
Import Scorecard JsMapFacts ScorecardFacts.
Local Open Scope nat_scope.

Lemma record_heap_valid c st :
  tIsValid c = true ->
  violationHeap (recordStageTransition c st) = violationHeap st.
Proof.
  intros Hv. unfold recordStageTransition.
  destruct (getOrCreate_logs (tNow c) (tUserId c) (tUserName c) st) as [_ Hheap].
  destruct (getOrCreateScorecard (tNow c) (tUserId c) (tUserName c) st) as [sc st1].
  by rewrite Hv.
Qed.

Lemma record_heap_invalid c st :
  tIsValid c = false -> truthyStr (tRuleId c) = true -> truthyStr (tRuleName c) = true ->
  exists v,
    violationHeap (recordStageTransition c st) = (violationHeap st ++ [v])%list
    /\ vId v = tNewId c /\ vRuleId v = default "" (tRuleId c)
    /\ missingFields v = tMissingFields c /\ resolved v = false.
Proof.
  intros Hv Hid Hname. unfold recordStageTransition.
  destruct (getOrCreate_logs (tNow c) (tUserId c) (tUserName c) st) as [_ Hheap].
  destruct (getOrCreateScorecard (tNow c) (tUserId c) (tUserName c) st) as [sc st1].
  rewrite Hv, Hid, Hname. cbn in *. rewrite Hheap. by eexists.
Qed.

Section Handler.
Context (regExpTest : string -> string -> option bool).
Context (parseFloat : string -> float).

Local Abbreviation handle := (postValidate regExpTest parseFloat).

(** X26. The handler of [POST /validate] changes no store when it answers
    400, and none either when the body has no user id or no portal id (an
    empty user id and portal 0 count as absent): such a validation is
    answered but not recorded.  With both present, the user's scorecard
    exists afterwards and counts one transition more than was stored.  A
    valid result creates no violation and no alert.  An invalid result
    appends one violation, under the first generated id and the rule id
    ["validation-error"], and stores one unacknowledged alert for the user
    under the second generated id, of type required-field-missing, with
    severity error when there are more than two errors and warning
    otherwise. *)
Theorem postValidate_effects (now : Date) (violationId alertId : string)
    (body : ValidateBody) (st : AppState) :
  let out := handle now violationId alertId body st in
  (forall e, out.1 = BadRequest e -> out.2 = st)
  /\ (truthyStr (bUserId body) && truthyNum (bPortalId body) = false -> out.2 = st)
  /\ (forall result,
        out.1 = Validated result ->
        truthyStr (bUserId body) = true -> truthyNum (bPortalId body) = true ->
        let uid := default "" (bUserId body) in
        (exists sc,
           JsMap.get uid (scorecardStore (scorecards out.2)) = Some sc
           /\ totalStageTransitions (metrics sc)
              = S (totalStageTransitions (storedMetrics (scorecards st) uid)))
        /\ (isValid result = true ->
            alerts out.2 = alerts st
            /\ violationHeap (scorecards out.2) = violationHeap (scorecards st))
        /\ (isValid result = false ->
            (exists v,
               violationHeap (scorecards out.2) = (violationHeap (scorecards st) ++ [v])%list
               /\ vId v = violationId /\ vRuleId v = "validation-error"
               /\ missingFields v = Some (errorFields (errors result))
               /\ resolved v = false)
            /\ exists a,
                 Alerts.alertStore (alerts out.2) !! alertId = Some a
                 /\ aUserId a = uid /\ acknowledged a = false
                 /\ aType a = RequiredFieldMissing
                 /\ aSeverity a
                    = if 2 <? length (errors result) then AlertError else AlertWarning)).
Proof.
  intros out. subst out. unfold postValidate.
  destruct (negb _) eqn:Hmissing; [by repeat split|].
  destruct (if String.eqb (default "" (bObjectType body)) "contact" then _ else _)
    as [ot|] eqn:Hot; [|by repeat split].
  cbn zeta.
  set (request := {| objectType := ot |}).
  set (result := validateStageTransition regExpTest parseFloat request).
  assert (isValid result = Nat.eqb (length (errors result)) 0) as Hvalid by reflexivity.
  clearbody result. split; [|split].
  - intros e He. discriminate He.
  - by intros ->.
  - intros result' [= <-] Hu Hp. rewrite Hu, Hp. cbn [andb fst snd scorecards alerts].
    set (c := {| tNow := now |}).
    split; [|split].
    + destruct (record_lookup c (scorecards st)) as (after & Hget & Hrec).
      exists after. split; [exact Hget|].
      destruct Hrec as [_ _ Htotal _ _ _ _ _]. rewrite Htotal. f_equal.
      by rewrite current_metrics.
    + intros Hv. rewrite Hv. split; [done|]. by apply record_heap_valid.
    + intros Hv. rewrite Hv.
      assert ((0 <? length (errors result)) = true) as Hfailed.
      { rewrite Hvalid in Hv. apply Nat.eqb_neq in Hv. apply Nat.ltb_lt. lia. }
      split.
      * destruct (record_heap_invalid c (scorecards st)) as (v & Hheap & Hid & Hrule & Hmf & Hres).
        -- exact Hv.
        -- unfold c. cbn [tRuleId]. by rewrite Hfailed.
        -- unfold c. cbn [tRuleName]. by rewrite Hfailed.
        -- exists v. unfold c in Hid, Hrule, Hmf. cbn [tRuleId tNewId tMissingFields] in *.
           rewrite Hfailed in Hrule. done.
      * rewrite Hfailed. cbn [negb andb].
        unfold Alerts.createAlertFromViolation, Alerts.createAlert.
        cbn [snd Alerts.alertStore]. rewrite lookup_insert_eq. eexists. split; [reflexivity|].
        do 3 (split; [reflexivity|]).
        cbn [aSeverity Alerts.fSeverity vSeverity]. by destruct (2 <? length (errors result)).
Qed.

End Handler.

Lemma postValidate_effects_witness :
  let out :=
    postValidate noRegExp noParseFloat 1700000000000%Z "1700000000000-aaa"
      "1700000000000-bbb" leadBody freshApp in
  exists a,
    Alerts.alertStore (alerts out.2) !! "1700000000000-bbb" = Some a
    /\ aUserId a = "user-456" /\ acknowledged a = false
    /\ aType a = RequiredFieldMissing
    /\ aSeverity a
       = if 2 <? length (errors (validateStageTransition noRegExp noParseFloat
                                   leadWithEmailOnly))
         then AlertError else AlertWarning.
Proof.
  refine (proj2 (proj2 (proj2 (proj2 (proj2
            (postValidate_effects noRegExp noParseFloat 1700000000000%Z "1700000000000-aaa"
               "1700000000000-bbb" leadBody freshApp))
            (validateStageTransition noRegExp noParseFloat leadWithEmailOnly) _ _ _)) _)).
  - vm_compute. reflexivity.
  - reflexivity.
  - reflexivity.
  - vm_compute. reflexivity.
Defined.

End RoutesFacts.

(** ** The scorecard period *)

Module PeriodFacts.
Import Scorecard.
Local Open Scope Z_scope.

(** X27. With the server clock in UTC, the period [getCurrentPeriod]
    computes is the week of the call: it starts on a Sunday at midnight,
    ends one millisecond before the next Sunday, and contains the call
    time.  Every instant of that week yields the same period, so the weeks
    partition time. *)
Theorem getCurrentPeriod_week (now : Date) :
  let p := getCurrentPeriod now in
  startDate p <= now <= endDate p
  /\ endDate p = startDate p + 7 * msPerDay - 1
  /\ startDate p mod msPerDay = 0
  /\ getDay (startDate p) = 0
  /\ periodType p = Weekly
  /\ (forall t, startDate p <= t <= endDate p -> getCurrentPeriod t = p).
Proof.
  intros p. subst p. unfold getCurrentPeriod, getDay, msPerDay.
  cbn [startDate endDate periodType].
  set (d := now / 86400000).
  set (g := (d + 4) mod 7).
  assert (0 <= g < 7) as Hg by (apply Z.mod_pos_bound; lia).
  assert (d + 4 = 7 * ((d + 4) / 7) + g) as Hd by (apply Z.div_mod; lia).
  assert (now = 86400000 * d + now mod 86400000) as Hn by (apply Z.div_mod; lia).
  assert (0 <= now mod 86400000 < 86400000) as Hr by (apply Z.mod_pos_bound; lia).
  assert (forall k, 0 <= k < 7 -> (d - g + k + 4) mod 7 = k) as Hday.
  { intros k Hk. replace (d - g + k + 4) with (k + (d + 4) / 7 * 7) by lia.
    rewrite Z.mod_add by lia. apply Z.mod_small. lia. }
  split; [lia|]. split; [lia|]. split; [apply Z.mod_mul; lia|]. split; [|split; [done|]].
  - rewrite Z.div_mul by lia. replace (d - g + 4) with (d - g + 0 + 4) by lia.
    apply Hday. lia.
  - intros t Ht.
    assert (t = 86400000 * (t / 86400000) + t mod 86400000) as Htd by (apply Z.div_mod; lia).
    assert (0 <= t mod 86400000 < 86400000) as Htr by (apply Z.mod_pos_bound; lia).
    set (k := t / 86400000 - (d - g)).
    assert (0 <= k < 7) as Hk by (unfold k; lia).
    replace (t / 86400000) with (d - g + k) by (unfold k; lia).
    rewrite (Hday k Hk). replace (d - g + k - k) with (d - g) by lia. reflexivity.
Qed.

End PeriodFacts.
